(** * nnom_utils: fixed-point shift calibration, reconciliation and
      weight quantisation

    A shallow embedding of [scripts/nnom_utils.py].  The Python code is
    embedded function by function, keeping the names of the source:
    [is_input_layer], [get_int_bits], [dec_bits_by_kld],
    [make_initial_shift_list], [is_shift_layer], [is_shift_fixed],
    [fuse_bn_to_conv], [generate_weights], [layers_output_ranges] and its
    local functions [get_iname] and [update_previous_layer_shift]; the
    helpers [f2q], [q2f], [pad_filter_sizes] and [flatten]; of
    [generate_model], the tables it builds ([is_skipable_layer], the
    output shifts it defines, the numbering of the layers, the lengths
    of the inputs and the border of a padding layer); of
    [generate_test_bin], the integer bits and the content of the file.

    Conventions of the embedding
    - a Python exception is a value of [exn]; a computation that may raise
      returns [result A], and sequencing is written [x ← m; k];
    - the dictionary [shift_list] is a [gmap string Z]; [d[k]] on a missing
      key raises [KeyError];
    - numpy arrays of floats are flattened lists of exact rationals [Q];
      [np.ceil (np.log2 x)] is taken exactly (see [ceil_log2]), the
      rounding of floating-point arithmetic is not modelled;
    - the Keras objects the script receives (layers, tensors, variables)
      are records holding the attributes the script reads;
    - what the script delegates to Keras, numpy histograms or scipy
      (evaluating a sub-model, the KL divergence of two histograms, the
      batch-normalisation fusion arithmetic, the random shuffle) is a
      Section variable;
    - the recursion of [update_previous_layer_shift] is bounded by the
      number of nested calls the interpreter allows, beyond which it
      raises [RecursionError];
    - [generate_weights] is embedded up to the values it returns; the text
      of the header file it writes (transposition and formatting of the
      quantised arrays) is left out, and so is the text [generate_model]
      writes around the values of its tables. *)

From Stdlib Require Import ZArith QArith Qround Qabs Qpower Qminmax Lia String Ascii List Bool.
From Stdlib Require Import Reals Qreals Lqa Lra.
From stdpp Require Import gmap strings list.

Close Scope R_scope.
Close Scope Q_scope.
Open Scope string_scope.
Open Scope Z_scope.

(** ** Exceptions and the error monad *)

Inductive exn : Type :=
| KeyError (key : string)
| IndexError
| AttributeError
| TypeError
| ValueError
| UnboundLocalError
| RecursionError
| AssertionError (msg : string)
| Exception (args : list string).

Definition result (A : Type) : Type := (exn + A)%type.

#[global] Instance result_ret : MRet result := fun _ x => inr x.
#[global] Instance result_bind : MBind result :=
  fun _ _ f m => match m with inl e => inl e | inr x => f x end.

Definition raise {A} (e : exn) : result A := inl e.

Definition is_ok {A} (r : result A) : bool :=
  match r with inr _ => true | inl _ => false end.

Definition raises {A} (r : result A) : Prop :=
  match r with inl _ => True | inr _ => False end.

(** [for x in xs: acc = f acc x], stopping at the first exception. *)
Fixpoint foldM {A B} (f : A → B → result A) (acc : A) (xs : list B) : result A :=
  match xs with
  | [] => mret acc
  | x :: xs' => acc' ← f acc x; foldM f acc' xs'
  end.

(** [d[k]] on a dictionary. *)
Definition get_item {V} (d : gmap string V) (k : string) : result V :=
  match d !! k with
  | Some v => mret v
  | None => raise (KeyError k)
  end.

(** [l[i]] on a list. *)
Definition list_item {A} (l : list A) (i : nat) : result A :=
  match l !! i with
  | Some v => mret v
  | None => raise IndexError
  end.

(** ** Strings *)

(** [sub in s] *)
Fixpoint contains (sub s : string) : bool :=
  String.prefix sub s ||
  match s with
  | EmptyString => false
  | String _ s' => contains sub s'
  end.

(** [s.split(sep)[0]] *)
Fixpoint split_head (sep : ascii) (s : string) : string :=
  match s with
  | EmptyString => EmptyString
  | String c s' =>
      if Ascii.eqb c sep then EmptyString else String c (split_head sep s')
  end.

(** [s.replace(a, b)] for single characters *)
Fixpoint replace_char (a b : ascii) (s : string) : string :=
  match s with
  | EmptyString => EmptyString
  | String c s' =>
      String (if Ascii.eqb c a then b else c) (replace_char a b s')
  end.

(** ** The Keras objects read by the script *)

(** A symbolic tensor: only its [name] is read. *)
Record KTensor : Type := { tensor_name : string }.

(** [layer.input] is one tensor, or a list of tensors for a layer called
    on several inputs ([isinstance(layer.input, list)]). *)
Inductive tensors : Type :=
| Single (t : KTensor)
| Multiple (ts : list KTensor).

(** A weight variable: [var.name] and the flattened [var.numpy()]. *)
Record Var : Type := { var_name : string; var_values : list Q }.

(** [node.inbound_layers] has the structure of the call arguments: the
    layer itself for a single input, a list of layers otherwise.  Only the
    names of these layers are read. *)
Inductive inbound : Type :=
| InLayer (n : string)
| InLayers (ns : list string).

Record Layer : Type := {
  layer_name : string;
  layer_input : tensors;
  (* get_config(), restricted to string-valued entries *)
  layer_config : gmap string string;
  layer_weights : list Var;
  (* inbound_nodes[i].inbound_layers *)
  inbound_nodes : list inbound;
  (* outbound_nodes[i].outbound_layer.name *)
  outbound_nodes : list string
}.

(** The script reads [.name] and calls [.get_config()] on layers and on
    tensors alike; a tensor has no [get_config]. *)
Class LayerLike (A : Type) : Type := {
  name : A → string;
  get_config : A → result (gmap string string)
}.

#[global] Instance Layer_like : LayerLike Layer := {|
  name := layer_name;
  get_config := fun l => mret (layer_config l)
|}.

#[global] Instance KTensor_like : LayerLike KTensor := {|
  name := tensor_name;
  get_config := fun _ => raise AttributeError
|}.

Section Classification.
Context {A : Type} `{LayerLike A}.

(** [is_input_layer] *)
Definition is_input_layer (layer : A) : bool :=
  contains "input" (name layer).

(** ['activation' in layer.name and
     layer.get_config()['activation'] == act] *)
Definition activation_is (layer : A) (act : string) : result bool :=
  if contains "activation" (name layer) then
    cfg ← get_config layer;
    a ← get_item cfg "activation";
    mret (String.eqb a act)
  else mret false.

(** A chain [a or b or c] whose operands may raise. *)
Fixpoint any_of (conds : list (result bool)) : result bool :=
  match conds with
  | [] => mret false
  | c :: conds' => b ← c; if (b : bool) then mret true else any_of conds'
  end.

(** [is_shift_layer]: layer which can change the output encoding *)
Definition is_shift_layer (layer : A) : result bool :=
  let n := name layer in
  any_of [
    mret (contains "input" n);
    mret (contains "conv2d" n);
    mret (contains "conv1d" n);
    mret (contains "dense" n);
    mret (contains "softmax" n);
    mret (contains "sigmoid" n);
    mret (contains "tanh" n);
    mret (contains "add" n && negb (contains "zero" n));
    mret (contains "subtract" n);
    mret (contains "multiply" n);
    activation_is layer "softmax";
    activation_is layer "sigmoid";
    activation_is layer "tanh"
  ].

(** [is_shift_fixed]: layer which shift to a fixed value *)
Definition is_shift_fixed (layer : A) : result bool :=
  let n := name layer in
  any_of [
    mret (contains "softmax" n);
    mret (contains "sigmoid" n);
    mret (contains "tanh" n);
    activation_is layer "softmax";
    activation_is layer "sigmoid";
    activation_is layer "tanh"
  ].
End Classification.

(** ** Numeric helpers (numpy on exact rationals) *)

(** [np.ceil(np.log2(x))] as an integer, for [x > 0]: the least [k] with
    [x <= 2^k].  For [x >= 1] this is [log2_up] of the ceiling of [x];
    for [x < 1] it is minus the [log2] of the floor of [1/x]. *)
Definition ceil_log2 (x : Q) : Z :=
  let p := Qnum x in
  let q := Z.pos (Qden x) in
  if q <=? p then Z.log2_up (Qceiling x) else - Z.log2 (q / p).

(** The floor [1e-10] of [get_int_bits]. *)
Definition tiny : Q := 1 # 10000000000.

(** [max([a, b, c])] *)
Definition max3 (a b c : Q) : Q := Qmax a (Qmax b c).

(** [get_int_bits]: the number of bits needed to represent a set of values
    with a minimum of [min_value] and a maximum of [max_value]. *)
Definition get_int_bits (min_value max_value : Q) : Z :=
  ceil_log2 (max3 (Qabs min_value) (Qabs max_value) tiny).

(** [arr.max()], [np.max(arr)]: raises on an empty array. *)
Definition np_max (arr : list Q) : result Q :=
  match arr with
  | [] => raise ValueError
  | x :: xs => mret (fold_left Qmax xs x)
  end.

(** [arr.min()], [np.min(arr)] *)
Definition np_min (arr : list Q) : result Q :=
  match arr with
  | [] => raise ValueError
  | x :: xs => mret (fold_left Qmin xs x)
  end.

(** [np.round]: to the nearest integer, ties to the even one. *)
Definition np_round (x : Q) : Z :=
  let f := Qfloor x in
  match (x - inject_Z f ?= 1 # 2)%Q with
  | Lt => f
  | Gt => f + 1
  | Eq => if Z.even f then f else f + 1
  end.

(** [np.argmin]: index of the first occurrence of the minimum. *)
Fixpoint argmin_from (best_i : nat) (best : Q) (i : nat) (l : list Q) : nat :=
  match l with
  | [] => best_i
  | x :: l' =>
      if Qlt_le_dec x best
      then argmin_from i x (S i) l'
      else argmin_from best_i best (S i) l'
  end.

Definition np_argmin (l : list Q) : result nat :=
  match l with
  | [] => raise ValueError
  | x :: l' => mret (argmin_from 0%nat x 1%nat l')
  end.

(** [for x in xs: out.append(f x)], stopping at the first exception. *)
Fixpoint mapM {A B} (f : A → result B) (xs : list A) : result (list B) :=
  match xs with
  | [] => mret []
  | x :: xs' => y ← f x; ys ← mapM f xs'; mret (y :: ys)
  end.

(** ** Calibration: [dec_bits_by_kld] and [make_initial_shift_list] *)

(** [x_test]: one array, or a list of arrays (one per model input). *)
Inductive xtest : Type :=
| XArray (a : list Q)
| XList (l : list (list Q)).

(** A Keras model: [model.layers], [model.input], and whether
    [isinstance(model.input, tf.Tensor)]. *)
Record Model : Type := {
  layers : list Layer;
  model_input : tensors;
  input_is_tf_tensor : bool
}.

(** An element of the list the calibration loop walks: a layer, or the
    input tensor of the model put in front of the layers. *)
Inductive node : Type :=
| NLayer (l : Layer)
| NTensor (t : KTensor).

#[global] Instance node_like : LayerLike node := {|
  name := fun n => match n with NLayer l => name l | NTensor t => name t end;
  get_config := fun n =>
    match n with NLayer l => get_config l | NTensor t => get_config t end
|}.

(** State of the layer loop of [make_initial_shift_list]. *)
Record calib_state : Type := {
  features : option (list Q);      (* unbound before the first assignment *)
  shift_list : gmap string Z;
  last_layer : option node;
  inp_idx : nat
}.

(** [get_iname] of [layers_output_ranges] *)
Definition get_iname {A} `{LayerLike A} (layer : A) : string :=
  split_head "/" (name layer).

(** [get_iname] of [generate_model], also inlined in [generate_weights] *)
Definition get_iname_colon {A} `{LayerLike A} (layer : A) : string :=
  split_head "/" (replace_char ":" "/" (name layer)).

Section Calibration.

(** [scipy.stats.entropy(flat_hist, act_hist)] of the iteration [shift] of
    the loop of [dec_bits_by_kld], from the sampled activations and the
    base [dec_bits] (lines 126-155: the two histograms and their
    divergence). *)
Variable kld_divergence : list Q → Z → nat → result Q.

(** [get_features(Model(inputs=model.input, outputs=layer.output), x_test)]:
    the activations of a layer on the calibration samples. *)
Variable predict : Model → Layer → xtest → list Q.

(** [dec_bits_by_kld] *)
Definition dec_bits_by_kld (feats : list Q) (dec_bits : Z) : result Z :=
  kld_loss ← mapM (fun shift => kld_divergence feats dec_bits shift) (seq 0 4);
  let kld_shifts := map (fun shift => dec_bits + Z.of_nat shift) (seq 0 4) in
  i ← np_argmin kld_loss;
  list_item kld_shifts i.

(** The test guarding the call of [dec_bits_by_kld] (lines 208-213). *)
Definition use_kld (quantize_method : string) (layer : node) : result bool :=
  if contains "kld" quantize_method then
    fixed ← is_shift_fixed layer;
    mret (negb fixed && negb (is_input_layer layer)
          && negb (contains "dense" (name layer)))
  else mret false.

(** [model_layers]: the layers, behind [model.input] when the first layer
    is not an input layer. *)
Definition calib_layers (model : Model) : result (list node) :=
  first ← list_item (layers model) 0;
  if is_input_layer first then mret (NLayer <$> layers model)
  else
    match model_input model with
    | Single t => mret (NTensor t :: (NLayer <$> layers model))
    | Multiple _ => raise AttributeError   (* a list has no [name] *)
    end.

(** Body of the layer loop of [make_initial_shift_list]. *)
Definition calib_step (model : Model) (x_test : xtest)
    (quantize_method : string) (st : calib_state) (layer : node)
    : result calib_state :=
  (* which activations this layer is measured on *)
  st ← (if is_input_layer layer then
          feats ← match x_test with
                  | XList l => list_item l (inp_idx st)
                  | XArray a => mret a
                  end;
          mret {| features := Some feats; shift_list := shift_list st;
                  last_layer := last_layer st; inp_idx := S (inp_idx st) |}
        else
          sl ← is_shift_layer layer;
          if sl || contains "batch_normalization" (name layer) then
            match layer with
            | NLayer l =>
                mret {| features := Some (predict model l x_test);
                        shift_list := shift_list st;
                        last_layer := last_layer st; inp_idx := inp_idx st |}
            | NTensor _ => raise AttributeError   (* no [output] *)
            end
          else mret st);
  feats ← match features st with
          | Some f => mret f
          | None => raise UnboundLocalError
          end;
  (* calculate no saturation shift *)
  max_val ← np_max feats;
  min_val ← np_min feats;
  let int_bits := get_int_bits min_val max_val in
  let dec_bits := 7 - int_bits in
  (* saturation shift, using KLD method *)
  kld ← use_kld quantize_method layer;
  dec_bits ← (if (kld : bool) then dec_bits_by_kld feats dec_bits else mret dec_bits);
  (* record the shift *)
  first ← list_item (layers model) 0;
  let shift_name :=
    if input_is_tf_tensor model && negb (is_input_layer first)
    then split_head ":" (name layer) else name layer in
  let sl := <[shift_name := dec_bits]> (shift_list st) in
  sl ← (if contains "batch_normalization" (name layer) then
          (* use the bn layer shift to update the last layer *)
          match last_layer st with
          | Some last => mret (<[name last := dec_bits]> sl)
          | None => raise AttributeError
          end
        else mret sl);
  mret {| features := Some feats; shift_list := sl;
          last_layer := Some layer; inp_idx := inp_idx st |}.

(** [make_initial_shift_list] *)
Definition make_initial_shift_list (model : Model) (x_test : xtest)
    (quantize_method : string) : result (gmap string Z) :=
  model_layers ← calib_layers model;
  st ← foldM (calib_step model x_test quantize_method)
        {| features := None; shift_list := ∅;
           last_layer := None; inp_idx := 0 |}
        model_layers;
  mret (shift_list st).

End Calibration.

(** ** Reconciliation: the backward sweep of [layers_output_ranges] *)

(** [layer_dict]: the layers by name (a later layer of the same name
    replaces an earlier one). *)
Definition make_layer_dict (ls : list Layer) : gmap string Layer :=
  fold_left (fun d layer => <[name layer := layer]> d) ls ∅.

(** [layers = init_layer.input], wrapped in a list when it is not one. *)
Definition input_list (layer : Layer) : list KTensor :=
  match layer_input layer with
  | Single t => [t]
  | Multiple ts => ts
  end.

(** [update_previous_layer_shift], a closure over [shift_list] and
    [layer_dict].  [depth] is the number of nested calls the interpreter
    still allows: Python raises [RecursionError] beyond it. *)
Fixpoint update_previous_layer_shift (depth : nat)
    (layer_dict : gmap string Layer) (init_layer : Layer) (Qmin : Z)
    (skip_input : bool) (shift_list : gmap string Z)
    : result (gmap string Z) :=
  match depth with
  | O => raise RecursionError
  | S depth' =>
      foldM (fun shift_list layer =>
               if skip_input && is_input_layer layer then mret shift_list
               else
                 let iname := get_iname layer in
                 let shift_list := <[iname := Qmin]> shift_list in
                 prev ← get_item layer_dict iname;
                 sl ← is_shift_layer prev;
                 if (sl : bool) then mret shift_list
                 else update_previous_layer_shift depth' layer_dict prev
                        Qmin true shift_list)
            shift_list (input_list init_layer)
  end.

(** [Qmin]: the smallest shift recorded for the inputs of a layer. *)
Definition determine_Qmin (shift_list : gmap string Z) (inputs : list KTensor)
    : result Z :=
  first ← list_item inputs 0;
  q0 ← get_item shift_list (get_iname first);
  foldM (fun Qmin inp =>
           s ← get_item shift_list (get_iname inp);
           mret (Z.min Qmin s))
        q0 inputs.

(** Body of the loop over [reversed(model.layers[1:])]. *)
Definition reconcile_layer (depth : nat) (layer_dict : gmap string Layer)
    (shift_list : gmap string Z) (layer : Layer) : result (gmap string Z) :=
  match layer_input layer with
  | Single _ => mret shift_list
  | Multiple inputs =>
      (* detemine Qmin *)
      Qmin ← determine_Qmin shift_list inputs;
      shift_list ← update_previous_layer_shift depth layer_dict layer Qmin
                     false shift_list;
      (* update current layer's shift only when we cannot change the shift *)
      sl ← is_shift_layer layer;
      if negb sl then mret (<[name layer := Qmin]> shift_list)
      else
        cur ← get_item shift_list (name layer);
        if Qmin <? cur then mret (<[name layer := Qmin]> shift_list)
        else mret shift_list
  end.

(** The second half of [layers_output_ranges], from the calibrated
    [shift_list] on (lines 529-571). *)
Definition backward_sweep (depth : nat) (ls : list Layer)
    (shift_list : gmap string Z) : result (gmap string Z) :=
  foldM (reconcile_layer depth (make_layer_dict ls)) shift_list
        (rev (tail ls)).

Section Pipeline.

Variable kld_divergence : list Q → Z → nat → result Q.
Variable predict : Model → Layer → xtest → list Q.

(** [clamp_input]: shuffle the samples and keep at most
    [max_calibrate_size] of them. *)
Variable clamp_input : nat → list Q → list Q.

(** Python's limit on nested calls. *)
Variable recursion_limit : nat.

(** The first lines of [layers_output_ranges]: every array of [x_test]
    is clamped. *)
Definition clamp_x_test (max_calibrate_size : nat) (x_test : xtest) : xtest :=
  match x_test with
  | XList l => XList (clamp_input max_calibrate_size <$> l)
  | XArray a => XArray (clamp_input max_calibrate_size a)
  end.

(** [layers_output_ranges] *)
Definition layers_output_ranges (model : Model) (x_test : xtest)
    (quantize_method : string) (max_calibrate_size : nat)
    : result (gmap string Z) :=
  let x_test := clamp_x_test max_calibrate_size x_test in
  shift_list ← make_initial_shift_list kld_divergence predict
                 model x_test quantize_method;
  backward_sweep recursion_limit (layers model) shift_list.

End Pipeline.

(** ** Weight quantisation: [generate_weights] *)

(** An entry of [layer_quantize_info]. *)
Record qinfo : Type := { q_min : Q; q_max : Q; data_width : Z }.

(** What [generate_weights] returns besides the text of the header file:
    [layer_weights], [layer_quantize_info] and [shift_list]. *)
Record weights_out : Type := {
  out_weights : gmap string (gmap nat (list Z));
  out_quantize_info : gmap string (gmap string qinfo);
  out_shift_list : option (gmap string Z)
}.

(** The check of lines 400-408: a batch normalisation must come after a
    convolution.  [inbound_layers.name] needs a layer, and the
    [inbound_layers[0]] of the exception arguments needs a list. *)
Definition check_bn (layer : Layer) : result unit :=
  if contains "batch_normalization" (name layer) then
    node0 ← list_item (inbound_nodes layer) 0;
    pname ← match node0 with
            | InLayer n => mret n
            | InLayers _ => raise AttributeError
            end;
    if negb (contains "conv" pname) then
      pname0 ← match node0 with
               | InLayer _ => raise TypeError
               | InLayers ns => list_item ns 0
               end;
      raise (Exception ["Currently only support batch_normalization after conv";
                        name layer; pname0])
    else mret tt
  else mret tt.

(** [var_values * 2 ** dec_bits], rounded. *)
Definition quantize_values (var_values : list Q) (dec_bits : Z) : list Z :=
  (fun v => np_round (v * 2 ^ dec_bits)%Q) <$> var_values.

(** Body of the loop over [layer.weights]; the state is
    [weight_dec_shift], [layer_weights[layer.name]] and
    [layer_quantize_info[layer.name]]. *)
Definition quantize_var (shift_list : option (gmap string Z)) (layer : Layer)
    (st : Z * gmap nat (list Z) * gmap string qinfo) (var : Var)
    : result (Z * gmap nat (list Z) * gmap string qinfo) :=
  let '(weight_dec_shift, lw, lq) := st in
  let is_kernel := contains "kernel" (var_name var) in
  if negb is_kernel && negb (contains "bias" (var_name var)) then mret st
  else
    min_value ← np_min (var_values var);
    max_value ← np_max (var_values var);
    let int_bits := get_int_bits min_value max_value in
    let dec_bits := 7 - int_bits in
    sl ← is_shift_layer layer;
    '(weight_dec_shift, bSameAsKernel) ←
      (if (sl : bool) then
         d ← match shift_list with
             | Some d =>
                 if decide (d = ∅) then raise (AssertionError (name layer))
                 else mret d
             | None => raise (AssertionError (name layer))
             end;
         inp ← match layer_input layer with
               | Single t => mret (get_iname_colon t)
               | Multiple _ => raise AttributeError
               end;
         input_encoding ← get_item d inp;
         if is_kernel then mret (dec_bits, false)
         else
           let shift := input_encoding + weight_dec_shift - dec_bits in
           mret (weight_dec_shift, shift <? 0)
       else mret (weight_dec_shift, false));
    let '(weight_dec_shift, dec_bits) :=
      if bool_decide (shift_list = None) || bSameAsKernel then
        (* check if bias shift > weight shift, then reduce bias shift to
           weight shift *)
        if is_kernel then (dec_bits, dec_bits)
        else if dec_bits >? weight_dec_shift
             then (weight_dec_shift, weight_dec_shift)
             else (weight_dec_shift, dec_bits)
      else (weight_dec_shift, dec_bits) in
    let info := {| q_min := min_value; q_max := max_value;
                   data_width := dec_bits |} in
    (* convert to [-128,128) or int8 *)
    let values := quantize_values (var_values var) dec_bits in
    mret (weight_dec_shift,
          <[(if is_kernel then 0%nat else 1%nat) := values]> lw,
          <[var_name var := info]> lq).

Section Weights.

Variable kld_divergence : list Q → Z → nat → result Q.
Variable predict : Model → Layer → xtest → list Q.
Variable clamp_input : nat → list Q → list Q.
Variable recursion_limit : nat.

(** The kernel and bias [layer.set_weights] installs in
    [fuse_bn_to_conv] (lines 326-376). *)
Variable bn_fused_weights : Layer → result (list Var).

(** [fuse_bn_to_conv]; the layer is returned with the weights it holds
    afterwards. *)
Definition fuse_bn_to_conv (layer : Layer) : result Layer :=
  if contains "conv" (name layer) then
    out0 ← list_item (outbound_nodes layer) 0;
    if contains "batch_normalization" out0 then
      ws ← bn_fused_weights layer;
      mret {| layer_name := layer_name layer;
              layer_input := layer_input layer;
              layer_config := layer_config layer;
              layer_weights := ws;
              inbound_nodes := inbound_nodes layer;
              outbound_nodes := outbound_nodes layer |}
    else mret layer
  else mret layer.

(** Body of the loop over [model.layers] of [generate_weights]. *)
Definition quantize_layer (shift_list : option (gmap string Z))
    (out : weights_out) (layer : Layer) : result weights_out :=
  match layer_weights layer with
  | [] => mret out
  | _ =>
      (* before merging bn layer, check if the bn is "legally" after Conv *)
      _ ← check_bn layer;
      (* try to fuse BN layer to convolutional *)
      layer ← (if contains "conv" (name layer)
                  && bool_decide (outbound_nodes layer ≠ [])
                  && contains "batch_normalization"
                       (default "" (head (outbound_nodes layer)))
               then fuse_bn_to_conv layer else mret layer);
      (* generate weights and bias now *)
      '(_, lw, lq) ← foldM (quantize_var shift_list layer)
                       (0, ∅, ∅) (layer_weights layer);
      mret {| out_weights := <[name layer := lw]> (out_weights out);
              out_quantize_info := <[name layer := lq]> (out_quantize_info out);
              out_shift_list := out_shift_list out |}
  end.

(** [generate_weights]; [x_test] is [None] when no calibration data is
    given. *)
Definition generate_weights (model : Model) (x_test : option xtest)
    (quantize_method : string) (max_calibrate_size : nat)
    : result weights_out :=
  shift_list ← match x_test with
               | None => mret None
               | Some x =>
                   sl ← layers_output_ranges kld_divergence predict
                          clamp_input recursion_limit model x
                          quantize_method max_calibrate_size;
                   mret (Some sl)
               end;
  foldM (quantize_layer shift_list)
        {| out_weights := ∅; out_quantize_info := ∅;
           out_shift_list := shift_list |}
        (layers model).

End Weights.

(** ** Definitions used to state the properties of the sweep *)

(** [shift_list[k] = Qmin] for every [k] of a list. *)
Definition write_all (Qmin : Z) (ks : list string) (sl : gmap string Z)
    : gmap string Z :=
  fold_left (fun m k => <[k := Qmin]> m) ks sl.

(** The keys [update_previous_layer_shift] assigns, in order: the same
    recursion, without the table. *)
Fixpoint visited (depth : nat) (layer_dict : gmap string Layer)
    (init_layer : Layer) (skip_input : bool) : result (list string) :=
  match depth with
  | O => raise RecursionError
  | S depth' =>
      kss ← mapM (fun layer : KTensor =>
                    if skip_input && is_input_layer layer then mret []
                    else
                      let iname := get_iname layer in
                      prev ← get_item layer_dict iname;
                      sl ← is_shift_layer prev;
                      if (sl : bool) then mret [iname]
                      else ks ← visited depth' layer_dict prev true;
                           mret (iname :: ks))
                 (input_list init_layer);
      mret (concat kss)
  end.

(** The nodes a call [update_previous_layer_shift(init_layer, _,
    skip_input)] reaches: the inputs of [init_layer] (except graph inputs
    when they are skipped), and, behind an input that is not a shift
    layer, what the recursive call reaches. *)
Inductive reached (layer_dict : gmap string Layer)
    : bool → Layer → string → Prop :=
| reached_input skip init t :
    t ∈ input_list init →
    skip && is_input_layer t = false →
    reached layer_dict skip init (get_iname t)
| reached_behind skip init t prev k :
    t ∈ input_list init →
    skip && is_input_layer t = false →
    layer_dict !! get_iname t = Some prev →
    is_shift_layer prev = inr false →
    reached layer_dict true prev k →
    reached layer_dict skip init k.

(** A node the sweep may write: a layer with a list of inputs, or a node
    reached from one. *)
Definition touched (ls : list Layer) (k : string) : Prop :=
  ∃ l inputs, l ∈ tail ls ∧ layer_input l = Multiple inputs ∧
    (k = name l ∨ reached (make_layer_dict ls) false l k).

(** A graph on which the sweep raises nothing: layer names are distinct,
    every input tensor of a layer is the output of a layer of the model,
    which comes earlier in [model.layers] unless it is a shift layer (the
    recursion stops there), [is_shift_layer] raises on no layer, no layer
    has an empty list of inputs, and every layer has a calibrated shift. *)
Definition input_ok (ls : list Layer) (i : nat) (t : KTensor) : bool :=
  match list_find (fun p : Layer => name p = get_iname t) ls with
  | Some (j, p) =>
      match is_shift_layer p with
      | inr b => b || bool_decide (j < i)%nat
      | inl _ => false
      end
  | None => false
  end.

Definition layer_ok (ls : list Layer) (sl : gmap string Z)
    (i : nat) (l : Layer) : bool :=
  is_ok (is_shift_layer l)
  && bool_decide (is_Some (sl !! name l))
  && bool_decide (input_list l ≠ [])
  && forallb (input_ok ls i) (input_list l).

Definition well_formed (ls : list Layer) (sl : gmap string Z) : bool :=
  bool_decide (NoDup (name <$> ls))
  && forallb (fun il => layer_ok ls sl il.1 il.2) (imap pair ls).

(** [k in l] for a list of strings. *)
Definition mem (k : string) (l : list string) : bool :=
  existsb (String.eqb k) l.

(** The entries the step of a layer may write: its own and those of the
    visited keys; none for a layer with a single input. *)
Definition footprint (depth : nat) (layer_dict : gmap string Layer)
    (l : Layer) : result (list string) :=
  match layer_input l with
  | Single _ => mret []
  | Multiple _ => ks ← visited depth layer_dict l false; mret (name l :: ks)
  end.

(** No step of the sweep writes the entry [k]. *)
Definition untouched (depth : nat) (ls : list Layer) (k : string) : bool :=
  match mapM (footprint depth (make_layer_dict ls)) (rev (tail ls)) with
  | inr fps => negb (mem k (concat fps))
  | inl _ => false
  end.

(** [k] is neither a layer with several inputs nor a direct input of
    one. *)
Definition not_direct_input (k : string) (l : Layer) : bool :=
  match layer_input l with
  | Single _ => true
  | Multiple inputs =>
      negb (String.eqb k (name l))
      && forallb (fun t : KTensor => negb (String.eqb k (get_iname t))) inputs
  end.

Fixpoint pairwise_disjoint (fps : list (list string)) : bool :=
  match fps with
  | [] => true
  | f :: rest =>
      forallb (fun k => negb (mem k (concat rest))) f
      && pairwise_disjoint rest
  end.

(** The steps of the sweep write pairwise disjoint sets of entries. *)
Definition disjoint_footprints (depth : nat) (ls : list Layer) : bool :=
  match mapM (footprint depth (make_layer_dict ls)) (rev (tail ls)) with
  | inr fps => pairwise_disjoint fps
  | inl _ => false
  end.

(** ** Example networks and calibration data *)

(** A layer without weights, given the names of its input tensors. *)
Definition ex_layer (n : string) (ins : list string) : Layer :=
  {| layer_name := n;
     layer_input :=
       match ins with
       | [i] => Single {| tensor_name := i |}
       | _ => Multiple ((fun i => {| tensor_name := i |}) <$> ins)
       end;
     layer_config := ∅;
     layer_weights := [];
     inbound_nodes := [];
     outbound_nodes := [] |}.

Definition ex_model (ls : list Layer) : Model :=
  {| layers := ls;
     model_input := Single {| tensor_name := "input_1" |};
     input_is_tf_tensor := false |}.

(** Calibration oracles: the activations of a layer are looked up by its
    name, the divergence is constant, the shuffle leaves the samples in
    place. *)
Definition ex_predict (acts : list (string * list Q))
    : Model → Layer → xtest → list Q :=
  fun _ l _ => default [] ((list_to_map acts : gmap string (list Q)) !! name l).

Definition ex_kld : list Q → Z → nat → result Q := fun _ _ _ => mret 0%Q.

Definition ex_clamp : nat → list Q → list Q := fun _ a => a.

Definition ex_calibrate (ls : list Layer) (acts : list (string * list Q))
    : result (gmap string Z) :=
  make_initial_shift_list ex_kld (ex_predict acts) (ex_model ls)
    (XArray [-1; 1]%Q) "max_min".

Definition ex_ranges (ls : list Layer) (acts : list (string * list Q))
    : result (gmap string Z) :=
  layers_output_ranges ex_kld (ex_predict acts) ex_clamp 1000
    (ex_model ls) (XArray [-1; 1]%Q) "max_min" 1000.

(** A table given by its entries. *)
Definition table (entries : list (string * Z)) : gmap string Z :=
  list_to_map entries.

(** Two convolution branches added together. *)
Definition two_branch : list Layer :=
  [ ex_layer "input_1" ["input_1"];
    ex_layer "conv2d" ["input_1"];
    ex_layer "conv2d_1" ["input_1"];
    ex_layer "add" ["conv2d/BiasAdd:0"; "conv2d_1/BiasAdd:0"] ].

(** Calibrated formats 7, 5, 3 and 2. *)
Definition two_branch_acts : list (string * list Q) :=
  [ ("conv2d", [-3; 5 # 2]); ("conv2d_1", [-10; 9]); ("add", [-19; 17]) ]%Q.

(** Three branches; [conv2d_1] feeds both [add] and [add_1]. *)
Definition shared : list Layer :=
  [ ex_layer "input_1" ["input_1"];
    ex_layer "conv2d" ["input_1"];
    ex_layer "conv2d_1" ["input_1"];
    ex_layer "conv2d_2" ["input_1"];
    ex_layer "add" ["conv2d/BiasAdd:0"; "conv2d_1/BiasAdd:0"];
    ex_layer "add_1" ["conv2d_1/BiasAdd:0"; "conv2d_2/BiasAdd:0"];
    ex_layer "add_2" ["add/add:0"; "add_1/add:0"] ].

(** Calibrated formats: [conv2d] 3, [conv2d_1] 5, [conv2d_2] 5,
    [add] 3, [add_1] 4, [add_2] 2. *)
Definition shared_acts : list (string * list Q) :=
  [ ("conv2d", [-10; 9]); ("conv2d_1", [-3; 5 # 2]); ("conv2d_2", [3; -1]);
    ("add", [-13; 11]); ("add_1", [6; -3]); ("add_2", [-19; 17]) ]%Q.

(** Calibrated formats: [conv2d] 6, [conv2d_1] 5, [conv2d_2] 3,
    [add] 5, [add_1] 3, [add_2] 3. *)
Definition shared_acts' : list (string * list Q) :=
  [ ("conv2d", [-2; 3 # 2]); ("conv2d_1", [-3; 5 # 2]); ("conv2d_2", [-10; 9]);
    ("add", [-4; 3]); ("add_1", [-13; 11]); ("add_2", [-16; 9]) ]%Q.

(** A sigmoid activation on one branch of an addition. *)
Definition sigmoid_activation : Layer :=
  {| layer_name := "activation";
     layer_input := Single {| tensor_name := "conv2d/BiasAdd:0" |};
     layer_config := {[ "activation" := "sigmoid" ]};
     layer_weights := [];
     inbound_nodes := [];
     outbound_nodes := [] |}.

Definition with_sigmoid : list Layer :=
  [ ex_layer "input_1" ["input_1"];
    ex_layer "conv2d" ["input_1"];
    sigmoid_activation;
    ex_layer "conv2d_1" ["input_1"];
    ex_layer "add" ["activation/Sigmoid:0"; "conv2d_1/BiasAdd:0"] ].

(** Calibrated formats: [conv2d] 5, [activation] 7, [conv2d_1] 3,
    [add] 3. *)
Definition with_sigmoid_acts : list (string * list Q) :=
  [ ("conv2d", [-3; 5 # 2]); ("activation", [1 # 20; 9 # 10]);
    ("conv2d_1", [-10; 9]); ("add", [-9; 10]) ]%Q.

(** The sigmoid feeds a convolution instead: no addition reaches it. *)
Definition sigmoid_aside : list Layer :=
  [ ex_layer "input_1" ["input_1"];
    ex_layer "conv2d" ["input_1"];
    sigmoid_activation;
    ex_layer "conv2d_1" ["activation/Sigmoid:0"];
    ex_layer "conv2d_2" ["input_1"];
    ex_layer "add" ["conv2d_1/BiasAdd:0"; "conv2d_2/BiasAdd:0"] ].

Definition sigmoid_aside_acts : list (string * list Q) :=
  [ ("conv2d", [-3; 5 # 2]); ("activation", [1 # 20; 9 # 10]);
    ("conv2d_1", [-3; 2]); ("conv2d_2", [-10; 9]); ("add", [-9; 10]) ]%Q.

(** A skip connection from the graph input into an addition. *)
Definition input_skip : list Layer :=
  [ ex_layer "input_1" ["input_1"];
    ex_layer "conv2d" ["input_1"];
    ex_layer "add" ["input_1"; "conv2d/BiasAdd:0"] ].

(** Calibrated formats: [input_1] 7, [conv2d] 3, [add] 3. *)
Definition input_skip_acts : list (string * list Q) :=
  [ ("conv2d", [-10; 9]); ("add", [-11; 10]) ]%Q.

(** The same skip connection behind a pooling layer. *)
Definition pooled_skip : list Layer :=
  [ ex_layer "input_1" ["input_1"];
    ex_layer "max_pooling2d" ["input_1"];
    ex_layer "conv2d" ["input_1"];
    ex_layer "add" ["max_pooling2d/MaxPool:0"; "conv2d/BiasAdd:0"] ].

Definition pooled_skip_acts : list (string * list Q) :=
  [ ("conv2d", [-10; 9]); ("add", [-11; 10]) ]%Q.

(** ** The formula of the specification, over the reals *)

Definition Rlog2 (x : R) : R := (ln x / ln 2)%R.

(** The least integer not below [x]. *)
Definition Rceil (x : R) : Z := 1 - up (- x).

(** [7 - ceil(log2(max(|min|, |max|, ε)))] *)
Definition spec_fractional_bits (min_value max_value : R) : Z :=
  7 - Rceil (Rlog2 (Rmax (Rabs min_value)
                         (Rmax (Rabs max_value) (Q2R tiny)))).

(** A model reduced to its input layer, calibrated on given samples. *)
Definition ex_calibrate_input (samples : list Q) : result (gmap string Z) :=
  make_initial_shift_list ex_kld (ex_predict [])
    (ex_model [ex_layer "input_1" ["input_1"]]) (XArray samples) "max_min".

(** A divergence that decreases with the candidate shift: the last
    candidate, [base + 3], has the least divergence. *)
Definition ex_kld_decreasing : list Q → Z → nat → result Q :=
  fun _ _ shift => mret (inject_Z (3 - Z.of_nat shift)).

(** An input followed by one weighted layer of the given name, with
    activations calibrated to format 5. *)
Definition one_layer_net (n : string) : list Layer :=
  [ ex_layer "input_1" ["input_1"]; ex_layer n ["input_1"] ].

Definition ex_calibrate_kld (n : string) : result (gmap string Z) :=
  make_initial_shift_list ex_kld_decreasing (ex_predict [(n, [-3; 5 # 2]%Q)])
    (ex_model (one_layer_net n)) (XArray [-1; 1]%Q) "kld".

(** ** Example weighted layers *)

(** A convolution fed by the graph input, with the given kernel and bias
    values. *)
Definition ex_conv (kernel bias : list Q) : Layer :=
  {| layer_name := "conv2d";
     layer_input := Single {| tensor_name := "input_1" |};
     layer_config := ∅;
     layer_weights :=
       [ {| var_name := "conv2d/kernel:0"; var_values := kernel |};
         {| var_name := "conv2d/bias:0"; var_values := bias |} ];
     inbound_nodes := [InLayer "input_1"];
     outbound_nodes := [] |}.

(** A weighted layer of the given name followed by a batch
    normalisation. *)
Definition ex_weighted (n : string) : Layer :=
  {| layer_name := n;
     layer_input := Single {| tensor_name := "input_1" |};
     layer_config := ∅;
     layer_weights :=
       [ {| var_name := n +:+ "/kernel:0"; var_values := [3 # 4; -1 # 2]%Q |};
         {| var_name := n +:+ "/bias:0"; var_values := [1 # 4]%Q |} ];
     inbound_nodes := [InLayer "input_1"];
     outbound_nodes := ["batch_normalization"] |}.

Definition ex_bn (pred : string) : Layer :=
  {| layer_name := "batch_normalization";
     layer_input := Single {| tensor_name := pred +:+ "/BiasAdd:0" |};
     layer_config := ∅;
     layer_weights :=
       [ {| var_name := "batch_normalization/gamma:0"; var_values := [1]%Q |};
         {| var_name := "batch_normalization/beta:0"; var_values := [0]%Q |};
         {| var_name := "batch_normalization/moving_mean:0";
            var_values := [0]%Q |};
         {| var_name := "batch_normalization/moving_variance:0";
            var_values := [1]%Q |} ];
     inbound_nodes := [InLayer pred];
     outbound_nodes := [] |}.

(** The fusion leaves the weights as they are (a normalisation with unit
    scale and zero shift, up to its epsilon). *)
Definition ex_fused : Layer → result (list Var) :=
  fun layer => mret (layer_weights layer).

(** [generate_weights] on an input followed by the given layers, with
    calibration samples [x] for the input. *)
Definition ex_generate (ls : list Layer) (acts : list (string * list Q))
    (x : list Q) : result weights_out :=
  generate_weights ex_kld (ex_predict acts) ex_clamp 1000 ex_fused
    (ex_model (ex_layer "input_1" ["input_1"] :: ls))
    (Some (XArray x)) "max_min" 1000.

(** The [data_width] recorded for a variable of a layer. *)
Definition recorded_width (out : weights_out) (layer var : string)
    : option Z :=
  lq ← out_quantize_info out !! layer;
  info ← (lq : gmap string qinfo) !! var;
  Some (data_width info).

(** The quantised values stored for the kernel (0) or the bias (1) of a
    layer. *)
Definition stored_values (out : weights_out) (layer : string) (i : nat)
    : option (list Z) :=
  lw ← out_weights out !! layer;
  (lw : gmap nat (list Z)) !! i.

(** ** Fixed-point conversion: [f2q] and [q2f] *)

(** [f2q]: a number in floating point to the format with [n] fractional
    bits: multiply by [2 ** n] and round to the nearest integer. *)
Definition f2q (d : Q) (n : Z) : Z := np_round (d * 2 ^ n)%Q.

(** [q2f]: a number with [n] fractional bits to floating point: multiply
    by [2 ** -n]. *)
Definition q2f (d : Z) (n : Z) : Q := (inject_Z d * 2 ^ (- n))%Q.

(** ** Filter sizes: [pad_filter_sizes] and [flatten] *)

(** A filter size: an [int], or a sequence of them. *)
Inductive filter_size : Type :=
| FInt (n : Z)
| FSeq (l : list Z).

(** [pad_filter_sizes]: every size is extended in front with [pad_val]
    up to [shape] entries. *)
Definition pad_filter_sizes (filter_sizes : list filter_size)
    (pad_val : Z) (shape : nat) : list (list Z) :=
  (fun f_size =>
     let f_size := match f_size with FInt n => [n] | FSeq l => l end in
     if (length f_size <? shape)%nat
     then (replicate (shape - length f_size) pad_val ++ f_size)%list
     else f_size) <$> filter_sizes.

(** A value that is a number, or a list or tuple of such values. *)
#[warnings="-register-all"]
Inductive nested : Type :=
| Leaf (n : Z)
| Nest (l : list nested).

(** [flatten] *)
Fixpoint flatten (L : nested) : list Z :=
  match L with
  | Leaf n => [n]
  | Nest l => concat (map flatten l)
  end.

(** [border_size] of the zero-padding and cropping layers:
    [pad_filter_sizes(flatten(cfg[config_var]), pad_val=0, shape=4)[0]] *)
Definition border_size (cfg_value : nested) : result (list Z) :=
  list_item (pad_filter_sizes [FSeq (flatten cfg_value)] 0 4) 0.

(** ** Code generation: the tables of [generate_model] *)

(** [is_skipable_layer] *)
Definition is_skipable_layer {A} `{LayerLike A} (fmt : string) (layer : A)
    : bool :=
  let n := name layer in
  contains "lambda" n
  || contains "dropout" n
  || contains "batch_normalization" n
  || (contains "flatten" n && negb (contains "chw" fmt)).

(** The loop writing [#define <NAME>_OUTPUT_SHIFT <shift>] (lines
    613-616); a line is represented by the name and the shift it holds
    (the upper-casing of the name is left out).  [shift_list] is [None]
    when [generate_weights] ran without calibration data. *)
Definition output_shift_defines (shift_list : option (gmap string Z))
    (model_layers : list node) : result (list (string * Z)) :=
  mapM (fun layer =>
          let iname := get_iname_colon layer in
          d ← match shift_list with
              | Some d => mret d
              | None => raise TypeError
              end;
          shift ← get_item d iname;
          mret (iname, shift))
       model_layers.

(** [get_iname(layer.input)] for an element of [model_layers]: a list of
    inputs has no [name], a tensor has no [input]. *)
Definition input_iname (layer : node) : result string :=
  match layer with
  | NLayer l =>
      match layer_input l with
      | Single t => mret (get_iname_colon t)
      | Multiple _ => raise AttributeError
      end
  | NTensor _ => raise AttributeError
  end.

(** Body of the loop numbering the layers (lines 651-671).  The state is
    [ID] and [LI]; of the pair [LI[name]] only the index is kept (the
    layer it holds besides is never read).  The declarations of the weight
    arrays the loop writes are left out, not the attribute [weights] it
    reads. *)
Definition layer_id_step (model : Model) (fmt : string)
    (st : nat * gmap string nat) (layer : node)
    : result (nat * gmap string nat) :=
  let '(ID, LI) := st in
  st ← (if is_skipable_layer fmt layer then
          inp ← input_iname layer;
          i ← get_item LI inp;
          mret (ID, <[name layer := i]> LI)
        else
          renamed ← (if input_is_tf_tensor model then
                       first ← list_item (layers model) 0;
                       mret (negb (is_input_layer first))
                     else mret false);
          let layer_name :=
            if (renamed : bool) then split_head ":" (name layer)
            else name layer in
          mret (S ID, <[layer_name := ID]> LI));
  (* if is_input_layer(layer) or not layer.weights: continue *)
  match layer with
  | NLayer _ => mret st
  | NTensor _ => if is_input_layer layer then mret st
                 else raise AttributeError
  end.

(** [ID] and [LI] after the numbering loop; [model_layers] is built as in
    [make_initial_shift_list]. *)
Definition layer_ids (model : Model) (fmt : string)
    : result (nat * gmap string nat) :=
  model_layers ← calib_layers model;
  foldM (layer_id_step model fmt) (0%nat, ∅) model_layers.

(** [sz = 1; for d in shape[1:]: sz *= d]; an unknown dimension is
    [None]. *)
Definition shape_size (shape : list (option Z)) : result Z :=
  foldM (fun sz d =>
           match d with
           | Some d => mret (sz * d)
           | None => raise TypeError
           end)
        1 (tail shape).

(** Body of the loop over the inputs of the model (lines 678-684); the
    state is [inp_sizes] and [max_idx]. *)
Definition input_size_step (st : list Z * nat)
    (i_inp : nat * list (option Z)) : result (list Z * nat) :=
  let '(inp_sizes, max_idx) := st in
  let '(i, inp_shape) := i_inp in
  sz ← shape_size inp_shape;
  let inp_sizes := (inp_sizes ++ [sz])%list in
  a ← list_item inp_sizes i;
  b ← list_item inp_sizes max_idx;
  mret (inp_sizes, if b <? a then i else max_idx).

(** [INPUT_LENGTHS] and [IN_DATA_WIDTH] (lines 675-688), from the shapes
    of [get_input_list(model)].  The line written in between reads the
    [sz] of the last input, which is unbound when there is none. *)
Definition input_lengths (shapes : list (list (option Z)))
    : result (list Z * Z) :=
  '(inp_sizes, max_idx) ← foldM input_size_step ([], 0%nat)
                             (imap pair shapes);
  _ ← match last inp_sizes with
      | Some sz => mret sz
      | None => raise UnboundLocalError
      end;
  width ← list_item inp_sizes max_idx;
  mret (inp_sizes, width).

(** ** The test set file: [generate_test_bin] *)

(** [int(np.ceil(np.log2(max(abs(min_value), abs(max_value)))))], the
    integer bits of [generate_test_bin], [evaluate_model] and
    [show_weights]: [get_int_bits] without its floor.  The logarithm of
    zero is minus infinity, which [int] refuses ([OverflowError]): there
    is no result. *)
Definition int_bits_unguarded (min_value max_value : Q) : option Z :=
  let m := Qmax (Qabs min_value) (Qabs max_value) in
  if Qeq_bool m 0 then None else Some (ceil_log2 m).

(** [label_batch] *)
Definition label_batch : nat := 128.

(** [l[a:b]] for [0 <= a], [0 <= b] *)
Definition slice {A} (l : list A) (a b : nat) : list A :=
  take (b - a) (drop a l).

(** The loop [while start <= (test_label.size - label_batch)]; [fuel]
    bounds the number of iterations.  Returns [start] and what has been
    written to the file. *)
Fixpoint write_batches (fuel : nat) (test_label dat : list Z)
    (block_size start : nat) (f : list Z) : option (nat * list Z) :=
  if Z.of_nat start <=? Z.of_nat (length test_label) - Z.of_nat label_batch
  then
    match fuel with
    | O => None
    | S fuel' =>
        write_batches fuel' test_label dat block_size (start + label_batch)
          (f ++ slice test_label start (start + label_batch)
             ++ slice dat (block_size * start)
                  (block_size * (start + label_batch)))%list
    end
  else Some (start, f).

(** The content of the file [generate_test_bin] writes (lines 264-279),
    from the labels, the flattened data and [block_size]: blocks of
    [label_batch] labels, each followed by the data of these samples. *)
Definition write_test_bin (test_label dat : list Z) (block_size : nat)
    : option (list Z) :=
  '(start, f) ← write_batches (length test_label) test_label dat
                  block_size 0 [];
  (* the rest data *)
  if (start <? length test_label)%nat then
    let rest_len := (length test_label - start)%nat in
    let new_labls := drop start test_label in
    let new_labls :=
      (new_labls ++ replicate (label_batch - rest_len) 0)%list in
    Some (f ++ new_labls ++ drop (block_size * start) dat)%list
  else Some f.

(** ** Definitions used to state the properties of the tables *)

(** The key under which [make_initial_shift_list] records the layer
    named [n] (lines 220-222), and [generate_model] numbers it (lines
    656-658). *)
Definition shift_name (model : Model) (n : string) : string :=
  match head (layers model) with
  | Some first =>
      if input_is_tf_tensor model && negb (is_input_layer first)
      then split_head ":" n else n
  | None => n
  end.

(** A name without [/] and without [:], as Keras gives to layers. *)
Definition plain_name (n : string) : bool :=
  negb (contains "/" n) && negb (contains ":" n).

(** What [k] iterations of the loop of [generate_test_bin] have
    written: [k] blocks, each made of 128 labels and the data of these
    samples. *)
Definition blocks_written (test_label dat : list Z) (block_size : nat)
    (k : nat) (f : list Z) : Prop :=
  length f = (k * (128 + 128 * block_size))%nat
  ∧ ∀ k0 r, (k0 < k)%nat → (r < 128)%nat →
      f !! (k0 * (128 + 128 * block_size) + r)%nat
      = test_label !! (128 * k0 + r)%nat
      ∧ ∀ i, (i < block_size)%nat →
          f !! (k0 * (128 + 128 * block_size) + 128 + r * block_size + i)%nat
          = dat !! ((128 * k0 + r) * block_size + i)%nat.

(** The key under which the numbering loop of [generate_model] enters
    an element of [model_layers] in [LI]. *)
Definition id_key (model : Model) (fmt : string) (n : node) : string :=
  if is_skipable_layer fmt n then name n else shift_name model (name n).

(** * Properties *)

(** ** The error monad *)

Lemma bind_inr {A B} (m : result A) (f : A → result B) (y : B) :
  m ≫= f = inr y ↔ ∃ x, m = inr x ∧ f x = inr y.
Proof.
  destruct m as [e|x]; simpl; split.
  - discriminate.
  - intros (x & Hx & _); discriminate.
  - eauto.
  - intros (x' & [= <-] & Hf); exact Hf.
Qed.

Lemma bind_inl {A B} (m : result A) (f : A → result B) (e : exn) :
  m = inl e → m ≫= f = inl e.
Proof. intros ->; reflexivity. Qed.

Lemma mret_inr {A} (x y : A) : (mret x : result A) = inr y ↔ x = y.
Proof. split; [intros [= ->]; reflexivity | intros ->; reflexivity]. Qed.

Lemma bind_ok {A B} (m : result A) (f : A → result B) (y : B) :
  m ≫= f = inr y → ∃ x, m = inr x ∧ f x = inr y.
Proof. apply bind_inr. Qed.

Lemma mret_ok {A} (x y : A) : (mret x : result A) = inr y → x = y.
Proof. apply mret_inr. Qed.

Ltac inv_res :=
  repeat match goal with
  | H : _ ≫= _ = inr _ |- _ =>
      let x := fresh "x" in let Hx := fresh "Hx" in
      apply bind_ok in H as (x & Hx & H)
  | H : mret _ = inr _ |- _ => apply mret_ok in H; subst
  | H : inr _ = inr _ |- _ => injection H as H; subst
  | H : raise _ = inr _ |- _ => discriminate H
  | H : inl _ = inr _ |- _ => discriminate H
  end.

Lemma get_item_inr {V} (d : gmap string V) k v :
  get_item d k = inr v ↔ d !! k = Some v.
Proof.
  unfold get_item; destruct (d !! k); split; intros E; inv_res;
    try congruence; try discriminate.
  injection E as ->; reflexivity.
Qed.

Lemma get_item_ok {V} (d : gmap string V) k v :
  get_item d k = inr v → d !! k = Some v.
Proof. apply get_item_inr. Qed.

Lemma get_item_lookup {V} (d : gmap string V) k v :
  d !! k = Some v → get_item d k = inr v.
Proof. apply get_item_inr. Qed.

Ltac inv_get :=
  inv_res;
  repeat match goal with
  | H : get_item _ _ = inr _ |- _ => apply get_item_ok in H
  end.

Lemma foldM_app {A B} (f : A → B → result A) acc xs ys :
  foldM f acc (xs ++ ys) = (acc' ← foldM f acc xs; foldM f acc' ys).
Proof.
  revert acc; induction xs as [|x xs IH]; intros acc; simpl; [reflexivity|].
  destruct (f acc x) as [e|acc']; simpl; [reflexivity | apply IH].
Qed.

(** ** [write_all] *)

Lemma write_all_app Q ks1 ks2 sl :
  write_all Q (ks1 ++ ks2) sl = write_all Q ks2 (write_all Q ks1 sl).
Proof. unfold write_all; apply fold_left_app. Qed.

Lemma lookup_write_all_in Q ks (sl : gmap string Z) k :
  k ∈ ks → write_all Q ks sl !! k = Some Q.
Proof.
  revert sl; induction ks as [|k' ks IH] using rev_ind; intros sl Hk.
  - inversion Hk.
  - rewrite write_all_app; simpl.
    destruct (decide (k' = k)) as [->|Hne].
    + apply lookup_insert_eq.
    + rewrite lookup_insert_ne by exact Hne.
      apply IH. apply elem_of_app in Hk as [Hk|Hk]; [exact Hk|].
      apply list_elem_of_singleton in Hk; congruence.
Qed.

Lemma lookup_write_all_notin Q ks (sl : gmap string Z) k :
  k ∉ ks → write_all Q ks sl !! k = sl !! k.
Proof.
  revert sl; induction ks as [|k' ks IH]; intros sl Hk; simpl; [reflexivity|].
  rewrite IH by (intros Hin; apply Hk; right; exact Hin).
  apply lookup_insert_ne. intros ->; apply Hk; left.
Qed.

(** ** [update_previous_layer_shift] writes [Qmin] at the visited keys *)

Lemma foldM_write_all {B} Q (f : gmap string Z → B → result (gmap string Z))
    (g : B → result (list string)) xs :
  (∀ sl x, x ∈ xs → f sl x = (ks ← g x; mret (write_all Q ks sl))) →
  ∀ sl, foldM f sl xs = (kss ← mapM g xs; mret (write_all Q (concat kss) sl)).
Proof.
  induction xs as [|x xs IH]; intros Hf sl; simpl; [reflexivity|].
  rewrite Hf by left.
  destruct (g x) as [e|ks]; simpl; [reflexivity|].
  rewrite IH by (intros sl' x' Hx'; apply Hf; right; exact Hx').
  destruct (mapM g xs) as [e|kss]; simpl; [reflexivity|].
  rewrite write_all_app; reflexivity.
Qed.

Lemma update_previous_layer_shift_visited depth ld init Q skip sl :
  update_previous_layer_shift depth ld init Q skip sl =
  (ks ← visited depth ld init skip; mret (write_all Q ks sl)).
Proof.
  revert init skip sl; induction depth as [|d IH]; intros init skip sl;
    simpl; [reflexivity|].
  rewrite (foldM_write_all Q _
    (fun layer : KTensor =>
       if skip && is_input_layer layer then mret []
       else prev ← get_item ld (get_iname layer);
            sl ← is_shift_layer prev;
            if (sl : bool) then mret [get_iname layer]
            else ks ← visited d ld prev true; mret (get_iname layer :: ks))).
  - destruct (mapM _ _); reflexivity.
  - intros sl' t _.
    destruct (skip && is_input_layer t); [reflexivity|].
    destruct (get_item ld (get_iname t)) as [e|prev]; [reflexivity|]; simpl.
    destruct (is_shift_layer prev) as [e|[|]]; try reflexivity; simpl.
    rewrite IH. destruct (visited d ld prev true); reflexivity.
Qed.

(** ** The visited keys are the reached nodes *)

Lemma mapM_inr {A B} (g : A → result B) xs ys :
  mapM g xs = inr ys → Forall2 (fun x y => g x = inr y) xs ys.
Proof.
  revert ys; induction xs as [|x xs IH]; intros ys E; simpl in E; inv_res.
  - constructor.
  - constructor; [assumption | apply IH; assumption].
Qed.

Lemma elem_of_concat_mapM {A} (g : A → result (list string)) xs kss k :
  mapM g xs = inr kss →
  k ∈ concat kss ↔ ∃ x ys, x ∈ xs ∧ g x = inr ys ∧ k ∈ ys.
Proof.
  intros E; apply mapM_inr in E.
  induction E as [|x ys xs kss Hg _ IH]; simpl.
  - split; [intros Hk; inversion Hk | intros (x & ys & Hx & _); inversion Hx].
  - rewrite elem_of_app, IH; split.
    + intros [Hk|(x' & ys' & Hx' & Hg' & Hk)].
      * exists x, ys; repeat split; [left | assumption..].
      * exists x', ys'; repeat split; [right | ..]; assumption.
    + intros (x' & ys' & Hx' & Hg' & Hk).
      apply elem_of_cons in Hx' as [->|Hx'].
      * left; congruence.
      * right; eauto.
Qed.

Lemma visited_reached depth ld init skip ks :
  visited depth ld init skip = inr ks →
  ∀ k, k ∈ ks ↔ reached ld skip init k.
Proof.
  revert init skip ks; induction depth as [|d IH]; intros init skip ks E k;
    simpl in E; [discriminate|].
  inv_res. rename x into kss.
  rewrite (elem_of_concat_mapM _ _ _ _ Hx); split.
  - intros (t & ys & Ht & Hg & Hk).
    destruct (skip && is_input_layer t) eqn:Hskip; inv_get;
      [inversion Hk|].
    destruct x0; inv_res.
    + apply list_elem_of_singleton in Hk as ->.
      apply reached_input; assumption.
    + apply elem_of_cons in Hk as [->|Hk].
      * apply reached_input; assumption.
      * eapply reached_behind; eauto. eapply IH; eauto.
  - intros Hr.
    assert (Hall : ∀ t, t ∈ input_list init → ∃ ys,
      (if skip && is_input_layer t then mret []
       else prev ← get_item ld (get_iname t);
            sl ← is_shift_layer prev;
            if (sl : bool) then mret [get_iname t]
            else ks ← visited d ld prev true; mret (get_iname t :: ks))
      = inr ys).
    { intros t Ht. apply mapM_inr in Hx.
      apply list_elem_of_lookup in Ht as [i Hi].
      destruct (Forall2_lookup_l _ _ _ _ _ Hx Hi) as (ys & _ & Hys).
      exists ys; exact Hys. }
    inversion Hr as [skip' init' t Ht Hskip | skip' init' t prev k' Ht Hskip Hld Hsl Hrec];
      subst; destruct (Hall t Ht) as (ys & Hys); exists t, ys;
      (split; [exact Ht|]); (split; [exact Hys|]);
      rewrite Hskip in Hys; inv_get.
    + destruct x0; inv_res; left.
    + rewrite Hld in Hx0; injection Hx0 as <-.
      rewrite Hsl in Hx1; inv_res. right. eapply IH; eauto.
Qed.

(** ** [determine_Qmin] *)

Lemma foldM_min_spec (sl : gmap string Z) inputs q0 Q :
  foldM (fun Qmin (inp : KTensor) =>
           s ← get_item sl (get_iname inp); mret (Z.min Qmin s)) q0 inputs
    = inr Q →
  Q ≤ q0
  ∧ (∀ t, t ∈ inputs → ∃ v, sl !! get_iname t = Some v ∧ Q ≤ v)
  ∧ (Q = q0 ∨ ∃ t, t ∈ inputs ∧ sl !! get_iname t = Some Q).
Proof.
  revert q0; induction inputs as [|t ts IH]; intros q0 E; simpl in E; inv_get.
  - split; [lia|]. split; [intros t Ht; inversion Ht | left; reflexivity].
  - destruct (IH _ E) as (Hle & Hall & Hatt).
    split; [lia|]. split.
    + intros t' Ht'. apply elem_of_cons in Ht' as [->|Ht'].
      * exists x0; split; [assumption | lia].
      * apply Hall; assumption.
    + destruct Hatt as [->|(t' & Ht' & Hv)].
      * destruct (Z.min_spec q0 x0) as [[_ ->]|[_ ->]].
        -- left; reflexivity.
        -- right; exists t; split; [left | assumption].
      * right; exists t'; split; [right|]; assumption.
Qed.

Lemma determine_Qmin_spec (sl : gmap string Z) inputs Q :
  determine_Qmin sl inputs = inr Q →
  (∀ t, t ∈ inputs → ∃ v, sl !! get_iname t = Some v ∧ Q ≤ v)
  ∧ (∃ t, t ∈ inputs ∧ sl !! get_iname t = Some Q).
Proof.
  unfold determine_Qmin, list_item; intros E.
  destruct inputs as [|t0 ts]; simpl in E; [discriminate|].
  inv_get.
  change (foldM _ (x `min` x1) ts = inr Q) with
    (foldM (fun Qmin (inp : KTensor) =>
              s ← get_item sl (get_iname inp); mret (Z.min Qmin s))
       (x `min` x1) ts = inr Q) in E.
  destruct (foldM_min_spec _ _ _ _ E) as (Hle & Hall & Hatt).
  assert (x1 = x) by congruence; subst x1; rewrite Z.min_id in *.
  split.
  - intros t Ht. apply elem_of_cons in Ht as [->|Ht]; [|apply Hall; exact Ht].
    exists x; split; [assumption | lia].
  - destruct Hatt as [->|(t & Ht & Hv)].
    + exists t0; split; [left | assumption].
    + exists t; split; [right|]; assumption.
Qed.

Lemma determine_Qmin_all_equal (sl : gmap string Z) inputs Q :
  inputs ≠ [] →
  (∀ t, t ∈ inputs → sl !! get_iname t = Some Q) →
  determine_Qmin sl inputs = inr Q.
Proof.
  intros Hne Hall. unfold determine_Qmin, list_item.
  destruct inputs as [|t0 ts]; [congruence|]; simpl.
  assert (H0 : get_item sl (get_iname t0) = inr Q)
    by (apply get_item_lookup, Hall; left).
  rewrite H0; simpl. rewrite Z.min_id.
  assert (Hts : ∀ t, t ∈ ts → sl !! get_iname t = Some Q)
    by (intros t Ht; apply Hall; right; exact Ht).
  clear Hall Hne H0. induction ts as [|t ts IH]; simpl; [reflexivity|].
  assert (Ht : get_item sl (get_iname t) = inr Q)
    by (apply get_item_lookup, Hts; left).
  rewrite Ht; simpl. rewrite Z.min_id.
  apply IH. intros t' Ht'; apply Hts; right; exact Ht'.
Qed.

Lemma determine_Qmin_total (sl : gmap string Z) inputs :
  inputs ≠ [] →
  (∀ t, t ∈ inputs → is_Some (sl !! get_iname t)) →
  ∃ Q, determine_Qmin sl inputs = inr Q.
Proof.
  intros Hne Hall. unfold determine_Qmin, list_item.
  destruct inputs as [|t0 ts]; [congruence|]; simpl.
  destruct (Hall t0) as [v0 Hv0]; [left|].
  apply get_item_lookup in Hv0 as Hg0. rewrite Hg0; simpl.
  assert (Hts : ∀ t, t ∈ ts → is_Some (sl !! get_iname t))
    by (intros t Ht; apply Hall; right; exact Ht).
  generalize (Z.min v0 v0) as q. clear - Hts.
  induction ts as [|t ts IH]; intros q; simpl; [eauto|].
  destruct (Hts t) as [v Hv]; [left|].
  apply get_item_lookup in Hv. rewrite Hv; simpl.
  apply IH. intros t' Ht'; apply Hts; right; exact Ht'.
Qed.

(** ** One step of the sweep *)

Lemma reconcile_layer_single depth ld (sl : gmap string Z) l t :
  layer_input l = Single t → reconcile_layer depth ld sl l = inr sl.
Proof. unfold reconcile_layer; intros ->; reflexivity. Qed.

Lemma reconcile_layer_inr depth ld (sl sl' : gmap string Z) l inputs :
  layer_input l = Multiple inputs →
  reconcile_layer depth ld sl l = inr sl' →
  ∃ Q ks b,
    determine_Qmin sl inputs = inr Q
    ∧ visited depth ld l false = inr ks
    ∧ is_shift_layer l = inr b
    ∧ (∀ k, k ∈ ks → sl' !! k = Some Q)
    ∧ (∀ k, k ∉ ks → k ≠ name l → sl' !! k = sl !! k)
    ∧ (if b then ∃ cur, write_all Q ks sl !! name l = Some cur
                        ∧ sl' !! name l = Some (Z.min Q cur)
       else sl' !! name l = Some Q).
Proof.
  unfold reconcile_layer; intros -> E.
  apply bind_ok in E as (Q & HQ & E).
  rewrite update_previous_layer_shift_visited in E.
  apply bind_ok in E as (W & HW & E).
  apply bind_ok in HW as (ks & Hks & HW). apply mret_ok in HW; subst W.
  apply bind_ok in E as (b & Hb & E).
  exists Q, ks, b. do 3 (split; [assumption|]).
  destruct b; simpl in E; change (layer_name l) with (name l) in *.
  - apply bind_ok in E as (cur & Hcur & E). apply get_item_ok in Hcur.
    destruct (Z.ltb_spec Q cur) as [Hlt|Hge]; apply mret_ok in E; subst sl'.
    + split; [|split].
      * intros k Hk. destruct (decide (name l = k)) as [<-|Hne].
        -- apply lookup_insert_eq.
        -- rewrite lookup_insert_ne by exact Hne.
           apply lookup_write_all_in; exact Hk.
      * intros k Hk Hne. rewrite lookup_insert_ne by congruence.
        apply lookup_write_all_notin; exact Hk.
      * exists cur; split; [exact Hcur|].
        rewrite lookup_insert_eq; f_equal; lia.
    + split; [|split].
      * intros k Hk. apply lookup_write_all_in; exact Hk.
      * intros k Hk _. apply lookup_write_all_notin; exact Hk.
      * exists cur; split; [exact Hcur|]. rewrite Hcur; f_equal; lia.
  - apply mret_ok in E; subst sl'. split; [|split].
    + intros k Hk. destruct (decide (name l = k)) as [<-|Hne].
      * apply lookup_insert_eq.
      * rewrite lookup_insert_ne by exact Hne.
        apply lookup_write_all_in; exact Hk.
    + intros k Hk Hne. rewrite lookup_insert_ne by congruence.
      apply lookup_write_all_notin; exact Hk.
    + apply lookup_insert_eq.
Qed.

Lemma reconcile_layer_total depth ld (sl : gmap string Z) l inputs Q ks b :
  layer_input l = Multiple inputs →
  determine_Qmin sl inputs = inr Q →
  visited depth ld l false = inr ks →
  is_shift_layer l = inr b →
  (b = true → is_Some (sl !! name l) ∨ name l ∈ ks) →
  ∃ sl', reconcile_layer depth ld sl l = inr sl'.
Proof.
  unfold reconcile_layer; intros -> HQ Hks Hb Hown.
  rewrite HQ; simpl. rewrite update_previous_layer_shift_visited, Hks; simpl.
  rewrite Hb; simpl. destruct b; simpl; [|eauto].
  change (layer_name l) with (name l).
  assert (Hcur : is_Some (write_all Q ks sl !! name l)).
  { destruct (decide (name l ∈ ks)) as [Hin|Hout].
    - rewrite lookup_write_all_in by exact Hin; eauto.
    - rewrite lookup_write_all_notin by exact Hout.
      destruct (Hown eq_refl) as [?|?]; [assumption | contradiction]. }
  destruct Hcur as [cur Hcur]. apply get_item_lookup in Hcur as ->; simpl.
  destruct (Q <? cur); eauto.
Qed.

(** The direct inputs of a layer are among the visited keys. *)
Lemma visited_inputs depth ld l ks t :
  visited depth ld l false = inr ks → t ∈ input_list l → get_iname t ∈ ks.
Proof.
  intros Hks Ht. apply (visited_reached _ _ _ _ _ Hks).
  apply reached_input; [exact Ht | reflexivity].
Qed.

(** ** Frame of the sweep *)

Lemma foldM_reconcile_frame depth ld L (sl sl' : gmap string Z) k :
  foldM (reconcile_layer depth ld) sl L = inr sl' →
  (∀ l inputs, l ∈ L → layer_input l = Multiple inputs →
     k ≠ name l ∧ ¬ reached ld false l k) →
  sl' !! k = sl !! k.
Proof.
  revert sl; induction L as [|l L IH]; intros sl E Hk; simpl in E.
  - apply mret_ok in E; subst; reflexivity.
  - apply bind_ok in E as (sl1 & H1 & E).
    rewrite (IH _ E) by (intros l' ins Hl'; apply Hk; right; exact Hl').
    destruct (layer_input l) as [t|inputs] eqn:Hin.
    + rewrite (reconcile_layer_single _ _ _ _ _ Hin) in H1.
      injection H1 as <-; reflexivity.
    + destruct (Hk l inputs) as [Hne Hnr]; [left | exact Hin |].
      destruct (reconcile_layer_inr _ _ _ _ _ _ Hin H1)
        as (Q & ks & b & _ & Hks & _ & _ & Hframe & _).
      apply Hframe; [|exact Hne].
      intros Hkin. apply Hnr, (visited_reached _ _ _ _ _ Hks), Hkin.
Qed.

Lemma elem_of_rev {A} (x : A) (l : list A) : x ∈ rev l ↔ x ∈ l.
Proof. rewrite !list_elem_of_In. symmetry; apply in_rev. Qed.

Lemma backward_sweep_frame depth ls (sl sl' : gmap string Z) k :
  backward_sweep depth ls sl = inr sl' →
  ¬ touched ls k →
  sl' !! k = sl !! k.
Proof.
  unfold backward_sweep; intros E Hk.
  apply (foldM_reconcile_frame _ _ _ _ _ _ E).
  intros l inputs Hl Hin. apply (proj1 (elem_of_rev _ _)) in Hl.
  split; intros H; apply Hk; exists l, inputs;
    (split; [exact Hl|]); (split; [exact Hin|]); [left | right]; exact H.
Qed.

(** ** The sweep raises nothing on a well-formed graph *)

Lemma mapM_total {A B} (g : A → result B) xs :
  (∀ x, x ∈ xs → ∃ y, g x = inr y) → ∃ ys, mapM g xs = inr ys.
Proof.
  induction xs as [|x xs IH]; intros Hg; simpl; [eauto|].
  destruct (Hg x) as [y ->]; [left|]; simpl.
  destruct IH as [ys ->]; [intros x' Hx'; apply Hg; right; exact Hx'|].
  simpl; eauto.
Qed.

Lemma make_layer_dict_snoc ls l :
  make_layer_dict (ls ++ [l]) = <[name l := l]> (make_layer_dict ls).
Proof. unfold make_layer_dict; rewrite fold_left_app; reflexivity. Qed.

Lemma make_layer_dict_lookup ls j p :
  NoDup (name <$> ls) → ls !! j = Some p →
  make_layer_dict ls !! name p = Some p.
Proof.
  revert j; induction ls as [|l ls IH] using rev_ind; intros j Hnd Hj.
  - discriminate.
  - rewrite make_layer_dict_snoc.
    rewrite fmap_app in Hnd. apply NoDup_app in Hnd as (Hnd & Hdisj & _).
    destruct (decide (j < length ls)%nat) as [Hlt|Hge].
    + rewrite lookup_app_l in Hj by exact Hlt.
      rewrite lookup_insert_ne; [eapply IH; eauto|].
      intros Heq. apply (Hdisj (name p)).
      * apply list_elem_of_fmap. exists p; split; [reflexivity|].
        apply list_elem_of_lookup; eauto.
      * rewrite <- Heq; left.
    + rewrite lookup_app_r in Hj by lia.
      destruct (j - length ls)%nat; [|discriminate].
      injection Hj as ->. apply lookup_insert_eq.
Qed.

Lemma well_formed_layer ls sl i l :
  well_formed ls sl = true → ls !! i = Some l →
  NoDup (name <$> ls) ∧ layer_ok ls sl i l = true.
Proof.
  unfold well_formed; intros H Hi.
  apply andb_true_iff in H as [Hnd Hall].
  apply bool_decide_eq_true in Hnd. split; [exact Hnd|].
  rewrite forallb_forall in Hall.
  apply (Hall (i, l)). apply list_elem_of_In.
  apply list_elem_of_lookup. exists i.
  rewrite list_lookup_imap, Hi; reflexivity.
Qed.

Lemma input_ok_spec ls i t :
  input_ok ls i t = true →
  ∃ j p b, ls !! j = Some p ∧ name p = get_iname t
           ∧ is_shift_layer p = inr b ∧ (b = false → (j < i)%nat).
Proof.
  unfold input_ok; intros H.
  destruct (list_find _ ls) as [[j p]|] eqn:Hf; [|discriminate].
  apply list_find_Some in Hf as (Hj & Hn & _).
  destruct (is_shift_layer p) as [e|b] eqn:Hb; [discriminate|].
  exists j, p, b. repeat split; try assumption.
  intros ->; simpl in H. apply bool_decide_eq_true in H; exact H.
Qed.

Lemma layer_ok_spec ls sl i l :
  layer_ok ls sl i l = true →
  (∃ b, is_shift_layer l = inr b)
  ∧ is_Some (sl !! name l)
  ∧ input_list l ≠ []
  ∧ ∀ t, t ∈ input_list l → input_ok ls i t = true.
Proof.
  unfold layer_ok; intros H.
  repeat (apply andb_true_iff in H as [H ?]).
  split; [destruct (is_shift_layer l); [discriminate | eauto]|].
  split; [eapply bool_decide_eq_true; eassumption|].
  split; [eapply bool_decide_eq_true; eassumption|].
  intros t Ht. rewrite forallb_forall in *.
  match goal with Hall : ∀ x, In x _ → _ |- _ => apply Hall end.
  apply list_elem_of_In; exact Ht.
Qed.

Lemma visited_total ls sl d :
  well_formed ls sl = true →
  ∀ i l skip, ls !! i = Some l → (i < d)%nat →
  ∃ ks, visited d (make_layer_dict ls) l skip = inr ks.
Proof.
  intros Hwf; induction d as [|d IH]; intros i l skip Hi Hlt; [lia|].
  destruct (well_formed_layer _ _ _ _ Hwf Hi) as [Hnd Hok].
  apply layer_ok_spec in Hok as (_ & _ & _ & Hin).
  simpl.
  match goal with |- ∃ ks, mapM ?g ?xs ≫= _ = _ =>
    destruct (mapM_total g xs) as [kss ->]; [|simpl; eauto] end.
  intros t Ht.
  destruct (skip && is_input_layer t); [eauto|].
  destruct (input_ok_spec _ _ _ (Hin t Ht)) as (j & p & b & Hj & Hn & Hb & Hji).
  rewrite <- Hn, (get_item_lookup _ _ _ (make_layer_dict_lookup _ _ _ Hnd Hj)).
  simpl. rewrite Hb; simpl. destruct b; [eauto|].
  destruct (IH j p true Hj) as [ks ->]; [specialize (Hji eq_refl); lia|].
  simpl; eauto.
Qed.

Lemma reconcile_layer_keeps_keys depth ld (sl sl' : gmap string Z) l k :
  reconcile_layer depth ld sl l = inr sl' →
  is_Some (sl !! k) → is_Some (sl' !! k).
Proof.
  intros E Hk. destruct (layer_input l) as [t|inputs] eqn:Hin.
  - rewrite (reconcile_layer_single _ _ _ _ _ Hin) in E.
    injection E as <-; exact Hk.
  - destruct (reconcile_layer_inr _ _ _ _ _ _ Hin E)
      as (Q & ks & b & _ & _ & _ & Hw & Hframe & Hown).
    destruct (decide (k ∈ ks)) as [Hkin|Hkout]; [rewrite Hw; eauto|].
    destruct (decide (k = name l)) as [->|Hne]; [|rewrite Hframe; auto].
    destruct b; [destruct Hown as (cur & _ & ->) | rewrite Hown]; eauto.
Qed.

Lemma backward_sweep_total depth ls (sl : gmap string Z) :
  well_formed ls sl = true → (length ls ≤ depth)%nat →
  ∃ sl', backward_sweep depth ls sl = inr sl'.
Proof.
  intros Hwf Hdepth. unfold backward_sweep.
  assert (Hkeys : ∀ l, l ∈ ls → is_Some (sl !! name l)).
  { intros l Hl. apply list_elem_of_lookup in Hl as [i Hi].
    destruct (well_formed_layer _ _ _ _ Hwf Hi) as [_ Hok].
    apply layer_ok_spec in Hok as (_ & Hs & _); exact Hs. }
  assert (Hsub : ∀ l, l ∈ rev (tail ls) → l ∈ ls).
  { intros l Hl. apply (proj1 (elem_of_rev _ _)) in Hl.
    destruct ls; [inversion Hl | right; exact Hl]. }
  assert (Hgen : ∀ L sl1, (∀ l, l ∈ L → l ∈ ls) →
            (∀ l, l ∈ ls → is_Some (sl1 !! name l)) →
            ∃ sl', foldM (reconcile_layer depth (make_layer_dict ls)) sl1 L
                   = inr sl'); [|apply Hgen; assumption].
  clear Hsub Hkeys.
  induction L as [|l L IH]; intros sl1 Hsub Hkeys; simpl; [eauto|].
  assert (Hl : l ∈ ls) by (apply Hsub; left).
  assert (Hstep : ∃ sl2, reconcile_layer depth (make_layer_dict ls) sl1 l
                         = inr sl2).
  { destruct (layer_input l) as [t|inputs] eqn:Hin.
    - rewrite (reconcile_layer_single _ _ _ _ _ Hin); eauto.
    - apply list_elem_of_lookup in Hl as [i Hi].
      destruct (well_formed_layer _ _ _ _ Hwf Hi) as [Hnd Hok].
      apply layer_ok_spec in Hok as ([b Hb] & _ & Hne & Hins).
      unfold input_list in Hne, Hins; rewrite Hin in Hne, Hins.
      destruct (determine_Qmin_total sl1 inputs Hne) as [Q HQ].
      { intros t Ht.
        destruct (input_ok_spec _ _ _ (Hins t Ht)) as (j & p & ? & Hj & Hn & _).
        rewrite <- Hn. apply Hkeys, list_elem_of_lookup; eauto. }
      destruct (visited_total ls sl depth Hwf i l false Hi) as [ks Hks].
      { apply lookup_lt_Some in Hi; lia. }
      eapply reconcile_layer_total; eauto.
      intros _; left. apply Hkeys, list_elem_of_lookup; eauto. }
  destruct Hstep as [sl2 Hstep]. rewrite Hstep; simpl.
  apply IH; [intros l' Hl'; apply Hsub; right; exact Hl'|].
  intros l' Hl'. eapply reconcile_layer_keeps_keys; eauto.
Qed.

(** ** Strings *)

Lemma prefix_split_head sub sep s :
  String.prefix sub (split_head sep s) = true → String.prefix sub s = true.
Proof.
  revert s; induction sub as [|c sub IH]; intros s H; [destruct s; reflexivity|].
  destruct s as [|c' s]; simpl in H; [discriminate|].
  destruct (Ascii.eqb c' sep); simpl in H; [discriminate|].
  simpl. destruct (ascii_dec c c'); [apply IH; exact H | discriminate].
Qed.

Lemma contains_split_head sub sep s :
  contains sub (split_head sep s) = true → contains sub s = true.
Proof.
  induction s as [|c s IH]; intros H; [exact H|].
  simpl in H. destruct (Ascii.eqb c sep) eqn:Hc.
  - simpl in H. rewrite orb_false_r in H.
    destruct sub; [reflexivity | discriminate].
  - apply orb_true_iff in H as [H|H]; simpl; apply orb_true_iff.
    + left. apply (prefix_split_head sub sep (String c s)).
      simpl; rewrite Hc; exact H.
    + right; apply IH; exact H.
Qed.

Lemma mem_spec k l : mem k l = true ↔ k ∈ l.
Proof.
  unfold mem; rewrite existsb_exists; split.
  - intros (x & Hx & He). apply String.eqb_eq in He as ->.
    apply list_elem_of_In; exact Hx.
  - intros Hk. exists k; split; [apply list_elem_of_In; exact Hk|].
    apply String.eqb_refl.
Qed.

(** ** Graph inputs and the recursion *)

(** The recursive calls skip graph inputs: no node whose name contains
    [input] is reached behind a pass-through layer. *)
Lemma reached_skip_not_input ld skip init k :
  reached ld skip init k → skip = true → contains "input" k = false.
Proof.
  induction 1 as [skip init t Ht Hskip | skip init t prev k Ht Hskip Hld Hsl Hr IH];
    intros ->; [|apply IH; reflexivity].
  simpl in Hskip. unfold is_input_layer in Hskip.
  destruct (contains "input" (get_iname t)) eqn:Hc; [|reflexivity].
  apply contains_split_head in Hc. congruence.
Qed.

Lemma mapM_elem {A B} (g : A → result B) xs ys x :
  mapM g xs = inr ys → x ∈ xs → ∃ y, g x = inr y ∧ y ∈ ys.
Proof.
  intros E Hx. apply mapM_inr in E.
  apply list_elem_of_lookup in Hx as [i Hi].
  destruct (Forall2_lookup_l _ _ _ _ _ E Hi) as (y & Hy & Hg).
  exists y; split; [exact Hg | apply list_elem_of_lookup; eauto].
Qed.

Lemma untouched_sound depth ls k :
  untouched depth ls k = true → ¬ touched ls k.
Proof.
  unfold untouched; intros H (l & inputs & Hl & Hin & Hk).
  destruct (mapM _ _) as [e|fps] eqn:Hfps; [discriminate|].
  apply negb_true_iff in H.
  assert (Hmem : mem k (concat fps) = true); [|congruence].
  apply mem_spec, (elem_of_concat_mapM _ _ _ _ Hfps).
  destruct (mapM_elem _ _ _ l Hfps) as (ys & Hys & _);
    [apply elem_of_rev; exact Hl|].
  exists l, ys; split; [apply elem_of_rev; exact Hl|]. split; [exact Hys|].
  unfold footprint in Hys; rewrite Hin in Hys.
  apply bind_ok in Hys as (ks & Hks & Hys). apply mret_ok in Hys; subst ys.
  destruct Hk as [->|Hr]; [left|right].
  apply (visited_reached _ _ _ _ _ Hks); exact Hr.
Qed.

(** ** Format-fixed layers are shift layers *)

Lemma any_of_pure (b : bool) conds :
  any_of (mret b :: conds) = if b then inr true else any_of conds.
Proof. destruct b; reflexivity. Qed.

Lemma is_shift_fixed_shift_layer {A} `{LayerLike A} (f : A) :
  is_shift_fixed f = inr true → is_shift_layer f = inr true.
Proof.
  unfold is_shift_fixed, is_shift_layer; cbv zeta.
  rewrite !any_of_pure.
  destruct (contains "input" (name f)); [reflexivity|].
  destruct (contains "conv2d" (name f)); [reflexivity|].
  destruct (contains "conv1d" (name f)); [reflexivity|].
  destruct (contains "dense" (name f)); [reflexivity|].
  destruct (contains "softmax" (name f)); [reflexivity|].
  destruct (contains "sigmoid" (name f)); [reflexivity|].
  destruct (contains "tanh" (name f)); [reflexivity|].
  destruct (contains "add" (name f) && negb (contains "zero" (name f)));
    [reflexivity|].
  destruct (contains "subtract" (name f)); [reflexivity|].
  destruct (contains "multiply" (name f)); [reflexivity|].
  exact (fun E => E).
Qed.

(** ** Inputs of a merge layer after the sweep *)

(** C1 (fails on the code): in the network [shared], where [conv2d_1]
    feeds both [add] and [add_1], the table returned by
    [layers_output_ranges] gives the two direct predecessors of [add_1]
    different formats: [conv2d_1] ends at 3 (rewritten when [add], visited
    later in the reverse order, is reconciled) and [conv2d_2] stays
    at 5.  [generate_model] reads the format of the first input only,
    "they have been set to same". *)
Theorem shared_ancestor_inputs_differ :
  ∃ sl' l t1 t2,
    ex_ranges shared shared_acts = inr sl'
    ∧ l ∈ shared ∧ name l = "add_1"
    ∧ layer_input l = Multiple [t1; t2]
    ∧ sl' !! get_iname t1 = Some 3
    ∧ sl' !! get_iname t2 = Some 5.
Proof.
  exists (table [("input_1", 7); ("conv2d", 3); ("conv2d_1", 3);
                 ("conv2d_2", 5); ("add", 3); ("add_1", 3); ("add_2", 2)]).
  exists (ex_layer "add_1" ["conv2d_1/BiasAdd:0"; "conv2d_2/BiasAdd:0"]).
  do 2 eexists. split; [reflexivity|].
  split; [unfold shared; do 5 right; left|].
  split; [reflexivity|]. split; [reflexivity|].
  split; reflexivity.
Qed.

(** ** Format-fixed nodes *)

(** C3 (fails on the code): in [with_sigmoid] the sigmoid activation is
    format-fixed ("layer which shift to a fixed value") and calibrated
    to 7; it is a direct input of [add], whose other input is calibrated
    to 3, and the sweep rewrites its entry to 3. *)
Theorem format_fixed_rewritten :
  ∃ sl0 sl',
    sigmoid_activation ∈ with_sigmoid
    ∧ is_shift_fixed sigmoid_activation = inr true
    ∧ ex_calibrate with_sigmoid with_sigmoid_acts = inr sl0
    ∧ ex_ranges with_sigmoid with_sigmoid_acts = inr sl'
    ∧ sl0 !! name sigmoid_activation = Some 7
    ∧ sl' !! name sigmoid_activation = Some 3.
Proof.
  exists (table [("input_1", 7); ("conv2d", 5); ("activation", 7);
                 ("conv2d_1", 3); ("add", 3)]).
  exists (table [("input_1", 7); ("conv2d", 5); ("activation", 3);
                 ("conv2d_1", 3); ("add", 3)]).
  split; [unfold with_sigmoid; do 2 right; left|].
  split; [reflexivity|].
  split; [reflexivity|].
  split; [reflexivity|].
  split; reflexivity.
Qed.

(** What the sweep does preserve: a format-fixed node is a shift layer,
    at which the recursion stops, and its entry is left as calibrated
    whenever no step of the sweep writes it, that is when it is not a
    layer with several inputs and is not reached from one. *)
Lemma format_fixed_frame depth ls (sl sl' : gmap string Z) (f : Layer) :
  is_shift_fixed f = inr true →
  untouched depth ls (name f) = true →
  backward_sweep depth ls sl = inr sl' →
  is_shift_layer f = inr true ∧ sl' !! name f = sl !! name f.
Proof.
  intros Hfixed Hun Hsweep. split.
  - apply is_shift_fixed_shift_layer; exact Hfixed.
  - apply (backward_sweep_frame _ _ _ _ _ Hsweep).
    apply (untouched_sound depth); exact Hun.
Qed.

Lemma format_fixed_frame_witness :
  let sl := table [("input_1", 7); ("conv2d", 5); ("activation", 7);
                   ("conv2d_1", 5); ("conv2d_2", 3); ("add", 3)] in
  let sl' := table [("input_1", 7); ("conv2d", 5); ("activation", 7);
                    ("conv2d_1", 3); ("conv2d_2", 3); ("add", 3)] in
  ex_calibrate sigmoid_aside sigmoid_aside_acts = inr sl
  ∧ is_shift_layer sigmoid_activation = inr true
  ∧ sl' !! name sigmoid_activation = sl !! name sigmoid_activation.
Proof.
  intros sl sl'. split; [reflexivity|].
  apply (format_fixed_frame 1000 sigmoid_aside sl sl' sigmoid_activation).
  - reflexivity.
  - reflexivity.
  - reflexivity.
Defined.

(** ** Graph inputs *)

(** C4 (counterexample): in [input_skip] the graph input is a direct
    input of [add]; it is calibrated to 7 and the sweep, which calls
    [update_previous_layer_shift] with [skip_input=False] for the inputs
    of the addition, rewrites it to 3. *)
Lemma input_rewritten :
  ∃ l0 sl0 sl',
    head input_skip = Some l0
    ∧ is_input_layer l0 = true
    ∧ ex_calibrate input_skip input_skip_acts = inr sl0
    ∧ ex_ranges input_skip input_skip_acts = inr sl'
    ∧ sl0 !! name l0 = Some 7
    ∧ sl' !! name l0 = Some 3.
Proof.
  eexists.
  exists (table [("input_1", 7); ("conv2d", 3); ("add", 3)]).
  exists (table [("input_1", 3); ("conv2d", 3); ("add", 3)]).
  split; [reflexivity|]. split; [reflexivity|].
  split; [reflexivity|].
  split; [reflexivity|].
  split; reflexivity.
Qed.

Lemma backward_sweep_input_frame depth ls (sl sl' : gmap string Z)
    (k : string) :
  contains "input" k = true →
  forallb (not_direct_input k) (tail ls) = true →
  backward_sweep depth ls sl = inr sl' →
  sl' !! k = sl !! k.
Proof.
  intros Hk Hdirect Hsweep. unfold backward_sweep in Hsweep.
  apply (foldM_reconcile_frame _ _ _ _ _ _ Hsweep).
  intros l inputs Hl Hin. apply (proj1 (elem_of_rev _ _)) in Hl.
  rewrite forallb_forall in Hdirect.
  specialize (Hdirect l (proj1 (list_elem_of_In _ _) Hl)).
  unfold not_direct_input in Hdirect; rewrite Hin in Hdirect.
  apply andb_true_iff in Hdirect as [Hown Hins].
  apply negb_true_iff, String.eqb_neq in Hown.
  split; [exact Hown|].
  intros Hr. inversion Hr as [s i t Ht Hskip | s i t prev k' Ht Hskip Hld Hsl Hrec];
    subst.
  - rewrite forallb_forall in Hins.
    unfold input_list in Ht; rewrite Hin in Ht.
    specialize (Hins t (proj1 (list_elem_of_In _ _) Ht)).
    apply negb_true_iff, String.eqb_neq in Hins. congruence.
  - apply reached_skip_not_input in Hrec; [congruence | reflexivity].
Qed.

Section InputFrame.

Variable kld_divergence : list Q → Z → nat → result Q.
Variable predict : Model → Layer → xtest → list Q.
Variable clamp_input : nat → list Q → list Q.
Variable recursion_limit : nat.

(** C4 (amended): the recursive calls of the backward pass never rewrite
    a graph input; on a well-formed graph [layers_output_ranges] returns
    a table in which the entry of a node whose name contains [input] is
    the one assigned during calibration, whenever that node is neither a
    direct input of a layer with several inputs (the top-level call
    passes [skip_input=False]) nor such a layer itself. *)
Theorem input_frame (model : Model) (x_test : xtest)
    (quantize_method : string) (max_calibrate_size : nat)
    (sl0 : gmap string Z) (k : string) :
  contains "input" k = true →
  forallb (not_direct_input k) (tail (layers model)) = true →
  make_initial_shift_list kld_divergence predict model
    (clamp_x_test clamp_input max_calibrate_size x_test) quantize_method
    = inr sl0 →
  well_formed (layers model) sl0 = true →
  (length (layers model) ≤ recursion_limit)%nat →
  ∃ sl',
    layers_output_ranges kld_divergence predict clamp_input recursion_limit
      model x_test quantize_method max_calibrate_size = inr sl'
    ∧ sl' !! k = sl0 !! k.
Proof.
  intros Hk Hdirect Hcal Hwf Hdepth. unfold layers_output_ranges.
  rewrite Hcal; simpl.
  destruct (backward_sweep_total _ _ _ Hwf Hdepth) as [sl' Hsweep].
  exists sl'. split; [exact Hsweep|].
  eapply backward_sweep_input_frame; eauto.
Qed.

End InputFrame.

Lemma input_frame_witness :
  let sl0 := table [("input_1", 7); ("max_pooling2d", 7); ("conv2d", 3);
                    ("add", 3)] in
  ex_calibrate pooled_skip pooled_skip_acts = inr sl0
  ∧ ∃ sl',
      ex_ranges pooled_skip pooled_skip_acts = inr sl'
      ∧ sl' !! "input_1" = sl0 !! "input_1".
Proof.
  intros sl0. split; [reflexivity|].
  apply (input_frame ex_kld (ex_predict pooled_skip_acts) ex_clamp 1000
           (ex_model pooled_skip) (XArray [-1; 1]%Q) "max_min" 1000
           sl0 "input_1"); try reflexivity.
  vm_compute; lia.
Defined.

(** ** The target of a merge layer *)

Lemma rev_split {A} (pre post : list A) l :
  rev (pre ++ l :: post) = ((rev post ++ [l]) ++ rev pre)%list.
Proof. rewrite rev_app_distr; reflexivity. Qed.

(** C2 (counterexample): in [shared], with the second calibration
    ([conv2d] 6, [conv2d_1] 5, [conv2d_2] 3), the inputs of [add] are
    calibrated to 6 and 5, but when [add] is visited [conv2d_1] has
    already been rewritten to 3 by the step of [add_1]: the target of
    [add] is 3, not 5, and both inputs end at 3. *)
Lemma target_not_calibrated_min :
  ∃ sl0 sl1 sl2 sl' l inputs,
    ex_calibrate shared shared_acts' = inr sl0
    ∧ tail shared = (take 3 (tail shared) ++ l :: drop 4 (tail shared))%list
    ∧ name l = "add"
    ∧ layer_input l = Multiple inputs
    ∧ foldM (reconcile_layer 1000 (make_layer_dict shared)) sl0
        (rev (drop 4 (tail shared))) = inr sl1
    ∧ reconcile_layer 1000 (make_layer_dict shared) sl1 l = inr sl2
    ∧ determine_Qmin sl0 inputs = inr 5
    ∧ determine_Qmin sl1 inputs = inr 3
    ∧ ex_ranges shared shared_acts' = inr sl'
    ∧ Forall (fun t : KTensor => sl' !! get_iname t = Some 3) inputs.
Proof.
  exists (table [("input_1", 7); ("conv2d", 6); ("conv2d_1", 5);
                 ("conv2d_2", 3); ("add", 5); ("add_1", 3); ("add_2", 3)]).
  exists (table [("input_1", 7); ("conv2d", 6); ("conv2d_1", 3);
                 ("conv2d_2", 3); ("add", 3); ("add_1", 3); ("add_2", 3)]).
  exists (table [("input_1", 7); ("conv2d", 3); ("conv2d_1", 3);
                 ("conv2d_2", 3); ("add", 3); ("add_1", 3); ("add_2", 3)]).
  exists (table [("input_1", 7); ("conv2d", 3); ("conv2d_1", 3);
                 ("conv2d_2", 3); ("add", 3); ("add_1", 3); ("add_2", 3)]).
  exists (ex_layer "add" ["conv2d/BiasAdd:0"; "conv2d_1/BiasAdd:0"]).
  eexists.
  split; [reflexivity|].
  split; [reflexivity|]. split; [reflexivity|]. split; [reflexivity|].
  split; [reflexivity|].
  split; [reflexivity|].
  split; [reflexivity|].
  split; [reflexivity|].
  split; [reflexivity|].
  repeat constructor; reflexivity.
Qed.

(** C2 (amended): on a well-formed graph the sweep reaches every layer [l]
    with several inputs without raising; its target [Qmin] is the minimum
    of the entries its direct inputs have in the table at that moment (the
    calibrated table, rewritten by the steps of the layers after [l]);
    the step assigns [Qmin] to every reached node: the direct inputs and,
    behind an input that is not a shift layer, the inputs of that layer
    other than graph inputs, recursively; it leaves every other entry but
    that of [l] unchanged. *)
Theorem reconcile_target_current_min depth ls (sl : gmap string Z)
    pre l post inputs :
  well_formed ls sl = true →
  (length ls ≤ depth)%nat →
  tail ls = (pre ++ l :: post)%list →
  layer_input l = Multiple inputs →
  ∃ sl1 sl2 Qmin,
    foldM (reconcile_layer depth (make_layer_dict ls)) sl (rev post) = inr sl1
    ∧ reconcile_layer depth (make_layer_dict ls) sl1 l = inr sl2
    ∧ determine_Qmin sl1 inputs = inr Qmin
    ∧ (∀ t, t ∈ inputs → ∃ v, sl1 !! get_iname t = Some v ∧ Qmin ≤ v)
    ∧ (∃ t, t ∈ inputs ∧ sl1 !! get_iname t = Some Qmin)
    ∧ (∀ k, reached (make_layer_dict ls) false l k → sl2 !! k = Some Qmin)
    ∧ (∀ k, ¬ reached (make_layer_dict ls) false l k → k ≠ name l →
         sl2 !! k = sl1 !! k).
Proof.
  intros Hwf Hdepth Htail Hin.
  destruct (backward_sweep_total depth ls sl Hwf Hdepth) as [sl' Hsweep].
  unfold backward_sweep in Hsweep.
  rewrite Htail, rev_split, !foldM_app in Hsweep.
  apply bind_ok in Hsweep as (sl2 & Hsl2 & _).
  apply bind_ok in Hsl2 as (sl1 & Hsl1 & Hstep).
  simpl in Hstep. apply bind_ok in Hstep as (sl2' & Hstep & Heq).
  apply mret_ok in Heq; subst sl2'.
  destruct (reconcile_layer_inr _ _ _ _ _ _ Hin Hstep)
    as (Q & ks & b & HQ & Hks & _ & Hw & Hframe & _).
  destruct (determine_Qmin_spec _ _ _ HQ) as [Hle Hatt].
  exists sl1, sl2, Q. do 3 (split; [assumption|]).
  split; [exact Hle|]. split; [exact Hatt|]. split.
  - intros k Hk. apply Hw, (visited_reached _ _ _ _ _ Hks), Hk.
  - intros k Hk Hne. apply Hframe; [|exact Hne].
    intros Hkin. apply Hk, (visited_reached _ _ _ _ _ Hks), Hkin.
Qed.

Lemma reconcile_target_current_min_witness :
  ∃ sl sl2,
    ex_calibrate two_branch two_branch_acts = inr sl
    ∧ sl !! "conv2d" = Some 5 ∧ sl !! "conv2d_1" = Some 3
    ∧ reconcile_layer 1000 (make_layer_dict two_branch) sl
        (ex_layer "add" ["conv2d/BiasAdd:0"; "conv2d_1/BiasAdd:0"]) = inr sl2
    ∧ sl2 !! "conv2d" = Some 3 ∧ sl2 !! "conv2d_1" = Some 3.
Proof.
  pose (sl := table
          [("input_1", 7); ("conv2d", 5); ("conv2d_1", 3); ("add", 2)]).
  pose (add := ex_layer "add" ["conv2d/BiasAdd:0"; "conv2d_1/BiasAdd:0"]).
  destruct (reconcile_target_current_min 1000 two_branch sl
              (take 2 (tail two_branch)) add [] (input_list add))
    as (sl1 & sl2 & Q & H1 & H2 & HQ & _ & _ & Hw & _).
  - reflexivity.
  - vm_compute; lia.
  - reflexivity.
  - reflexivity.
  - simpl in H1. injection H1 as <-.
    vm_compute in HQ. injection HQ as <-.
    exists sl, sl2.
    split; [reflexivity|].
    split; [reflexivity|].
    split; [reflexivity|].
    split; [exact H2|].
    split.
    + refine (Hw (get_iname {| tensor_name := "conv2d/BiasAdd:0" |}) _).
      apply reached_input; [left | reflexivity].
    + refine (Hw (get_iname {| tensor_name := "conv2d_1/BiasAdd:0" |}) _).
      apply reached_input; [right; left | reflexivity].
Defined.

(** The second scenario of the specification, on the whole of
    [layers_output_ranges]: branches calibrated to 5 and 3 both end
    at 3. *)
Example two_branches_end_at_three :
  ∃ sl0 sl',
    ex_calibrate two_branch two_branch_acts = inr sl0
    ∧ ex_ranges two_branch two_branch_acts = inr sl'
    ∧ sl0 !! "conv2d" = Some 5 ∧ sl0 !! "conv2d_1" = Some 3
    ∧ sl' !! "conv2d" = Some 3 ∧ sl' !! "conv2d_1" = Some 3.
Proof.
  exists (table [("input_1", 7); ("conv2d", 5); ("conv2d_1", 3); ("add", 2)]).
  exists (table [("input_1", 7); ("conv2d", 3); ("conv2d_1", 3); ("add", 2)]).
  split; [reflexivity|].
  split; [reflexivity|].
  repeat split; reflexivity.
Qed.

(** ** Idempotence of the sweep *)

Lemma footprint_frame depth ld L fps (sl sl' : gmap string Z) k :
  mapM (footprint depth ld) L = inr fps →
  foldM (reconcile_layer depth ld) sl L = inr sl' →
  k ∉ concat fps →
  sl' !! k = sl !! k.
Proof.
  intros Hfps Hfold Hk.
  apply (foldM_reconcile_frame _ _ _ _ _ _ Hfold).
  intros l inputs Hl Hin.
  destruct (mapM_elem _ _ _ l Hfps Hl) as (ys & Hys & _).
  assert (Hout : ∀ k', k' ∈ ys → k' ≠ k).
  { intros k' Hk' ->. apply Hk, (elem_of_concat_mapM _ _ _ _ Hfps).
    exists l, ys; auto. }
  unfold footprint in Hys; rewrite Hin in Hys.
  apply bind_ok in Hys as (ks & Hks & Hys). apply mret_ok in Hys; subst ys.
  split.
  - intros ->. apply (Hout (name l)); [left | reflexivity].
  - intros Hr. apply (Hout k); [right | reflexivity].
    apply (visited_reached _ _ _ _ _ Hks); exact Hr.
Qed.

(** A step run again on a table that agrees, on the footprint of its
    layer, with the result of its first run changes nothing. *)
Lemma reconcile_layer_fixpoint depth ld (sl sl1 sl' : gmap string Z) l fp :
  reconcile_layer depth ld sl l = inr sl1 →
  footprint depth ld l = inr fp →
  (∀ k, k ∈ fp → sl' !! k = sl1 !! k) →
  reconcile_layer depth ld sl' l = inr sl'.
Proof.
  intros Hstep Hfp Hagree.
  destruct (layer_input l) as [t|inputs] eqn:Hin;
    [apply (reconcile_layer_single _ _ _ _ _ Hin)|].
  destruct (reconcile_layer_inr _ _ _ _ _ _ Hin Hstep)
    as (Q & ks & b & HQ & Hks & Hb & Hw & _ & Hown).
  unfold footprint in Hfp; rewrite Hin, Hks in Hfp; simpl in Hfp.
  injection Hfp as <-.
  assert (Hks' : ∀ k, k ∈ ks → sl' !! k = Some Q).
  { intros k Hk. rewrite Hagree by (right; exact Hk). apply Hw; exact Hk. }
  assert (HW : write_all Q ks sl' = sl').
  { apply map_eq; intros k. destruct (decide (k ∈ ks)) as [Hk|Hk].
    - rewrite lookup_write_all_in, Hks' by exact Hk; reflexivity.
    - apply lookup_write_all_notin; exact Hk. }
  assert (HQ' : determine_Qmin sl' inputs = inr Q).
  { apply determine_Qmin_all_equal.
    - destruct (determine_Qmin_spec _ _ _ HQ) as [_ (t & Ht & _)].
      intros ->; inversion Ht.
    - intros t Ht. apply Hks', (visited_inputs _ _ _ _ _ Hks).
      unfold input_list; rewrite Hin; exact Ht. }
  unfold reconcile_layer; rewrite Hin, HQ'; simpl.
  rewrite update_previous_layer_shift_visited, Hks; simpl.
  rewrite HW, Hb; simpl.
  change (layer_name l) with (name l).
  assert (Hname : sl' !! name l = sl1 !! name l) by (apply Hagree; left).
  destruct b; simpl; change (layer_name l) with (name l).
  - destruct Hown as (cur & _ & Hcur). rewrite Hcur in Hname.
    rewrite (get_item_lookup _ _ _ Hname); simpl.
    destruct (Z.ltb_spec Q (Q `min` cur)); [lia | reflexivity].
  - rewrite Hown in Hname. rewrite insert_id by exact Hname; reflexivity.
Qed.

Lemma pairwise_disjoint_cons f rest k :
  pairwise_disjoint (f :: rest) = true → k ∈ f → k ∉ concat rest.
Proof.
  simpl; intros H Hk Hin. apply andb_true_iff in H as [H _].
  rewrite forallb_forall in H.
  specialize (H k (proj1 (list_elem_of_In _ _) Hk)).
  apply negb_true_iff in H. apply mem_spec in Hin. congruence.
Qed.

Lemma foldM_reconcile_idem depth ld L :
  ∀ fps (sl sl' : gmap string Z),
    mapM (footprint depth ld) L = inr fps →
    pairwise_disjoint fps = true →
    foldM (reconcile_layer depth ld) sl L = inr sl' →
    foldM (reconcile_layer depth ld) sl' L = inr sl'.
Proof.
  induction L as [|l L IH]; intros fps sl sl' Hfps Hdisj Hfold;
    simpl in *; [reflexivity|].
  apply bind_ok in Hfps as (fp & Hfp & Hfps).
  apply bind_ok in Hfps as (rest & Hrest & Hfps).
  apply mret_ok in Hfps; subst fps.
  apply bind_ok in Hfold as (sl1 & Hstep & Hfold).
  rewrite (reconcile_layer_fixpoint _ _ _ _ _ _ _ Hstep Hfp); simpl.
  - eapply IH; eauto. simpl in Hdisj.
    apply andb_true_iff in Hdisj as [_ Hdisj]; exact Hdisj.
  - intros k Hk. eapply footprint_frame; eauto.
    eapply pairwise_disjoint_cons; eauto.
Qed.




(** ** [get_int_bits]: the ceiling of the binary logarithm *)

Lemma pow2_inject (n : Z) : 0 ≤ n → (2 ^ n == inject_Z (2 ^ n))%Q.
Proof. intros Hn. symmetry. apply (Zpower_Qpower 2 n Hn). Qed.

Lemma pow2_pos (k : Z) : (0 < 2 ^ k)%Q.
Proof. apply Qpower_0_lt; reflexivity. Qed.

Lemma pow2_succ (k : Z) : (2 ^ (k + 1) == 2 * 2 ^ k)%Q.
Proof.
  rewrite Qpower_plus by discriminate.
  rewrite Qmult_comm; reflexivity.
Qed.

(** [ceil_log2 x] is the least [k] with [x <= 2^k]. *)
Lemma ceil_log2_spec (x : Q) :
  (0 < x)%Q → (2 ^ (ceil_log2 x - 1) < x ∧ x <= 2 ^ ceil_log2 x)%Q.
Proof.
  intros Hx. unfold ceil_log2.
  destruct x as [p q]; cbn [Qnum Qden].
  assert (Hp : 0 < p) by (unfold Qlt in Hx; simpl in Hx; lia).
  destruct (Z.leb_spec (Z.pos q) p) as [Hqp|Hpq].
  - (* 1 <= x *)
    set (n := Qceiling (p # q)).
    assert (Hle : (p # q <= inject_Z n)%Q) by apply Qle_ceiling.
    assert (Hlt : (inject_Z (n - 1) < p # q)%Q) by apply Qceiling_lt.
    assert (H1 : (1 <= p # q)%Q) by (unfold Qle; simpl; lia).
    assert (Hn : 1 ≤ n).
    { rewrite Zle_Qle. eapply Qle_trans; eauto. }
    destruct (Z.eq_dec n 1) as [En|En].
    + rewrite En; simpl. rewrite En in Hle. split; [|exact Hle].
      eapply Qlt_le_trans; [|exact H1]. reflexivity.
    + pose proof (Z.log2_up_spec n ltac:(lia)) as [Hlo Hhi].
      pose proof (Z.log2_up_pos n ltac:(lia)) as Hk.
      set (k := Z.log2_up n) in *. split.
      * eapply Qle_lt_trans; [|exact Hlt].
        rewrite pow2_inject by lia. rewrite <- Zle_Qle.
        replace (k - 1) with (Z.pred k) by lia. lia.
      * eapply Qle_trans; [exact Hle|].
        rewrite pow2_inject by lia. rewrite <- Zle_Qle. exact Hhi.
  - (* x < 1 *)
    set (m := Z.pos q / p).
    assert (Hm : 1 ≤ m).
    { unfold m. apply Z.div_le_lower_bound; lia. }
    pose proof (Z.log2_spec m ltac:(lia)) as [Hlo Hhi].
    pose proof (Z.log2_nonneg m) as Hj.
    set (j := Z.log2 m) in *.
    assert (Hdiv1 : p * m ≤ Z.pos q) by (apply Z.mul_div_le; lia).
    assert (Hdiv2 : Z.pos q < p * Z.succ m)
      by (apply Z.mul_succ_div_gt; lia).
    split.
    + replace (- j - 1) with (- (j + 1)) by lia.
      rewrite Qpower_opp. apply Qlt_shift_inv_r; [apply pow2_pos|].
      rewrite pow2_inject by lia.
      unfold Qlt, Qmult, inject_Z; simpl. nia.
    + rewrite Qpower_opp. apply Qle_shift_inv_l; [apply pow2_pos|].
      rewrite pow2_inject by lia.
      unfold Qle, Qmult, inject_Z; simpl. nia.
Qed.

Lemma ln2_pos : (0 < ln 2)%R.
Proof. rewrite <- ln_1. apply ln_increasing; lra. Qed.

Lemma Q2R_2 : Q2R 2 = 2%R.
Proof. unfold Q2R; simpl; lra. Qed.

Lemma Q2R_pow2_nat (n : nat) : Q2R (2 ^ Z.of_nat n) = (2 ^ n)%R.
Proof.
  induction n as [|n IH].
  - unfold Q2R; simpl; lra.
  - rewrite Nat2Z.inj_succ, <- Z.add_1_r.
    rewrite (Qeq_eqR _ _ (pow2_succ (Z.of_nat n))).
    rewrite Q2R_mult, IH, Q2R_2. simpl; reflexivity.
Qed.

Lemma Rlog2_pow2_nat (n : nat) : Rlog2 (2 ^ n) = INR n.
Proof.
  unfold Rlog2. rewrite ln_pow by lra.
  field. pose proof ln2_pos; lra.
Qed.

Lemma Rlog2_pow2 (k : Z) : Rlog2 (Q2R (2 ^ k)) = IZR k.
Proof.
  destruct (Z.le_gt_cases 0 k) as [Hk|Hk].
  - rewrite <- (Z2Nat.id k Hk), Q2R_pow2_nat, Rlog2_pow2_nat.
    apply INR_IZR_INZ.
  - replace k with (- Z.of_nat (Z.to_nat (- k))) by lia.
    rewrite (Qeq_eqR _ _ (Qpower_opp 2 _)).
    rewrite Q2R_inv by (apply Qnot_eq_sym, Qlt_not_eq, pow2_pos).
    rewrite Q2R_pow2_nat. unfold Rlog2.
    rewrite ln_Rinv by (apply pow_lt; lra).
    rewrite ln_pow by lra. rewrite opp_IZR, <- INR_IZR_INZ.
    field. pose proof ln2_pos; lra.
Qed.

Lemma Rlog2_lt (a b : R) : (0 < a)%R → (a < b)%R → (Rlog2 a < Rlog2 b)%R.
Proof.
  intros Ha Hab. unfold Rlog2.
  apply Rmult_lt_compat_r; [apply Rinv_0_lt_compat, ln2_pos|].
  apply ln_increasing; assumption.
Qed.

Lemma Rceil_spec (r : R) (k : Z) :
  (IZR k - 1 < r)%R → (r <= IZR k)%R → Rceil r = k.
Proof.
  intros Hlo Hhi. unfold Rceil.
  rewrite <- (tech_up (- r) (1 - k)); [lia | |]; rewrite minus_IZR; lra.
Qed.

Lemma Q2R_Qabs (x : Q) : Q2R (Qabs x) = Rabs (Q2R x).
Proof.
  apply Qabs_case; intros Hx; apply Qle_Rle in Hx;
    replace (Q2R 0) with 0%R in Hx by (unfold Q2R; simpl; lra).
  - rewrite Rabs_pos_eq by exact Hx; reflexivity.
  - rewrite Q2R_opp, Rabs_left1 by exact Hx; reflexivity.
Qed.

Lemma Q2R_Qmax (a b : Q) : Q2R (Qmax a b) = Rmax (Q2R a) (Q2R b).
Proof.
  destruct (Q.max_spec a b) as [[Hlt ->]|[Hle ->]].
  - rewrite Rmax_right; [reflexivity|]. apply Qle_Rle, Qlt_le_weak, Hlt.
  - rewrite Rmax_left; [reflexivity|]. apply Qle_Rle, Hle.
Qed.

Lemma max3_pos (a b : Q) : (0 < max3 a b tiny)%Q.
Proof.
  unfold max3. eapply Qlt_le_trans; [|apply Q.le_max_r].
  eapply Qlt_le_trans; [|apply Q.le_max_r]. reflexivity.
Qed.

(** [ceil_log2] is the ceiling of the real binary logarithm. *)
Lemma ceil_log2_real (x : Q) :
  (0 < x)%Q → ceil_log2 x = Rceil (Rlog2 (Q2R x)).
Proof.
  intros Hx. symmetry. apply Rceil_spec.
  - destruct (ceil_log2_spec x Hx) as [Hlo _].
    apply Qlt_Rlt in Hlo. apply Rlog2_lt in Hlo.
    + rewrite Rlog2_pow2, minus_IZR in Hlo. exact Hlo.
    + replace 0%R with (Q2R 0) by (unfold Q2R; simpl; lra).
      apply Qlt_Rlt, pow2_pos.
  - destruct (ceil_log2_spec x Hx) as [_ Hhi].
    apply Qle_lt_or_eq in Hhi as [Hlt|Heq].
    + apply Qlt_Rlt in Hlt. apply Rlog2_lt in Hlt.
      * rewrite Rlog2_pow2 in Hlt. lra.
      * replace 0%R with (Q2R 0) by (unfold Q2R; simpl; lra).
        apply Qlt_Rlt, Hx.
    + rewrite (Qeq_eqR _ _ Heq), Rlog2_pow2. lra.
Qed.


(** ** The distribution-matching refinement *)

Lemma argmin_from_spec (l pre : list Q) (b : Q) (bi : nat) :
  pre !! bi = Some b →
  (∀ j x, pre !! j = Some x → (b <= x)%Q) →
  (∀ j x, (j < bi)%nat → pre !! j = Some x → (b < x)%Q) →
  ∃ v, (pre ++ l)%list !! argmin_from bi b (length pre) l = Some v
       ∧ (∀ j x, (pre ++ l)%list !! j = Some x → (v <= x)%Q)
       ∧ (∀ j x, (j < argmin_from bi b (length pre) l)%nat →
            (pre ++ l)%list !! j = Some x → (v < x)%Q).
Proof.
  revert pre b bi; induction l as [|x l IH]; intros pre b bi Hbi Hmin Hfirst.
  - simpl. rewrite app_nil_r. exists b; auto.
  - simpl.
    replace (pre ++ x :: l)%list with ((pre ++ [x]) ++ l)%list
      by (rewrite <- app_assoc; reflexivity).
    assert (Hlen : length (pre ++ [x])%list = S (length pre))
      by (rewrite length_app; simpl; lia).
    destruct (Qlt_le_dec x b) as [Hlt|Hle]; rewrite <- Hlen; apply IH.
    + rewrite lookup_app_r by lia. rewrite Nat.sub_diag; reflexivity.
    + intros j y Hj. destruct (decide (j < length pre)%nat) as [Hj'|Hj'].
      * rewrite lookup_app_l in Hj by exact Hj'.
        eapply Qle_trans; [apply Qlt_le_weak, Hlt | eapply Hmin, Hj].
      * rewrite lookup_app_r in Hj by lia.
        destruct (j - length pre)%nat; [|discriminate].
        injection Hj as <-; apply Qle_refl.
    + intros j y Hj' Hj. rewrite lookup_app_l in Hj by exact Hj'.
      eapply Qlt_le_trans; [exact Hlt | eapply Hmin, Hj].
    + rewrite lookup_app_l by (eapply lookup_lt_Some, Hbi). exact Hbi.
    + intros j y Hj. destruct (decide (j < length pre)%nat) as [Hj'|Hj'].
      * rewrite lookup_app_l in Hj by exact Hj'. eapply Hmin, Hj.
      * rewrite lookup_app_r in Hj by lia.
        destruct (j - length pre)%nat; [|discriminate].
        injection Hj as <-; exact Hle.
    + intros j y Hj' Hj.
      rewrite lookup_app_l in Hj
        by (apply lookup_lt_Some in Hbi; lia).
      eapply Hfirst; eauto.
Qed.

Lemma np_argmin_spec (l : list Q) :
  l ≠ [] →
  ∃ i v, np_argmin l = inr i ∧ l !! i = Some v
         ∧ (∀ j x, l !! j = Some x → (v <= x)%Q)
         ∧ (∀ j x, (j < i)%nat → l !! j = Some x → (v < x)%Q).
Proof.
  destruct l as [|x l]; [congruence|]; intros _.
  destruct (argmin_from_spec l [x] x 0) as (v & Hv & Hmin & Hfirst).
  - reflexivity.
  - intros [|j] y Hj; [injection Hj as <-; apply Qle_refl | discriminate].
  - intros j y Hj; lia.
  - exists (argmin_from 0 x 1 l), v. split; [reflexivity|]. auto.
Qed.

Lemma mapM_length {A B} (g : A → result B) xs ys :
  mapM g xs = inr ys → length ys = length xs.
Proof.
  intros E. apply mapM_inr in E. symmetry; eapply Forall2_length, E.
Qed.

Section Refinement.

Variable kld_divergence : list Q → Z → nat → result Q.


End Refinement.




(** ** Batch normalisation must follow a convolution *)

Lemma foldM_raises {A B} (f : A → B → result A) xs x :
  x ∈ xs → (∀ acc, raises (f acc x)) → ∀ acc, raises (foldM f acc xs).
Proof.
  intros Hx Hf. induction xs as [|y xs IH]; intros acc; [inversion Hx|].
  simpl. apply elem_of_cons in Hx as [<-|Hx].
  - specialize (Hf acc). destruct (f acc x); [exact I | contradiction].
  - destruct (f acc y) as [e|acc']; [exact I | apply IH; exact Hx].
Qed.

Lemma check_bn_raises (layer : Layer) p rest :
  inbound_nodes layer = InLayer p :: rest →
  raises (check_bn layer) ↔
    contains "batch_normalization" (name layer) = true
    ∧ contains "conv" p = false.
Proof.
  intros Hin. unfold check_bn, list_item. rewrite Hin; simpl.
  destruct (contains "batch_normalization" (layer_name layer));
    [destruct (contains "conv" p)|]; simpl; split;
    try tauto; try (intros [H1 H2]; discriminate); auto.
Qed.

Section Normalisation.

Variable kld_divergence : list Q → Z → nat → result Q.
Variable predict : Model → Layer → xtest → list Q.
Variable clamp_input : nat → list Q → list Q.
Variable recursion_limit : nat.
Variable bn_fused_weights : Layer → result (list Var).

(** C10 (amended): for a layer with weights that has a single inbound
    layer [p], the check of [generate_weights] raises exactly when the
    name of the layer contains [batch_normalization] and the name of [p]
    does not contain [conv]: a normalisation after a dense layer is
    rejected as well.  When it raises for a layer of the model,
    [generate_weights] raises. *)
Theorem bn_requires_conv (model : Model) (x_test : option xtest)
    (quantize_method : string) (max_calibrate_size : nat)
    (layer : Layer) (p : string) (rest : list inbound) :
  layer ∈ layers model →
  layer_weights layer ≠ [] →
  inbound_nodes layer = InLayer p :: rest →
  (raises (check_bn layer) ↔
     contains "batch_normalization" (name layer) = true
     ∧ contains "conv" p = false)
  ∧ (contains "batch_normalization" (name layer) = true →
     contains "conv" p = false →
     raises (generate_weights kld_divergence predict clamp_input
               recursion_limit bn_fused_weights model x_test
               quantize_method max_calibrate_size)).
Proof.
  intros Hl Hw Hin. split; [apply check_bn_raises with rest; exact Hin|].
  intros Hbn Hconv. unfold generate_weights.
  match goal with |- raises (?m ≫= _) => destruct m as [e|sl] end;
    [exact I|]; simpl.
  apply foldM_raises with layer; [exact Hl|].
  intros acc. unfold quantize_layer.
  destruct (layer_weights layer) as [|v vs]; [congruence|].
  pose proof (proj2 (check_bn_raises layer p rest Hin) (conj Hbn Hconv)) as Hr.
  destruct (check_bn layer); [exact I | contradiction].
Qed.

End Normalisation.

Lemma bn_requires_conv_witness :
  raises (check_bn (ex_bn "max_pooling2d"))
  ∧ raises (ex_generate [ex_layer "max_pooling2d" ["input_1"];
                         ex_bn "max_pooling2d"]
              [("batch_normalization", [1]%Q)] [1]%Q).
Proof.
  destruct (bn_requires_conv ex_kld
              (ex_predict [("batch_normalization", [1]%Q)]) ex_clamp 1000
              ex_fused
              (ex_model [ex_layer "input_1" ["input_1"];
                         ex_layer "max_pooling2d" ["input_1"];
                         ex_bn "max_pooling2d"])
              (Some (XArray [1]%Q)) "max_min" 1000
              (ex_bn "max_pooling2d") "max_pooling2d" []) as [Hcheck Hgen].
  - do 2 right; left.
  - discriminate.
  - reflexivity.
  - split; [apply Hcheck; split; reflexivity | apply Hgen; reflexivity].
Defined.

(** C10 (counterexample): a batch normalisation that directly follows a
    dense layer, which is a weighted layer, makes [generate_weights]
    raise, while the same network with a convolution is accepted. *)
Lemma bn_after_dense_raises :
  ex_bn "dense" ∈ [ex_weighted "dense"; ex_bn "dense"]
  ∧ inbound_nodes (ex_bn "dense") = [InLayer "dense"]
  ∧ layer_weights (ex_weighted "dense") ≠ []
  ∧ is_shift_layer (ex_weighted "dense") = inr true
  ∧ raises (check_bn (ex_bn "dense"))
  ∧ raises (ex_generate [ex_weighted "dense"; ex_bn "dense"]
              [("dense", [1]%Q); ("batch_normalization", [1]%Q)] [1]%Q)
  ∧ is_ok (ex_generate [ex_weighted "conv2d"; ex_bn "conv2d"]
             [("conv2d", [1]%Q); ("batch_normalization", [1]%Q)] [1]%Q)
    = true.
Proof.
  split; [right; left|]. split; [reflexivity|]. split; [discriminate|].
  split; [reflexivity|]. split; [exact I|]. split; [|reflexivity].
  vm_compute; exact I.
Qed.

(** ** The fractional bits of a bias *)

(** C8 (amended): for a shift (weighted) layer with a kernel followed by
    a bias, quantised with a calibrated table, the kernel is recorded with
    its own min/max format [wk]; when the alignment
    [input_shift + wk - wb] computed from the own format [wb] of the bias
    is negative the bias is recorded with the smaller of [wb] and [wk]
    (the format of the kernel if [wb] exceeds it, which is always the
    case when the input shift is not negative, its own otherwise);
    when the alignment is not negative the bias keeps [wb]. *)
Theorem bias_shift_alignment (sl : gmap string Z) (layer : Layer)
    (t : KTensor) (kernel bias : Var) (ie : Z) (kmin kmax bmin bmax : Q) :
  is_shift_layer layer = inr true →
  layer_input layer = Single t →
  sl !! get_iname_colon t = Some ie →
  contains "kernel" (var_name kernel) = true →
  contains "kernel" (var_name bias) = false →
  contains "bias" (var_name bias) = true →
  np_min (var_values kernel) = inr kmin →
  np_max (var_values kernel) = inr kmax →
  np_min (var_values bias) = inr bmin →
  np_max (var_values bias) = inr bmax →
  let wk := 7 - get_int_bits kmin kmax in
  let wb := 7 - get_int_bits bmin bmax in
  ∃ lw lq,
    foldM (quantize_var (Some sl) layer) (0, ∅, ∅) [kernel; bias]
      = inr (wk, lw, lq)
    ∧ data_width <$> lq !! var_name kernel = Some wk
    ∧ data_width <$> lq !! var_name bias
      = Some (if ie + wk - wb <? 0 then Z.min wb wk else wb).
Proof.
  intros Hshift Hin Hie Hk Hbk Hbb Hkmin Hkmax Hbmin Hbmax wk wb.
  assert (Hsl : sl ≠ ∅) by (intros ->; rewrite lookup_empty in Hie; discriminate).
  assert (Hne : var_name kernel ≠ var_name bias) by congruence.
  unfold foldM, quantize_var.
  rewrite Hk, Hbk, Hbb, Hkmin, Hkmax, Hbmin, Hbmax, Hshift, Hin; simpl.
  destruct (decide (sl = ∅)) as [?|_]; [contradiction|]; simpl.
  rewrite (get_item_lookup _ _ _ Hie); simpl.
  fold wk wb.
  destruct (Z.ltb_spec (ie + wk - wb) 0) as [Hneg|Hpos]; simpl.
  - destruct (Z.gtb_spec wb wk) as [Hgt|Hle]; simpl; do 2 eexists;
      (split; [reflexivity|]);
      rewrite lookup_insert_ne, !lookup_insert_eq by congruence; simpl;
      (split; [reflexivity | f_equal; lia]).
  - do 2 eexists. split; [reflexivity|].
    rewrite lookup_insert_ne, !lookup_insert_eq by congruence; simpl.
    split; reflexivity.
Qed.

Lemma bias_shift_alignment_witness :
  let sl := table [("input_1", 0); ("conv2d", 1)] in
  let layer := ex_conv [3 # 4; -1 # 2]%Q [1 # 8]%Q in
  ∃ lw lq,
    foldM (quantize_var (Some sl) layer) (0, ∅, ∅) (layer_weights layer)
      = inr (7, lw, lq)
    ∧ data_width <$> lq !! "conv2d/kernel:0" = Some 7
    ∧ data_width <$> lq !! "conv2d/bias:0" = Some 7.
Proof.
  intros sl layer.
  apply (bias_shift_alignment sl layer {| tensor_name := "input_1" |}
           {| var_name := "conv2d/kernel:0"; var_values := [3 # 4; -1 # 2]%Q |}
           {| var_name := "conv2d/bias:0"; var_values := [1 # 8]%Q |}
           0 (-1 # 2)%Q (3 # 4)%Q (1 # 8)%Q (1 # 8)%Q);
    reflexivity.
Defined.

(** C8 (counterexample): the input of the convolution is calibrated to
    -2 (samples up to 300), its kernel has format 7 and its bias has the
    own format 6; the alignment -2 + 7 - 6 is negative, and the bias is
    recorded with its own format 6, not with the 7 of the kernel. *)
Lemma bias_keeps_own_format :
  ∃ out sl,
    ex_generate [ex_conv [3 # 4; -1 # 2]%Q [3 # 2]%Q]
      [("conv2d", [100]%Q)] [300]%Q = inr out
    ∧ out_shift_list out = Some sl
    ∧ sl !! "input_1" = Some (-2)
    ∧ recorded_width out "conv2d" "conv2d/kernel:0" = Some 7
    ∧ 7 - get_int_bits (3 # 2) (3 # 2) = 6
    ∧ (-2 + 7 - 6 <? 0) = true
    ∧ recorded_width out "conv2d" "conv2d/bias:0" = Some 6.
Proof.
  do 2 eexists. split; [reflexivity|]. split; [reflexivity|].
  repeat split; reflexivity.
Qed.

(** ** Rounding and range of the quantised values *)

Lemma np_round_cases (x : Q) :
  np_round x = Qfloor x ∨ np_round x = Qfloor x + 1.
Proof.
  unfold np_round. destruct (_ ?= _)%Q; [destruct (Z.even _)| |]; auto.
Qed.

(** [np.round] is within one half of its argument. *)
Lemma np_round_error (x : Q) :
  (Qabs (inject_Z (np_round x) - x) <= 1 # 2)%Q.
Proof.
  pose proof (Qfloor_le x) as Hlo. pose proof (Qlt_floor x) as Hhi.
  rewrite inject_Z_plus in Hhi. change (inject_Z 1) with 1%Q in Hhi.
  apply Qabs_Qle_condition. unfold np_round.
  destruct (Qcompare_spec (x - inject_Z (Qfloor x)) (1 # 2)) as [He|Hl|Hg].
  - destruct (Z.even (Qfloor x));
      [|rewrite inject_Z_plus; change (inject_Z 1) with 1%Q];
      split; Lqa.lra.
  - split; Lqa.lra.
  - rewrite inject_Z_plus; change (inject_Z 1) with 1%Q. split; Lqa.lra.
Qed.

(** [np.round] does not cross an integer bound. *)
Lemma np_round_le (x : Q) (n : Z) :
  (x <= inject_Z n)%Q → np_round x ≤ n.
Proof.
  intros Hx. pose proof (Qfloor_le x) as Hlo.
  assert (Hfl : Qfloor x ≤ n).
  { rewrite Zle_Qle. eapply Qle_trans; eauto. }
  unfold np_round.
  destruct (Z.eq_dec (Qfloor x) n) as [En|En].
  - assert (Hz : (x - inject_Z (Qfloor x) <= 0)%Q) by (rewrite En; Lqa.lra).
    destruct (Qcompare_spec (x - inject_Z (Qfloor x)) (1 # 2)) as [He|Hl|Hg];
      [Lqa.lra | lia | Lqa.lra].
  - destruct (_ ?= _)%Q; [destruct (Z.even _)| |]; lia.
Qed.

Lemma np_round_ge (x : Q) (n : Z) :
  (inject_Z n <= x)%Q → n ≤ np_round x.
Proof.
  intros Hx.
  assert (Hfl : n ≤ Qfloor x).
  { rewrite <- (Qfloor_Z n). apply Qfloor_resp_le; exact Hx. }
  destruct (np_round_cases x) as [->| ->]; lia.
Qed.

Lemma fold_left_Qmin_le (vs : list Q) (a : Q) :
  (fold_left Qmin vs a <= a)%Q
  ∧ ∀ v, v ∈ vs → (fold_left Qmin vs a <= v)%Q.
Proof.
  revert a; induction vs as [|x vs IH]; intros a; simpl.
  - split; [apply Qle_refl | intros v Hv; inversion Hv].
  - destruct (IH (Qmin a x)) as [H1 H2]. split.
    + eapply Qle_trans; [exact H1 | apply Q.le_min_l].
    + intros v Hv. apply elem_of_cons in Hv as [->|Hv]; [|apply H2; exact Hv].
      eapply Qle_trans; [exact H1 | apply Q.le_min_r].
Qed.

Lemma fold_left_Qmax_ge (vs : list Q) (a : Q) :
  (a <= fold_left Qmax vs a)%Q
  ∧ ∀ v, v ∈ vs → (v <= fold_left Qmax vs a)%Q.
Proof.
  revert a; induction vs as [|x vs IH]; intros a; simpl.
  - split; [apply Qle_refl | intros v Hv; inversion Hv].
  - destruct (IH (Qmax a x)) as [H1 H2]. split.
    + eapply Qle_trans; [apply Q.le_max_l | exact H1].
    + intros v Hv. apply elem_of_cons in Hv as [->|Hv]; [|apply H2; exact Hv].
      eapply Qle_trans; [apply Q.le_max_r | exact H1].
Qed.

Lemma np_min_le (vs : list Q) (mn v : Q) :
  np_min vs = inr mn → v ∈ vs → (mn <= v)%Q.
Proof.
  destruct vs as [|x vs]; [discriminate|]. intros [= <-] Hv.
  destruct (fold_left_Qmin_le vs x) as [H1 H2].
  apply elem_of_cons in Hv as [->|Hv]; auto.
Qed.

Lemma np_max_ge (vs : list Q) (mx v : Q) :
  np_max vs = inr mx → v ∈ vs → (v <= mx)%Q.
Proof.
  destruct vs as [|x vs]; [discriminate|]. intros [= <-] Hv.
  destruct (fold_left_Qmax_ge vs x) as [H1 H2].
  apply elem_of_cons in Hv as [->|Hv]; auto.
Qed.

(** Every value of a range is bounded by two to the [get_int_bits] of
    the range. *)
Lemma range_bound (mn mx v : Q) :
  (mn <= v)%Q → (v <= mx)%Q → (Qabs v <= 2 ^ get_int_bits mn mx)%Q.
Proof.
  intros Hlo Hhi. unfold get_int_bits.
  eapply Qle_trans; [|apply ceil_log2_spec, max3_pos].
  unfold max3. apply Qabs_case; intros Hv.
  - eapply Qle_trans; [|apply Q.le_max_r].
    eapply Qle_trans; [|apply Q.le_max_l].
    eapply Qle_trans; [exact Hhi | apply Qle_Qabs].
  - eapply Qle_trans; [|apply Q.le_max_l].
    rewrite Qabs_neg by Lqa.lra. Lqa.lra.
Qed.

(** Scaled by a shift not above [7 - get_int_bits], it stays within
    128. *)
Lemma scaled_bound (mn mx v : Q) (dec_bits : Z) :
  (mn <= v)%Q → (v <= mx)%Q → dec_bits ≤ 7 - get_int_bits mn mx →
  (Qabs (v * 2 ^ dec_bits) <= inject_Z 128)%Q.
Proof.
  intros Hlo Hhi Hdec.
  rewrite Qabs_Qmult, (Qabs_pos (2 ^ dec_bits))
    by (apply Qlt_le_weak, pow2_pos).
  eapply Qle_trans.
  - apply Qmult_le_compat_r;
      [apply (range_bound mn mx v Hlo Hhi) | apply Qlt_le_weak, pow2_pos].
  - rewrite <- Qpower_plus by discriminate.
    change (inject_Z 128) with (2 ^ 7)%Q.
    apply Qpower_le_compat_l; [lia | discriminate].
Qed.

Lemma quantize_values_bounds (vs : list Q) (mn mx : Q) (dec_bits : Z) :
  np_min vs = inr mn → np_max vs = inr mx →
  dec_bits ≤ 7 - get_int_bits mn mx →
  Forall2 (fun v q =>
             q = np_round (v * 2 ^ dec_bits)
             ∧ (Qabs (inject_Z q - v * 2 ^ dec_bits) <= 1 # 2)%Q
             ∧ -128 ≤ q ≤ 128)
          vs (quantize_values vs dec_bits).
Proof.
  intros Hmn Hmx Hdec. unfold quantize_values.
  apply Forall2_fmap_r, Forall_Forall2_diag, Forall_forall.
  intros v Hv. split; [reflexivity|]. split; [apply np_round_error|].
  pose proof (scaled_bound mn mx v dec_bits
                (np_min_le _ _ _ Hmn Hv) (np_max_ge _ _ _ Hmx Hv) Hdec) as Hb.
  apply Qabs_Qle_condition in Hb as [Hb1 Hb2].
  split; [apply np_round_ge | apply np_round_le]; assumption.
Qed.




(** ** What a step of the calibration records *)

Section CalibrationStep.

Variable kld_divergence : list Q → Z → nat → result Q.
Variable predict : Model → Layer → xtest → list Q.

(** A step of [make_initial_shift_list] that returns has recorded, under
    the name of the layer, [7 - get_int_bits min max] for the range of
    the activations it measured, refined by [dec_bits_by_kld] exactly
    when [use_kld] holds. *)
Lemma calib_step_records (model : Model) (x_test : xtest)
    (quantize_method : string) (st st' : calib_state) (layer : node) :
  calib_step kld_divergence predict model x_test quantize_method st layer
    = inr st' →
  ∃ feats min_val max_val kld first dec_bits,
    features st' = Some feats
    ∧ np_min feats = inr min_val
    ∧ np_max feats = inr max_val
    ∧ use_kld quantize_method layer = inr kld
    ∧ (if kld
       then dec_bits_by_kld kld_divergence feats
              (7 - get_int_bits min_val max_val)
       else mret (7 - get_int_bits min_val max_val)) = inr dec_bits
    ∧ head (layers model) = Some first
    ∧ shift_list st'
        !! (if input_is_tf_tensor model && negb (is_input_layer first)
            then split_head ":" (name layer) else name layer)
      = Some dec_bits.
Proof.
  unfold calib_step; intros E.
  apply bind_ok in E as (st1 & _ & E).
  apply bind_ok in E as (feats & _ & E).
  apply bind_ok in E as (mx & Hmx & E).
  apply bind_ok in E as (mn & Hmn & E).
  apply bind_ok in E as (kld & Hkld & E).
  apply bind_ok in E as (d & Hd & E).
  apply bind_ok in E as (first & Hfirst & E).
  apply bind_ok in E as (sl & Hsl & E).
  apply mret_ok in E; subst st'.
  exists feats, mn, mx, kld, first, d. cbn [features shift_list].
  do 5 (split; [first [reflexivity | assumption]|]).
  split.
  - unfold list_item in Hfirst. rewrite head_lookup.
    destruct (layers model !! 0%nat); [injection Hfirst as ->|]; easy.
  - destruct (contains "batch_normalization" (name layer)).
    + destruct (last_layer st1) as [last|]; [|discriminate].
      apply mret_ok in Hsl; subst sl.
      match goal with |- <[?a:=_]> (<[?b:=_]> _) !! _ = _ =>
        destruct (decide (a = b)) as [->|Hne] end.
      * apply lookup_insert_eq.
      * rewrite lookup_insert_ne by exact Hne. apply lookup_insert_eq.
    + apply mret_ok in Hsl; subst sl. apply lookup_insert_eq.
Qed.

End CalibrationStep.

(** * Further properties of the code *)

(** ** The format chosen by [get_int_bits] *)

Lemma get_int_bits_spec (mn mx : Q) :
  let m := max3 (Qabs mn) (Qabs mx) tiny in
  (2 ^ (get_int_bits mn mx - 1) < m ∧ m <= 2 ^ get_int_bits mn mx)%Q.
Proof. apply ceil_log2_spec, max3_pos. Qed.

Lemma max3_le (a b a' b' c : Q) :
  (a <= a')%Q → (b <= b')%Q → (max3 a b c <= max3 a' b' c)%Q.
Proof.
  intros Ha Hb. unfold max3.
  apply Q.max_le_compat; [exact Ha|].
  apply Q.max_le_compat; [exact Hb | apply Qle_refl].
Qed.




(** X3: [get_int_bits] never returns less than -33, the value for the
    floor [1e-10]: no more than 40 fractional bits are ever chosen, and
    exactly 40 for a range within the floor (an all-zero tensor for
    one). *)
Theorem dec_bits_at_most_40 (mn mx : Q) :
  7 - get_int_bits mn mx ≤ 40
  ∧ ((Qabs mn <= tiny)%Q → (Qabs mx <= tiny)%Q →
     7 - get_int_bits mn mx = 40).
Proof.
  pose proof (get_int_bits_spec mn mx) as [Hlo Hhi]. cbv zeta in Hlo, Hhi.
  set (m := max3 (Qabs mn) (Qabs mx) tiny) in *.
  set (k := get_int_bits mn mx) in *.
  assert (Htiny : (tiny <= m)%Q).
  { unfold m, max3. eapply Qle_trans; [|apply Q.le_max_r]. apply Q.le_max_r. }
  assert (H34 : (2 ^ (-34) < tiny)%Q) by reflexivity.
  assert (H33 : (tiny <= 2 ^ (-33))%Q) by (unfold Qle; simpl; lia).
  assert (Hk : -33 ≤ k).
  { assert (Hlt : (2 ^ (-34) < 2 ^ k)%Q).
    { eapply Qlt_le_trans; [exact H34|].
      eapply Qle_trans; [exact Htiny | exact Hhi]. }
    apply Qpower_lt_compat_l_inv in Hlt; [lia | reflexivity]. }
  split; [lia|].
  intros Hmn Hmx.
  assert (Hm : (m <= tiny)%Q).
  { unfold m, max3. apply Q.max_lub; [exact Hmn|].
    apply Q.max_lub; [exact Hmx | apply Qle_refl]. }
  assert (Hlt : (2 ^ (k - 1) < 2 ^ (-33))%Q).
  { eapply Qlt_le_trans; [exact Hlo|].
    eapply Qle_trans; [exact Hm | exact H33]. }
  apply Qpower_lt_compat_l_inv in Hlt; [lia | reflexivity].
Qed.

(** ** Conversion to and from a fixed-point format *)

Lemma np_round_comp (x y : Q) : (x == y)%Q → np_round x = np_round y.
Proof.
  intros E. unfold np_round.
  rewrite (Qfloor_comp x y E).
  assert (Ec : (x - inject_Z (Qfloor y) ?= 1 # 2)%Q
               = (y - inject_Z (Qfloor y) ?= 1 # 2)%Q)
    by (apply Qcompare_comp; [rewrite E|]; reflexivity).
  rewrite Ec; reflexivity.
Qed.

Lemma np_round_inject_Z (n : Z) : np_round (inject_Z n) = n.
Proof.
  unfold np_round. rewrite Qfloor_Z.
  assert (E : (inject_Z n - inject_Z n ?= 1 # 2)%Q = Lt).
  { rewrite <- Qlt_alt. Lqa.lra. }
  rewrite E; reflexivity.
Qed.

Lemma pow2_opp_r (n : Z) : (2 ^ (- n) * 2 ^ n == 1)%Q.
Proof.
  rewrite <- Qpower_plus by discriminate.
  replace (- n + n) with 0 by lia. reflexivity.
Qed.



(** ** Filter sizes *)

Lemma flatten_leaves (l : list Z) : flatten (Nest (Leaf <$> l)) = l.
Proof.
  cbn [flatten]. induction l as [|x l IH]; [reflexivity|].
  cbn. f_equal. exact IH.
Qed.

Lemma pad_one (given : list Z) (pad_val : Z) (shape : nat) :
  let padded :=
    if (length given <? shape)%nat
    then (replicate (shape - length given) pad_val ++ given)%list
    else given in
  length padded = (shape `max` length given)%nat
  ∧ (∃ fill, padded = (fill ++ given)%list ∧ Forall (eq pad_val) fill)
  ∧ (if (length padded <? shape)%nat
     then (replicate (shape - length padded) pad_val ++ padded)%list
     else padded) = padded.
Proof.
  cbv zeta. destruct (Nat.ltb_spec (length given) shape) as [Hlt|Hge].
  - split; [rewrite length_app, length_replicate; lia|]. split.
    + eexists; split; [reflexivity|].
      apply Forall_forall. intros x Hx.
      apply elem_of_replicate in Hx as [-> _]. reflexivity.
    + rewrite length_app, length_replicate.
      replace (shape - length given + length given)%nat with shape by lia.
      rewrite Nat.ltb_irrefl. reflexivity.
  - split; [lia|]. split.
    + exists []. split; [reflexivity | constructor].
    + destruct (Nat.ltb_spec (length given) shape); [lia | reflexivity].
Qed.

(** X6: [pad_filter_sizes] returns one padded size for each size given.
    A padded size has [shape] entries when the size given has no more
    than [shape], and is the size given otherwise; it ends with the
    entries given, and what is put in front is [pad_val] only; padding a
    padded size again changes nothing.  [flatten] gives back a list of
    numbers as it is, so that the [border_size] of a zero-padding or
    cropping layer, which never raises, is the numbers of the configured
    value from left to right behind as many zeros as it takes to make
    four entries: [((t, b), (l, r))] gives [(t, b, l, r)] and [(l, r)]
    gives [(0, 0, l, r)]. *)
Theorem filter_sizes_padded (pad_val : Z) (shape : nat) :
  (∀ filter_sizes : list filter_size,
     Forall2 (fun f_size padded =>
                let given :=
                  match f_size with FInt n => [n] | FSeq l => l end in
                length padded = (shape `max` length given)%nat
                ∧ ∃ fill, padded = (fill ++ given)%list
                          ∧ Forall (eq pad_val) fill)
             filter_sizes (pad_filter_sizes filter_sizes pad_val shape)
     ∧ pad_filter_sizes
         (FSeq <$> pad_filter_sizes filter_sizes pad_val shape) pad_val shape
       = pad_filter_sizes filter_sizes pad_val shape)
  ∧ (∀ l : list Z, flatten (Nest (Leaf <$> l)) = l)
  ∧ (∀ cfg_value : nested,
       border_size cfg_value
       = inr (replicate (4 - length (flatten cfg_value)) 0
                ++ flatten cfg_value)%list)
  ∧ (∀ t b l r : Z,
       border_size (Nest [Nest [Leaf t; Leaf b]; Nest [Leaf l; Leaf r]])
       = inr [t; b; l; r])
  ∧ (∀ l r : Z, border_size (Nest [Leaf l; Leaf r]) = inr [0; 0; l; r]).
Proof.
  split; [|split; [exact flatten_leaves|split; [|split; reflexivity]]].
  - intros filter_sizes. unfold pad_filter_sizes. split.
    + apply Forall2_fmap_r, Forall_Forall2_diag, Forall_forall.
      intros f _. cbv beta zeta.
      destruct (pad_one (match f with FInt n => [n] | FSeq l => l end)
                  pad_val shape) as (Hlen & Hfill & _).
      split; assumption.
    + rewrite <- !list_fmap_compose. apply list_fmap_ext.
      intros _ f _. unfold compose. cbv beta zeta.
      apply (pad_one (match f with FInt n => [n] | FSeq l => l end)).
  - intros c. unfold border_size, pad_filter_sizes. cbn [fmap list_fmap].
    destruct (Nat.ltb_spec (length (flatten c)) 4) as [Hlt|Hge].
    + reflexivity.
    + replace (4 - length (flatten c))%nat with 0%nat by lia. reflexivity.
Qed.

(** ** Classification of layers *)

(** X7: whenever [is_shift_fixed] returns for a layer (or a tensor), so
    does [is_shift_layer], and a layer whose format is fixed is a shift
    layer. *)
Theorem shift_fixed_is_shift_layer {A} `{LayerLike A} (f : A) (b : bool) :
  is_shift_fixed f = inr b →
  ∃ b', is_shift_layer f = inr b' ∧ (b = true → b' = true).
Proof.
  unfold is_shift_fixed, is_shift_layer; cbv zeta.
  rewrite !any_of_pure.
  destruct (contains "input" (name f));
    [intros _; exists true; split; auto|].
  destruct (contains "conv2d" (name f));
    [intros _; exists true; split; auto|].
  destruct (contains "conv1d" (name f));
    [intros _; exists true; split; auto|].
  destruct (contains "dense" (name f));
    [intros _; exists true; split; auto|].
  destruct (contains "softmax" (name f));
    [intros _; exists true; split; auto|].
  destruct (contains "sigmoid" (name f));
    [intros _; exists true; split; auto|].
  destruct (contains "tanh" (name f));
    [intros _; exists true; split; auto|].
  destruct (contains "add" (name f) && negb (contains "zero" (name f)));
    [intros E; exists true; split; auto|].
  destruct (contains "subtract" (name f));
    [intros E; exists true; split; auto|].
  destruct (contains "multiply" (name f));
    [intros E; exists true; split; auto|].
  intros E. exists b. split; [exact E | auto].
Qed.

Lemma shift_fixed_is_shift_layer_witness :
  ∃ b', is_shift_layer sigmoid_activation = inr b' ∧ (true = true → b' = true).
Proof.
  apply (shift_fixed_is_shift_layer sigmoid_activation true). reflexivity.
Defined.

Lemma activation_is_inl (layer : Layer) (act : string) (e : exn) :
  activation_is layer act = inl e →
  e = KeyError "activation"
  ∧ contains "activation" (name layer) = true
  ∧ layer_config layer !! "activation" = None.
Proof.
  unfold activation_is.
  destruct (contains "activation" (name layer)); [|discriminate].
  cbn. unfold get_item.
  destruct (layer_config layer !! "activation"); [discriminate|].
  intros [= <-]. auto.
Qed.

Lemma any_of_activation_inl (layer : Layer) (acts : list string) (e : exn) :
  any_of ((activation_is layer) <$> acts) = inl e →
  e = KeyError "activation"
  ∧ contains "activation" (name layer) = true
  ∧ layer_config layer !! "activation" = None.
Proof.
  induction acts as [|act acts IH]; [discriminate|].
  cbn [fmap list_fmap any_of].
  destruct (activation_is layer act) as [e'|b] eqn:E.
  - intros [= <-]. eapply activation_is_inl, E.
  - cbn. destruct b; [discriminate | exact IH].
Qed.

(** X8: on a layer, [is_shift_layer] and [is_shift_fixed] raise nothing
    but [KeyError('activation')], and only for a layer whose name contains
    [activation] and whose configuration has no entry [activation]. *)
Theorem classification_raises_only_key_error (layer : Layer) (e : exn) :
  is_shift_layer layer = inl e ∨ is_shift_fixed layer = inl e →
  e = KeyError "activation"
  ∧ contains "activation" (name layer) = true
  ∧ layer_config layer !! "activation" = None.
Proof.
  pose proof (any_of_activation_inl layer ["softmax"; "sigmoid"; "tanh"] e)
    as Hacts.
  cbn [fmap list_fmap] in Hacts.
  unfold is_shift_layer, is_shift_fixed; cbv zeta.
  rewrite !any_of_pure.
  intros [E|E]; revert E.
  - destruct (contains "input" (name layer)); [discriminate|].
    destruct (contains "conv2d" (name layer)); [discriminate|].
    destruct (contains "conv1d" (name layer)); [discriminate|].
    destruct (contains "dense" (name layer)); [discriminate|].
    destruct (contains "softmax" (name layer)); [discriminate|].
    destruct (contains "sigmoid" (name layer)); [discriminate|].
    destruct (contains "tanh" (name layer)); [discriminate|].
    destruct (contains "add" (name layer)
              && negb (contains "zero" (name layer))); [discriminate|].
    destruct (contains "subtract" (name layer)); [discriminate|].
    destruct (contains "multiply" (name layer)); [discriminate|].
    exact Hacts.
  - destruct (contains "softmax" (name layer)); [discriminate|].
    destruct (contains "sigmoid" (name layer)); [discriminate|].
    destruct (contains "tanh" (name layer)); [discriminate|].
    exact Hacts.
Qed.

Lemma classification_raises_only_key_error_witness :
  KeyError "activation" = KeyError "activation"
  ∧ contains "activation" (name (ex_layer "activation" ["conv2d/Relu:0"]))
    = true
  ∧ layer_config (ex_layer "activation" ["conv2d/Relu:0"]) !! "activation"
    = None.
Proof.
  apply (classification_raises_only_key_error
           (ex_layer "activation" ["conv2d/Relu:0"]) (KeyError "activation")).
  left. reflexivity.
Defined.

(** ** The table of [make_initial_shift_list] *)

Section CalibrationTable.

Variable kld_divergence : list Q → Z → nat → result Q.
Variable predict : Model → Layer → xtest → list Q.

(** What a step of the layer loop that returns has done. *)
Lemma calib_step_inv (model : Model) (x_test : xtest)
    (quantize_method : string) (st st' : calib_state) (layer : node) :
  calib_step kld_divergence predict model x_test quantize_method st layer
    = inr st' →
  ∃ feats mn mx kld d,
    features st' = Some feats
    ∧ (is_input_layer layer = false →
       is_shift_layer layer = inr false →
       contains "batch_normalization" (name layer) = false →
       features st = Some feats)
    ∧ (is_input_layer layer = false →
       contains "batch_normalization" (name layer) = true →
       ∃ l, layer = NLayer l ∧ feats = predict model l x_test)
    ∧ np_min feats = inr mn
    ∧ np_max feats = inr mx
    ∧ use_kld quantize_method layer = inr kld
    ∧ (if kld
       then dec_bits_by_kld kld_divergence feats (7 - get_int_bits mn mx)
       else mret (7 - get_int_bits mn mx)) = inr d
    ∧ (if contains "batch_normalization" (name layer)
       then ∃ last,
              last_layer st = Some last
              ∧ shift_list st'
                = <[name last := d]>
                    (<[shift_name model (name layer) := d]> (shift_list st))
       else shift_list st'
            = <[shift_name model (name layer) := d]> (shift_list st)).
Proof.
  unfold calib_step; intros E.
  apply bind_ok in E as (st1 & Hst1 & E).
  apply bind_ok in E as (feats & Hfeats & E).
  apply bind_ok in E as (mx & Hmx & E).
  apply bind_ok in E as (mn & Hmn & E).
  apply bind_ok in E as (kld & Hkld & E).
  apply bind_ok in E as (d & Hd & E).
  apply bind_ok in E as (first & Hfirst & E).
  apply bind_ok in E as (sl & Hsl & E).
  apply mret_ok in E; subst st'.
  assert (Hf1 : features st1 = Some feats).
  { destruct (features st1); [|discriminate].
    apply mret_ok in Hfeats; congruence. }
  assert (Hkeep : shift_list st1 = shift_list st
                  ∧ last_layer st1 = last_layer st).
  { destruct (is_input_layer layer).
    - apply bind_ok in Hst1 as (? & _ & Hst1).
      apply mret_ok in Hst1; subst st1. split; reflexivity.
    - apply bind_ok in Hst1 as (b & _ & Hst1).
      destruct (b || contains "batch_normalization" (name layer)).
      + destruct layer; [|discriminate].
        apply mret_ok in Hst1; subst st1. split; reflexivity.
      + apply mret_ok in Hst1; subst st1. split; reflexivity. }
  destruct Hkeep as [Hk1 Hk2].
  assert (Hname : shift_name model (name layer)
                  = if input_is_tf_tensor model
                       && negb (is_input_layer first)
                    then split_head ":" (name layer) else name layer).
  { unfold shift_name, list_item in *. rewrite head_lookup.
    destruct (layers model !! 0%nat); [|discriminate].
    apply mret_ok in Hfirst; subst; reflexivity. }
  exists feats, mn, mx, kld, d. cbn [features shift_list].
  split; [reflexivity|]. split; [|split].
  - intros Hin Hsl' Hbn. rewrite Hin in Hst1.
    apply bind_ok in Hst1 as (b & Hb & Hst1).
    rewrite Hsl' in Hb. injection Hb as <-.
    rewrite Hbn in Hst1. apply mret_ok in Hst1; subst st1. exact Hf1.
  - intros Hin Hbn. rewrite Hin in Hst1.
    apply bind_ok in Hst1 as (b & _ & Hst1).
    rewrite Hbn, orb_true_r in Hst1.
    destruct layer as [l|t]; [|discriminate].
    apply mret_ok in Hst1; subst st1. cbn in Hf1.
    exists l. split; [reflexivity | congruence].
  - do 4 (split; [assumption|]).
    rewrite Hname, <- Hk1, <- Hk2.
    destruct (contains "batch_normalization" (name layer)).
    + destruct (last_layer st1) as [last|]; [|discriminate].
      apply mret_ok in Hsl. exists last. split; congruence.
    + apply mret_ok in Hsl; congruence.
Qed.

Lemma calib_step_keeps (model : Model) (x_test : xtest)
    (quantize_method : string) (st st' : calib_state) (layer : node) k :
  calib_step kld_divergence predict model x_test quantize_method st layer
    = inr st' →
  is_Some (shift_list st' !! shift_name model (name layer))
  ∧ (is_Some (shift_list st !! k) → is_Some (shift_list st' !! k)).
Proof.
  intros E.
  apply calib_step_inv in E
    as (feats & mn & mx & kld & d & _ & _ & _ & _ & _ & _ & _ & Hsl).
  assert (Hins : ∀ (m : gmap string Z) a v b,
             (a = b ∨ is_Some (m !! b)) → is_Some (<[a := v]> m !! b)).
  { intros m a v b [->|H]; [rewrite lookup_insert_eq; eauto|].
    destruct (decide (a = b)) as [->|Hne];
      [rewrite lookup_insert_eq; eauto
      | rewrite lookup_insert_ne by exact Hne; exact H]. }
  destruct (contains "batch_normalization" (name layer)).
  - destruct Hsl as (last & _ & ->).
    split; [|intros H]; apply Hins; right; apply Hins; auto.
  - rewrite Hsl. split; [|intros H]; apply Hins; auto.
Qed.

Lemma foldM_calib_keeps (model : Model) (x_test : xtest)
    (quantize_method : string) (nodes : list node) :
  ∀ st st',
    foldM (calib_step kld_divergence predict model x_test quantize_method)
      st nodes = inr st' →
    (∀ k, is_Some (shift_list st !! k) → is_Some (shift_list st' !! k))
    ∧ (∀ n, n ∈ nodes →
         is_Some (shift_list st' !! shift_name model (name n))).
Proof.
  induction nodes as [|x nodes IH]; intros st st' E.
  - apply mret_ok in E; subst st'. split; [auto|].
    intros n Hn; inversion Hn.
  - cbn [foldM] in E. apply bind_ok in E as (st1 & Hstep & E).
    destruct (IH _ _ E) as [Hkeep Hnew]. split.
    + intros k Hk. apply Hkeep.
      eapply (proj2 (calib_step_keeps _ _ _ _ _ _ k Hstep)), Hk.
    + intros n Hn. apply elem_of_cons in Hn as [->|Hn]; [|auto].
      apply Hkeep.
      eapply (proj1 (calib_step_keeps _ _ _ _ _ _ "" Hstep)).
Qed.

(** X9: when [make_initial_shift_list] returns, its table has an entry
    for every element of the list it walked, under the key of that
    element: for every layer of the model, and for the input tensor put
    in front of the layers when the first layer is not an input layer. *)
Theorem calibration_covers_layers (model : Model) (x_test : xtest)
    (quantize_method : string) (sl : gmap string Z) :
  make_initial_shift_list kld_divergence predict model x_test
    quantize_method = inr sl →
  ∃ model_layers,
    calib_layers model = inr model_layers
    ∧ (∀ n, n ∈ model_layers → is_Some (sl !! shift_name model (name n)))
    ∧ (∀ l, l ∈ layers model → is_Some (sl !! shift_name model (name l))).
Proof.
  unfold make_initial_shift_list; intros E.
  apply bind_ok in E as (model_layers & Hml & E).
  apply bind_ok in E as (st & Hfold & E).
  apply mret_ok in E; subst sl.
  apply foldM_calib_keeps in Hfold as [_ Hnew].
  exists model_layers. split; [exact Hml|]. split; [exact Hnew|].
  intros l Hl. apply (Hnew (NLayer l)).
  unfold calib_layers in Hml.
  apply bind_ok in Hml as (first & _ & Hml).
  assert (Hin : NLayer l ∈ NLayer <$> layers model)
    by (apply list_elem_of_fmap; eauto).
  destruct (is_input_layer first).
  - apply mret_ok in Hml; subst; exact Hin.
  - destruct (model_input model); [|discriminate].
    apply mret_ok in Hml; subst. apply elem_of_cons; right; exact Hin.
Qed.

(** X10: a layer that is neither an input layer, nor a shift layer, nor a
    batch normalisation (a pooling layer, say) is calibrated on the
    activations of the layer walked just before it: with the method
    [max_min], it is given the format recorded for that layer, its
    predecessor in [model.layers]. *)
Theorem pass_through_inherits (model : Model) (x_test : xtest)
    (quantize_method : string) (st0 st1 st2 : calib_state)
    (prev layer : node) :
  contains "kld" quantize_method = false →
  is_input_layer layer = false →
  is_shift_layer layer = inr false →
  contains "batch_normalization" (name layer) = false →
  calib_step kld_divergence predict model x_test quantize_method st0 prev
    = inr st1 →
  calib_step kld_divergence predict model x_test quantize_method st1 layer
    = inr st2 →
  is_Some (shift_list st1 !! shift_name model (name prev))
  ∧ shift_list st2 !! shift_name model (name layer)
    = shift_list st1 !! shift_name model (name prev).
Proof.
  intros Hkld Hin Hsl Hbn E1 E2.
  apply calib_step_inv in E1
    as (f1 & mn1 & mx1 & k1 & d1 & Hf1 & _ & _ & Hmn1 & Hmx1 & Hk1 & Hd1
        & Ht1).
  apply calib_step_inv in E2
    as (f2 & mn2 & mx2 & k2 & d2 & _ & Hsame & _ & Hmn2 & Hmx2 & Hk2 & Hd2
        & Ht2).
  specialize (Hsame Hin Hsl Hbn).
  assert (f2 = f1) by congruence; subst f2.
  assert (mn2 = mn1) by congruence; subst mn2.
  assert (mx2 = mx1) by congruence; subst mx2.
  unfold use_kld in Hk1, Hk2. rewrite Hkld in Hk1, Hk2.
  apply mret_ok in Hk1, Hk2; subst k1 k2.
  apply mret_ok in Hd1, Hd2; subst d1 d2.
  rewrite Hbn in Ht2. rewrite Ht2, lookup_insert_eq.
  assert (H1 : shift_list st1 !! shift_name model (name prev)
               = Some (7 - get_int_bits mn1 mx1)).
  { destruct (contains "batch_normalization" (name prev)).
    - destruct Ht1 as (last & _ & ->).
      destruct (decide (name last = shift_name model (name prev))) as [->|Hne].
      + apply lookup_insert_eq.
      + rewrite lookup_insert_ne by exact Hne. apply lookup_insert_eq.
    - rewrite Ht1. apply lookup_insert_eq. }
  rewrite H1. split; [eauto | reflexivity].
Qed.

(** X11: the step of a batch normalisation records the format of its own
    output twice: under its own key and under the name of the layer
    walked just before it (the convolution it is fused into), whose own
    format is replaced. *)
Theorem bn_format_given_to_previous (model : Model) (x_test : xtest)
    (quantize_method : string) (st st' : calib_state) (l : Layer) :
  contains "batch_normalization" (name l) = true →
  is_input_layer l = false →
  calib_step kld_divergence predict model x_test quantize_method st
    (NLayer l) = inr st' →
  ∃ last mn mx kld d,
    last_layer st = Some last
    ∧ np_min (predict model l x_test) = inr mn
    ∧ np_max (predict model l x_test) = inr mx
    ∧ use_kld quantize_method (NLayer l) = inr kld
    ∧ (if kld
       then dec_bits_by_kld kld_divergence (predict model l x_test)
              (7 - get_int_bits mn mx)
       else mret (7 - get_int_bits mn mx)) = inr d
    ∧ shift_list st' !! name last = Some d
    ∧ shift_list st' !! shift_name model (name l) = Some d.
Proof.
  intros Hbn Hin E.
  apply calib_step_inv in E
    as (f & mn & mx & k & d & _ & _ & Hf & Hmn & Hmx & Hk & Hd & Ht).
  destruct (Hf Hin Hbn) as (l' & [= <-] & ->).
  change (name (NLayer l)) with (name l) in Ht. rewrite Hbn in Ht.
  destruct Ht as (last & Hlast & ->).
  exists last, mn, mx, k, d. do 5 (split; [assumption|]). split.
  - apply lookup_insert_eq.
  - destruct (decide (name last = shift_name model (name l))) as [->|Hne].
    + apply lookup_insert_eq.
    + rewrite lookup_insert_ne by exact Hne. apply lookup_insert_eq.
Qed.

End CalibrationTable.

Lemma calibration_covers_layers_witness :
  ∃ model_layers,
    calib_layers (ex_model two_branch) = inr model_layers
    ∧ (∀ n, n ∈ model_layers →
         is_Some (table [("input_1", 7); ("conv2d", 5); ("conv2d_1", 3);
                         ("add", 2)]
                    !! shift_name (ex_model two_branch) (name n)))
    ∧ (∀ l, l ∈ layers (ex_model two_branch) →
         is_Some (table [("input_1", 7); ("conv2d", 5); ("conv2d_1", 3);
                         ("add", 2)]
                    !! shift_name (ex_model two_branch) (name l))).
Proof.
  apply (calibration_covers_layers ex_kld (ex_predict two_branch_acts)
           (ex_model two_branch) (XArray [-1; 1]%Q) "max_min").
  reflexivity.
Defined.

Lemma pass_through_inherits_witness :
  let model :=
    ex_model [ ex_layer "input_1" ["input_1"];
               ex_layer "conv2d" ["input_1"];
               ex_layer "max_pooling2d" ["conv2d/Relu:0"] ] in
  let input := NLayer (ex_layer "input_1" ["input_1"]) in
  let prev := NLayer (ex_layer "conv2d" ["input_1"]) in
  let layer := NLayer (ex_layer "max_pooling2d" ["conv2d/Relu:0"]) in
  let st0 := {| features := Some [-1; 1]%Q;
                shift_list := table [("input_1", 7)];
                last_layer := Some input; inp_idx := 1 |} in
  let st1 := {| features := Some [-3; 5 # 2]%Q;
                shift_list := table [("input_1", 7); ("conv2d", 5)];
                last_layer := Some prev; inp_idx := 1 |} in
  let st2 := {| features := Some [-3; 5 # 2]%Q;
                shift_list := table [("input_1", 7); ("conv2d", 5);
                                     ("max_pooling2d", 5)];
                last_layer := Some layer; inp_idx := 1 |} in
  is_Some (shift_list st1 !! shift_name model (name prev))
  ∧ shift_list st2 !! shift_name model (name layer)
    = shift_list st1 !! shift_name model (name prev).
Proof.
  cbv zeta.
  apply (pass_through_inherits ex_kld
           (ex_predict [("conv2d", [-3; 5 # 2]%Q)]) _ (XArray [-1; 1]%Q)
           "max_min"
           {| features := Some [-1; 1]%Q;
              shift_list := table [("input_1", 7)];
              last_layer := Some (NLayer (ex_layer "input_1" ["input_1"]));
              inp_idx := 1 |});
    reflexivity.
Defined.

Lemma bn_format_given_to_previous_witness :
  let model :=
    ex_model [ ex_layer "input_1" ["input_1"];
               ex_layer "conv2d" ["input_1"];
               ex_layer "batch_normalization" ["conv2d/BiasAdd:0"] ] in
  let predict :=
    ex_predict [("conv2d", [-3; 5 # 2]%Q);
                ("batch_normalization", [-1; 1 # 2]%Q)] in
  let l := ex_layer "batch_normalization" ["conv2d/BiasAdd:0"] in
  let st' := {| features := Some [-1; 1 # 2]%Q;
                shift_list := table [("input_1", 7); ("conv2d", 7);
                                     ("batch_normalization", 7)];
                last_layer := Some (NLayer l); inp_idx := 1 |} in
  ∃ last mn mx kld d,
    Some (NLayer (ex_layer "conv2d" ["input_1"])) = Some last
    ∧ np_min (predict model l (XArray [-1; 1]%Q)) = inr mn
    ∧ np_max (predict model l (XArray [-1; 1]%Q)) = inr mx
    ∧ use_kld "max_min" (NLayer l) = inr kld
    ∧ (if kld
       then dec_bits_by_kld ex_kld (predict model l (XArray [-1; 1]%Q))
              (7 - get_int_bits mn mx)
       else mret (7 - get_int_bits mn mx)) = inr d
    ∧ shift_list st' !! name last = Some d
    ∧ shift_list st' !! shift_name model (name l) = Some d.
Proof.
  cbv zeta.
  apply (bn_format_given_to_previous ex_kld _ _ (XArray [-1; 1]%Q) "max_min"
           {| features := Some [-3; 5 # 2]%Q;
              shift_list := table [("input_1", 7); ("conv2d", 5)];
              last_layer := Some (NLayer (ex_layer "conv2d" ["input_1"]));
              inp_idx := 1 |});
    reflexivity.
Defined.

(** ** Formats of a merge layer and of its inputs *)

(** X12: a step of the sweep on a layer with a list of inputs that
    returns leaves all the inputs of the layer with one format, the
    smallest one they had before the step, and the layer itself with a
    format that is not greater, equal to it when the layer is not a shift
    layer: right after the step, the right shift
    [<INPUT>_OUTPUT_SHIFT - <LAYER>_OUTPUT_SHIFT] that [generate_model]
    defines for an addition or subtraction is not negative. *)
Theorem reconcile_step_aligns depth ld (sl sl' : gmap string Z) l inputs :
  layer_input l = Multiple inputs →
  reconcile_layer depth ld sl l = inr sl' →
  ∃ Qmin own b,
    determine_Qmin sl inputs = inr Qmin
    ∧ (∀ t, t ∈ inputs → ∃ v, sl !! get_iname t = Some v ∧ Qmin ≤ v)
    ∧ (∀ t, t ∈ inputs → sl' !! get_iname t = Some Qmin)
    ∧ sl' !! name l = Some own
    ∧ 0 ≤ Qmin - own
    ∧ is_shift_layer l = inr b
    ∧ (b = false → own = Qmin).
Proof.
  intros Hin Hstep.
  destruct (reconcile_layer_inr _ _ _ _ _ _ Hin Hstep)
    as (Q & ks & b & HQ & Hks & Hb & Hw & _ & Hown).
  destruct (determine_Qmin_spec _ _ _ HQ) as [Hle _].
  assert (Hins : ∀ t, t ∈ inputs → sl' !! get_iname t = Some Q).
  { intros t Ht. apply Hw. eapply visited_inputs; [exact Hks|].
    unfold input_list; rewrite Hin; exact Ht. }
  destruct b.
  - destruct Hown as (cur & _ & Hown).
    exists Q, (Z.min Q cur), true. repeat split; auto; lia.
  - exists Q, Q, false. repeat split; auto; lia.
Qed.

Lemma reconcile_step_aligns_witness :
  let sl := table [("input_1", 7); ("conv2d", 5); ("conv2d_1", 3);
                   ("add", 2)] in
  let sl' := table [("input_1", 7); ("conv2d", 3); ("conv2d_1", 3);
                    ("add", 2)] in
  let l := ex_layer "add" ["conv2d/BiasAdd:0"; "conv2d_1/BiasAdd:0"] in
  let inputs := [ {| tensor_name := "conv2d/BiasAdd:0" |};
                  {| tensor_name := "conv2d_1/BiasAdd:0" |} ] in
  ∃ Qmin own b,
    determine_Qmin sl inputs = inr Qmin
    ∧ (∀ t, t ∈ inputs → ∃ v, sl !! get_iname t = Some v ∧ Qmin ≤ v)
    ∧ (∀ t, t ∈ inputs → sl' !! get_iname t = Some Qmin)
    ∧ sl' !! name l = Some own
    ∧ 0 ≤ Qmin - own
    ∧ is_shift_layer l = inr b
    ∧ (b = false → own = Qmin).
Proof.
  cbv zeta.
  apply (reconcile_step_aligns 1000 (make_layer_dict two_branch));
    reflexivity.
Defined.

Lemma foldM_reconcile_aligned depth ld L :
  ∀ fps (sl sl' : gmap string Z),
    mapM (footprint depth ld) L = inr fps →
    pairwise_disjoint fps = true →
    foldM (reconcile_layer depth ld) sl L = inr sl' →
    ∀ l inputs, l ∈ L → layer_input l = Multiple inputs →
      ∃ Qmin own,
        (∀ t, t ∈ inputs → sl' !! get_iname t = Some Qmin)
        ∧ sl' !! name l = Some own
        ∧ 0 ≤ Qmin - own.
Proof.
  induction L as [|l0 L IH]; intros fps sl sl' Hfps Hdisj Hfold l inputs Hl Hin;
    [inversion Hl|].
  cbn [mapM foldM] in Hfps, Hfold.
  apply bind_ok in Hfps as (fp & Hfp & Hfps).
  apply bind_ok in Hfps as (rest & Hrest & Hfps).
  apply mret_ok in Hfps; subst fps.
  apply bind_ok in Hfold as (sl1 & Hstep & Hfold).
  apply elem_of_cons in Hl as [->|Hl].
  - destruct (reconcile_layer_inr _ _ _ _ _ _ Hin Hstep)
      as (Q & ks & b & HQ & Hks & Hb & Hw & _ & Hown).
    unfold footprint in Hfp; rewrite Hin, Hks in Hfp; cbn in Hfp.
    injection Hfp as <-.
    assert (Hkeep : ∀ k, k ∈ name l0 :: ks → sl' !! k = sl1 !! k).
    { intros k Hk. eapply footprint_frame; eauto.
      eapply pairwise_disjoint_cons; eauto. }
    assert (Hins : ∀ t, t ∈ inputs → sl' !! get_iname t = Some Q).
    { intros t Ht.
      assert (Hk : get_iname t ∈ ks).
      { eapply visited_inputs; [exact Hks|].
        unfold input_list; rewrite Hin; exact Ht. }
      rewrite Hkeep by (right; exact Hk). apply Hw, Hk. }
    rewrite <- (Hkeep (name l0)) in Hown by left.
    destruct b.
    + destruct Hown as (cur & _ & Hown).
      exists Q, (Z.min Q cur). repeat split; auto; lia.
    + exists Q, Q. repeat split; auto; lia.
  - cbn [pairwise_disjoint] in Hdisj.
    apply andb_true_iff in Hdisj as [_ Hdisj].
    eapply IH; eauto.
Qed.

(** X13: on a well-formed graph in which the layers with several inputs
    write pairwise disjoint sets of entries, the sweep returns a table in
    which every layer with a list of inputs has all its inputs in one
    format, and its own format not greater than theirs; this is what
    [generate_model] relies on when it reads the format of the first
    input only. *)
Theorem sweep_aligns_inputs depth ls (sl : gmap string Z) :
  disjoint_footprints depth ls = true →
  well_formed ls sl = true →
  (length ls ≤ depth)%nat →
  ∃ sl',
    backward_sweep depth ls sl = inr sl'
    ∧ ∀ l inputs, l ∈ tail ls → layer_input l = Multiple inputs →
        ∃ Qmin own,
          (∀ t, t ∈ inputs → sl' !! get_iname t = Some Qmin)
          ∧ sl' !! name l = Some own
          ∧ 0 ≤ Qmin - own.
Proof.
  intros Hdisj Hwf Hdepth.
  destruct (backward_sweep_total depth ls sl Hwf Hdepth) as [sl' Hsweep].
  exists sl'. split; [exact Hsweep|].
  intros l inputs Hl Hin.
  unfold disjoint_footprints in Hdisj.
  destruct (mapM _ (rev (tail ls))) as [|fps] eqn:Hfps; [discriminate|].
  eapply foldM_reconcile_aligned; eauto.
  apply elem_of_rev, Hl.
Qed.

Lemma sweep_aligns_inputs_witness :
  let sl := table [("input_1", 7); ("conv2d", 5); ("conv2d_1", 3);
                   ("add", 2)] in
  ∃ sl',
    backward_sweep 1000 two_branch sl = inr sl'
    ∧ ∀ l inputs, l ∈ tail two_branch → layer_input l = Multiple inputs →
        ∃ Qmin own,
          (∀ t, t ∈ inputs → sl' !! get_iname t = Some Qmin)
          ∧ sl' !! name l = Some own
          ∧ 0 ≤ Qmin - own.
Proof.
  cbv zeta. apply sweep_aligns_inputs; [reflexivity | reflexivity |].
  simpl; lia.
Defined.

(** ** Models without merge layers *)

Lemma foldM_reconcile_single depth ld (sl : gmap string Z) L :
  forallb (fun l : Layer =>
             match layer_input l with
             | Single _ => true
             | Multiple _ => false
             end) L = true →
  foldM (reconcile_layer depth ld) sl L = inr sl.
Proof.
  induction L as [|l L IH]; [reflexivity|].
  cbn [forallb foldM]. intros H. apply andb_true_iff in H as [Hl HL].
  destruct (layer_input l) as [t|] eqn:Hin; [|discriminate].
  rewrite (reconcile_layer_single _ _ _ _ _ Hin). cbn. apply IH, HL.
Qed.

Section Sequential.

Variable kld_divergence : list Q → Z → nat → result Q.
Variable predict : Model → Layer → xtest → list Q.
Variable clamp_input : nat → list Q → list Q.
Variable recursion_limit : nat.

(** X14: for a model in which every layer after the first has a single
    input, [layers_output_ranges] is [make_initial_shift_list] on the
    clamped samples: the sweep changes no format, and raises nothing of
    its own. *)
Theorem sequential_ranges_are_calibration (model : Model) (x_test : xtest)
    (quantize_method : string) (max_calibrate_size : nat) :
  forallb (fun l : Layer =>
             match layer_input l with
             | Single _ => true
             | Multiple _ => false
             end) (tail (layers model)) = true →
  layers_output_ranges kld_divergence predict clamp_input recursion_limit
    model x_test quantize_method max_calibrate_size
  = make_initial_shift_list kld_divergence predict model
      (clamp_x_test clamp_input max_calibrate_size x_test) quantize_method.
Proof.
  intros Hsingle. unfold layers_output_ranges.
  destruct (make_initial_shift_list _ _ _ _ _) as [e|sl]; [reflexivity|].
  cbn. unfold backward_sweep. apply foldM_reconcile_single.
  rewrite forallb_forall in *. intros l Hl. apply Hsingle.
  apply in_rev; exact Hl.
Qed.

End Sequential.

Lemma sequential_ranges_are_calibration_witness :
  layers_output_ranges ex_kld (ex_predict [("conv2d", [-3; 5 # 2]%Q)])
    ex_clamp 1000 (ex_model (one_layer_net "conv2d")) (XArray [-1; 1]%Q)
    "max_min" 1000
  = make_initial_shift_list ex_kld (ex_predict [("conv2d", [-3; 5 # 2]%Q)])
      (ex_model (one_layer_net "conv2d"))
      (clamp_x_test ex_clamp 1000 (XArray [-1; 1]%Q)) "max_min".
Proof.
  apply sequential_ranges_are_calibration. reflexivity.
Defined.

(** ** Widths and values recorded by [generate_weights] *)

(** X15: whenever [quantize_var] returns for a kernel or a bias, the
    width it records is not greater than [7 - get_int_bits min max] for
    the recorded minimum and maximum of the tensor, and is equal to it
    for a kernel, whatever the table and the variables quantised before;
    every integer it stores lies between -128 and 128. *)
Theorem quantized_within_128 (shift_list : option (gmap string Z))
    (layer : Layer) (st : Z * gmap nat (list Z) * gmap string qinfo)
    (var : Var) (w : Z) (lw : gmap nat (list Z)) (lq : gmap string qinfo) :
  contains "kernel" (var_name var) || contains "bias" (var_name var) = true →
  quantize_var shift_list layer st var = inr (w, lw, lq) →
  ∃ info values,
    lq !! var_name var = Some info
    ∧ np_min (var_values var) = inr (q_min info)
    ∧ np_max (var_values var) = inr (q_max info)
    ∧ data_width info ≤ 7 - get_int_bits (q_min info) (q_max info)
    ∧ (contains "kernel" (var_name var) = true →
       data_width info = 7 - get_int_bits (q_min info) (q_max info))
    ∧ lw !! (if contains "kernel" (var_name var) then 0 else 1)%nat
      = Some values
    ∧ Forall (fun q => -128 ≤ q ≤ 128) values.
Proof.
  intros Hvar E. unfold quantize_var in E.
  destruct st as [[wds lw0] lq0].
  destruct (negb (contains "kernel" (var_name var))
            && negb (contains "bias" (var_name var))) eqn:Hskip.
  { apply andb_true_iff in Hskip as [H1 H2].
    apply negb_true_iff in H1, H2. rewrite H1, H2 in Hvar; discriminate. }
  apply bind_ok in E as (mn & Hmn & E).
  apply bind_ok in E as (mx & Hmx & E).
  apply bind_ok in E as (sl & Hsl & E).
  apply bind_ok in E as ([wds' same] & Hbranch & E).
  destruct (if bool_decide (shift_list = None) || same then _ else _)
    as [w' d'] eqn:Hpair.
  apply mret_ok in E. injection E as <- <- <-.
  assert (Hd : d' ≤ 7 - get_int_bits mn mx
               ∧ (contains "kernel" (var_name var) = true →
                  d' = 7 - get_int_bits mn mx)).
  { revert Hpair.
    destruct (bool_decide (shift_list = None) || same);
      [destruct (contains "kernel" (var_name var));
         [|destruct (Z.gtb_spec (7 - get_int_bits mn mx) wds')]|];
      intros Hpair; injection Hpair as <- <-;
      (split; [lia | intros; first [reflexivity | discriminate]]). }
  destruct Hd as [Hd Hdk].
  exists {| q_min := mn; q_max := mx; data_width := d' |},
         (quantize_values (var_values var) d').
  cbn [q_min q_max data_width].
  split; [apply lookup_insert_eq|]. do 4 (split; [assumption|]).
  split; [apply lookup_insert_eq|].
  pose proof (quantize_values_bounds _ _ _ _ Hmn Hmx Hd) as Hb.
  eapply Forall2_Forall_r; [exact Hb|].
  apply Forall_forall. intros v _ q (_ & _ & Hq). exact Hq.
Qed.

Lemma quantized_within_128_witness :
  let var := {| var_name := "conv2d/kernel:0";
                var_values := [1; -1 # 2]%Q |} in
  let lw : gmap nat (list Z) := {[ 0%nat := [128; -64] ]} in
  let lq : gmap string qinfo :=
    {[ "conv2d/kernel:0" :=
         {| q_min := (-1 # 2)%Q; q_max := 1%Q; data_width := 7 |} ]} in
  ∃ info values,
    lq !! var_name var = Some info
    ∧ np_min (var_values var) = inr (q_min info)
    ∧ np_max (var_values var) = inr (q_max info)
    ∧ data_width info ≤ 7 - get_int_bits (q_min info) (q_max info)
    ∧ (contains "kernel" (var_name var) = true →
       data_width info = 7 - get_int_bits (q_min info) (q_max info))
    ∧ lw !! (if contains "kernel" (var_name var) then 0 else 1)%nat
      = Some values
    ∧ Forall (fun q => -128 ≤ q ≤ 128) values.
Proof.
  cbv zeta.
  apply (quantized_within_128
           (Some (table [("input_1", 7); ("conv2d", 7)]))
           (ex_conv [1; -1 # 2]%Q [1 # 4]%Q) (0, ∅, ∅)
           {| var_name := "conv2d/kernel:0"; var_values := [1; -1 # 2]%Q |}
           7);
    reflexivity.
Defined.


(** X16: for a shift layer with a kernel followed by a bias, quantised
    with a calibrated table in which the format [ie] of the input of the
    layer is not negative, the left shift of the bias that
    [generate_model] defines, [ie + kernel width - bias width] for the
    recorded widths, is not negative; the bias is recorded with its own
    width [wb] or, if that would make the shift negative, with the width
    of the kernel. *)
Theorem bias_left_shift_nonneg (sl : gmap string Z) (layer : Layer)
    (t : KTensor) (kernel bias : Var) (ie : Z) (kmin kmax bmin bmax : Q) :
  is_shift_layer layer = inr true →
  layer_input layer = Single t →
  sl !! get_iname_colon t = Some ie →
  0 ≤ ie →
  contains "kernel" (var_name kernel) = true →
  contains "kernel" (var_name bias) = false →
  contains "bias" (var_name bias) = true →
  np_min (var_values kernel) = inr kmin →
  np_max (var_values kernel) = inr kmax →
  np_min (var_values bias) = inr bmin →
  np_max (var_values bias) = inr bmax →
  let wk := 7 - get_int_bits kmin kmax in
  let wb := 7 - get_int_bits bmin bmax in
  ∃ w lw lq kinfo binfo,
    foldM (quantize_var (Some sl) layer) (0, ∅, ∅) [kernel; bias]
      = inr (w, lw, lq)
    ∧ lq !! var_name kernel = Some kinfo
    ∧ lq !! var_name bias = Some binfo
    ∧ data_width kinfo = wk
    ∧ (data_width binfo = wb ∨ data_width binfo = wk)
    ∧ data_width binfo ≤ wb
    ∧ 0 ≤ ie + data_width kinfo - data_width binfo.
Proof.
  intros Hshift Hin Hie Hpos Hk Hbk Hbb Hkmin Hkmax Hbmin Hbmax wk wb.
  assert (Hsl : sl ≠ ∅)
    by (intros ->; rewrite lookup_empty in Hie; discriminate).
  assert (Hne : var_name kernel ≠ var_name bias) by congruence.
  unfold foldM, quantize_var.
  rewrite Hk, Hbk, Hbb, Hkmin, Hkmax, Hbmin, Hbmax, Hshift, Hin; simpl.
  destruct (decide (sl = ∅)) as [?|_]; [contradiction|]; simpl.
  rewrite (get_item_lookup _ _ _ Hie); simpl.
  fold wk wb.
  destruct (Z.ltb_spec (ie + wk - wb) 0) as [Hneg|Hnn]; simpl.
  - destruct (Z.gtb_spec wb wk) as [Hgt|Hle]; [|lia]; simpl.
    do 5 eexists. split; [reflexivity|].
    rewrite lookup_insert_ne, !lookup_insert_eq by congruence.
    split; [reflexivity|]. split; [reflexivity|]. simpl.
    split; [reflexivity|]. split; [right; reflexivity|]. lia.
  - do 5 eexists. split; [reflexivity|].
    rewrite lookup_insert_ne, !lookup_insert_eq by congruence.
    split; [reflexivity|]. split; [reflexivity|]. simpl.
    split; [reflexivity|]. split; [left; reflexivity|]. lia.
Qed.

Lemma bias_left_shift_nonneg_witness :
  let sl := table [("input_1", 0); ("conv2d", 1)] in
  let layer := ex_conv [3 # 4; -1 # 2]%Q [1 # 8]%Q in
  let kernel := {| var_name := "conv2d/kernel:0";
                   var_values := [3 # 4; -1 # 2]%Q |} in
  let bias := {| var_name := "conv2d/bias:0"; var_values := [1 # 8]%Q |} in
  ∃ w lw lq kinfo binfo,
    foldM (quantize_var (Some sl) layer) (0, ∅, ∅) [kernel; bias]
      = inr (w, lw, lq)
    ∧ lq !! var_name kernel = Some kinfo
    ∧ lq !! var_name bias = Some binfo
    ∧ data_width kinfo = 7
    ∧ (data_width binfo = 10 ∨ data_width binfo = 7)
    ∧ data_width binfo ≤ 10
    ∧ 0 ≤ 0 + data_width kinfo - data_width binfo.
Proof.
  cbv zeta.
  apply (bias_left_shift_nonneg
           (table [("input_1", 0); ("conv2d", 1)])
           (ex_conv [3 # 4; -1 # 2]%Q [1 # 8]%Q)
           {| tensor_name := "input_1" |}
           {| var_name := "conv2d/kernel:0"; var_values := [3 # 4; -1 # 2]%Q |}
           {| var_name := "conv2d/bias:0"; var_values := [1 # 8]%Q |}
           0 (-1 # 2)%Q (3 # 4)%Q (1 # 8)%Q (1 # 8)%Q);
    first [reflexivity | lia].
Defined.

(** ** [generate_weights] without calibration data *)

Lemma quantize_var_needs_table (layer : Layer) (var : Var)
    (st : Z * gmap nat (list Z) * gmap string qinfo) :
  is_shift_layer layer = inr true →
  contains "kernel" (var_name var) || contains "bias" (var_name var) = true →
  raises (quantize_var None layer st var).
Proof.
  intros Hsl Hvar. unfold quantize_var. destruct st as [[wds lw] lq].
  destruct (negb (contains "kernel" (var_name var))
            && negb (contains "bias" (var_name var))) eqn:Hskip.
  { apply andb_true_iff in Hskip as [H1 H2].
    apply negb_true_iff in H1, H2. rewrite H1, H2 in Hvar; discriminate. }
  destruct (np_min (var_values var)) as [|mn]; [exact I|].
  destruct (np_max (var_values var)) as [|mx]; [exact I|].
  cbn [mbind result_bind]. rewrite Hsl. exact I.
Qed.

Section Uncalibrated.

Variable kld_divergence : list Q → Z → nat → result Q.
Variable predict : Model → Layer → xtest → list Q.
Variable clamp_input : nat → list Q → list Q.
Variable recursion_limit : nat.
Variable bn_fused_weights : Layer → result (list Var).

(** X17: called without calibration data ([x_test] is [None], the
    default), [generate_weights] raises for every model that has a shift
    layer (a convolution or a dense layer, say) holding a kernel or a
    bias and not followed by a batch normalisation: the table such a
    layer requires is missing. *)
Theorem weights_need_calibration (model : Model) (quantize_method : string)
    (max_calibrate_size : nat) (layer : Layer) (var : Var) :
  layer ∈ layers model →
  var ∈ layer_weights layer →
  contains "kernel" (var_name var) || contains "bias" (var_name var) = true →
  is_shift_layer layer = inr true →
  contains "batch_normalization" (default "" (head (outbound_nodes layer)))
    = false →
  raises (generate_weights kld_divergence predict clamp_input
            recursion_limit bn_fused_weights model None quantize_method
            max_calibrate_size).
Proof.
  intros Hl Hv Hvar Hsl Hbn. unfold generate_weights. cbn.
  apply foldM_raises with layer; [exact Hl|].
  intros acc. unfold quantize_layer.
  destruct (layer_weights layer) as [|v0 vs] eqn:Hw; [inversion Hv|].
  destruct (check_bn layer); [exact I|]. cbn.
  rewrite Hbn, andb_false_r. cbn. rewrite Hw.
  pose proof (foldM_raises (quantize_var None layer) (v0 :: vs) var Hv
                (fun st => quantize_var_needs_table layer var st Hsl Hvar)
                (0, ∅, ∅)) as Hr.
  destruct (foldM _ _ _); [exact I | contradiction].
Qed.

End Uncalibrated.

Lemma weights_need_calibration_witness :
  raises (generate_weights ex_kld (ex_predict []) ex_clamp 1000 ex_fused
            (ex_model [ ex_layer "input_1" ["input_1"];
                        ex_conv [3 # 4; -1 # 2]%Q [1 # 8]%Q ])
            None "max_min" 1000).
Proof.
  apply (weights_need_calibration ex_kld (ex_predict []) ex_clamp 1000
           ex_fused _ "max_min" 1000
           (ex_conv [3 # 4; -1 # 2]%Q [1 # 8]%Q)
           {| var_name := "conv2d/kernel:0";
              var_values := [3 # 4; -1 # 2]%Q |}).
  - right; left.
  - left.
  - reflexivity.
  - reflexivity.
  - reflexivity.
Defined.

(** ** The tables returned by [generate_weights] *)

Section Tables.

Variable kld_divergence : list Q → Z → nat → result Q.
Variable predict : Model → Layer → xtest → list Q.
Variable clamp_input : nat → list Q → list Q.
Variable recursion_limit : nat.
Variable bn_fused_weights : Layer → result (list Var).

Lemma fuse_bn_to_conv_name (layer layer' : Layer) :
  fuse_bn_to_conv bn_fused_weights layer = inr layer' →
  name layer' = name layer.
Proof.
  unfold fuse_bn_to_conv.
  destruct (contains "conv" (name layer)); [|intros [= <-]; reflexivity].
  intros E. apply bind_ok in E as (out0 & _ & E).
  destruct (contains "batch_normalization" out0);
    [|injection E as <-; reflexivity].
  apply bind_ok in E as (ws & _ & E). injection E as <-. reflexivity.
Qed.

Lemma quantize_layer_inv (shift_list : option (gmap string Z))
    (out out' : weights_out) (layer : Layer) :
  quantize_layer bn_fused_weights shift_list out layer = inr out' →
  out_shift_list out' = out_shift_list out
  ∧ (layer_weights layer = [] → out' = out)
  ∧ (layer_weights layer ≠ [] →
     ∃ lw lq,
       out_weights out' = <[name layer := lw]> (out_weights out)
       ∧ out_quantize_info out'
         = <[name layer := lq]> (out_quantize_info out)).
Proof.
  unfold quantize_layer. intros E.
  destruct (layer_weights layer) as [|v vs] eqn:Hw.
  { apply mret_ok in E; subst out'. repeat split; congruence. }
  apply bind_ok in E as (u & _ & E).
  apply bind_ok in E as (layer' & Hfuse & E).
  apply bind_ok in E as ([[w lw] lq] & _ & E).
  apply mret_ok in E; subst out'. cbn [out_shift_list out_weights
                                        out_quantize_info].
  assert (Hname : name layer' = name layer).
  { destruct (_ && _ && _) in Hfuse.
    - apply fuse_bn_to_conv_name, Hfuse.
    - apply mret_ok in Hfuse; subst; reflexivity. }
  rewrite Hname. split; [reflexivity|]. split; [discriminate|].
  intros _. exists lw, lq. split; reflexivity.
Qed.

Lemma foldM_quantize_layer_inv (shift_list : option (gmap string Z))
    (ls : list Layer) :
  ∀ out out',
    foldM (quantize_layer bn_fused_weights shift_list) out ls = inr out' →
    out_shift_list out' = out_shift_list out
    ∧ (∀ k, is_Some (out_weights out' !! k) ↔
            is_Some (out_weights out !! k)
            ∨ ∃ l, l ∈ ls ∧ layer_weights l ≠ [] ∧ name l = k)
    ∧ (∀ k, is_Some (out_quantize_info out' !! k) ↔
            is_Some (out_quantize_info out !! k)
            ∨ ∃ l, l ∈ ls ∧ layer_weights l ≠ [] ∧ name l = k).
Proof.
  assert (Hins : ∀ {V} (m : gmap string V) a v b,
             is_Some (<[a := v]> m !! b) ↔ a = b ∨ is_Some (m !! b)).
  { intros V m a v b. destruct (decide (a = b)) as [->|Hne].
    - rewrite lookup_insert_eq. split; eauto.
    - rewrite lookup_insert_ne by exact Hne. split; [auto|].
      intros [?|?]; [contradiction | assumption]. }
  induction ls as [|l ls IH]; intros out out' E.
  - apply mret_ok in E; subst out'. split; [reflexivity|].
    split; intros k; (split; [auto|]);
      (intros [H|(l & Hl & _)]; [exact H | inversion Hl]).
  - cbn [foldM] in E. apply bind_ok in E as (out1 & Hstep & E).
    destruct (IH _ _ E) as (Hsl & Hw & Hq).
    destruct (quantize_layer_inv _ _ _ _ Hstep) as (Hsl1 & Hnil & Hcons).
    split; [congruence|].
    destruct (layer_weights l) as [|v vs] eqn:Hwl.
    + rewrite (Hnil eq_refl) in *.
      split; intros k; [rewrite Hw | rewrite Hq];
        (split; (intros [H|(l' & Hl' & Hne & Hk)]; [left; exact H|right]));
        try (exists l'; split; [right; exact Hl' | auto]);
        (apply elem_of_cons in Hl' as [->|Hl'];
           [congruence | exists l'; auto]).
    + destruct (Hcons ltac:(discriminate)) as (lw & lq & Hw1 & Hq1).
      split; intros k; [rewrite Hw, Hw1 | rewrite Hq, Hq1];
        rewrite Hins; split.
      all: try (intros [[Hk|H]|(l' & Hl' & Hne & Hk)];
                [right; exists l; split; [left|split; [congruence|exact Hk]]
                |left; exact H
                |right; exists l'; split; [right; exact Hl'|auto]]).
      all: intros [H|(l' & Hl' & Hne & Hk)]; [left; right; exact H|].
      all: apply elem_of_cons in Hl' as [->|Hl'];
             [left; left; exact Hk | right; exists l'; auto].
Qed.

(** X18: when [generate_weights] returns, the table of formats it returns
    is the one [layers_output_ranges] returned (or [None] without
    calibration data): the quantisation of the weights changes no format
    of an activation.  The quantised weights and their ranges and widths
    are recorded under the names of exactly the layers of the model that
    have weights. *)
Theorem generate_weights_tables (model : Model) (x_test : option xtest)
    (quantize_method : string) (max_calibrate_size : nat)
    (out : weights_out) :
  generate_weights kld_divergence predict clamp_input recursion_limit
    bn_fused_weights model x_test quantize_method max_calibrate_size
    = inr out →
  match x_test with
  | None => out_shift_list out = None
  | Some x =>
      ∃ sl, layers_output_ranges kld_divergence predict clamp_input
              recursion_limit model x quantize_method max_calibrate_size
            = inr sl
            ∧ out_shift_list out = Some sl
  end
  ∧ (∀ k, is_Some (out_weights out !! k) ↔
          ∃ l, l ∈ layers model ∧ layer_weights l ≠ [] ∧ name l = k)
  ∧ (∀ k, is_Some (out_quantize_info out !! k) ↔
          ∃ l, l ∈ layers model ∧ layer_weights l ≠ [] ∧ name l = k).
Proof.
  unfold generate_weights. intros E.
  apply bind_ok in E as (shift_list & Hsl & E).
  apply foldM_quantize_layer_inv in E as (Hout & Hw & Hq).
  cbn [out_shift_list out_weights out_quantize_info] in *.
  split; [|split].
  - destruct x_test as [x|].
    + apply bind_ok in Hsl as (sl & Hsl & Hret).
      apply mret_ok in Hret; subst. exists sl; split; assumption.
    + apply mret_ok in Hsl; subst; exact Hout.
  - intros k. rewrite Hw, lookup_empty. split.
    + intros [[? [=]]|H]; exact H.
    + intros H; right; exact H.
  - intros k. rewrite Hq, lookup_empty. split.
    + intros [[? [=]]|H]; exact H.
    + intros H; right; exact H.
Qed.

End Tables.

Lemma generate_weights_tables_witness :
  ∃ out,
    ex_generate [ex_conv [3 # 4; -1 # 2]%Q [1 # 8]%Q]
      [("conv2d", [-3; 5 # 2]%Q)] [-1; 1]%Q = inr out
    ∧ (∃ sl, ex_ranges [ ex_layer "input_1" ["input_1"];
                         ex_conv [3 # 4; -1 # 2]%Q [1 # 8]%Q ]
               [("conv2d", [-3; 5 # 2]%Q)] = inr sl
             ∧ out_shift_list out = Some sl)
    ∧ (∀ k, is_Some (out_weights out !! k) ↔
            ∃ l, l ∈ [ ex_layer "input_1" ["input_1"];
                       ex_conv [3 # 4; -1 # 2]%Q [1 # 8]%Q ]
                 ∧ layer_weights l ≠ [] ∧ name l = k)
    ∧ (∀ k, is_Some (out_quantize_info out !! k) ↔
            ∃ l, l ∈ [ ex_layer "input_1" ["input_1"];
                       ex_conv [3 # 4; -1 # 2]%Q [1 # 8]%Q ]
                 ∧ layer_weights l ≠ [] ∧ name l = k).
Proof.
  eexists. split; [reflexivity|].
  apply (generate_weights_tables ex_kld
           (ex_predict [("conv2d", [-3; 5 # 2]%Q)]) ex_clamp 1000 ex_fused
           (ex_model [ ex_layer "input_1" ["input_1"];
                       ex_conv [3 # 4; -1 # 2]%Q [1 # 8]%Q ])
           (Some (XArray [-1; 1]%Q)) "max_min" 1000).
  reflexivity.
Defined.

(** ** The tables of [generate_model] *)

Lemma split_head_plain (c : ascii) (s : string) :
  contains (String c "") s = false → split_head c s = s.
Proof.
  induction s as [|a s IH]; [reflexivity|].
  cbn [contains split_head String.prefix].
  destruct (ascii_dec c a) as [->|Hne].
  - destruct s; discriminate.
  - rewrite (proj2 (Ascii.eqb_neq a c)) by congruence.
    cbn [orb]. intros H. rewrite (IH H). reflexivity.
Qed.

Lemma replace_char_plain (a b : ascii) (s : string) :
  contains (String a "") s = false → replace_char a b s = s.
Proof.
  induction s as [|c s IH]; [reflexivity|].
  cbn [contains replace_char String.prefix].
  destruct (ascii_dec a c) as [->|Hne].
  - destruct s; discriminate.
  - rewrite (proj2 (Ascii.eqb_neq c a)) by congruence.
    cbn [orb]. intros H. rewrite (IH H). reflexivity.
Qed.

Lemma plain_name_keys (model : Model) (n : node) :
  plain_name (name n) = true →
  get_iname_colon n = name n ∧ shift_name model (name n) = name n.
Proof.
  unfold plain_name, get_iname_colon, shift_name. intros H.
  apply andb_true_iff in H as [H1 H2]. apply negb_true_iff in H1, H2.
  rewrite (replace_char_plain _ _ _ H2), (split_head_plain _ _ H1),
    (split_head_plain _ _ H2).
  split; [reflexivity|].
  destruct (head (layers model)); [|reflexivity].
  destruct (_ && _); reflexivity.
Qed.

Lemma foldM_reconcile_keeps_keys depth ld L :
  ∀ (sl sl' : gmap string Z) k,
    foldM (reconcile_layer depth ld) sl L = inr sl' →
    is_Some (sl !! k) → is_Some (sl' !! k).
Proof.
  induction L as [|l L IH]; intros sl sl' k E Hk.
  - apply mret_ok in E; subst; exact Hk.
  - cbn [foldM] in E. apply bind_ok in E as (sl1 & Hstep & E).
    eapply IH; [exact E|]. eapply reconcile_layer_keeps_keys; eauto.
Qed.

Lemma mapM_Forall2 {A B} (g : A → result B) (P : A → B → Prop) xs :
  (∀ x, x ∈ xs → ∃ y, g x = inr y ∧ P x y) →
  ∃ ys, mapM g xs = inr ys ∧ Forall2 P xs ys.
Proof.
  induction xs as [|x xs IH]; intros H.
  - exists []. split; [reflexivity | constructor].
  - destruct (H x ltac:(left)) as (y & Hy & HP).
    destruct IH as (ys & Hys & Hf); [intros; apply H; right; assumption|].
    exists (y :: ys). split; [|constructor; assumption].
    cbn [mapM]. rewrite Hy. cbn [mbind result_bind]. rewrite Hys. reflexivity.
Qed.

Section Defines.

Variable kld_divergence : list Q → Z → nat → result Q.
Variable predict : Model → Layer → xtest → list Q.
Variable clamp_input : nat → list Q → list Q.
Variable recursion_limit : nat.

(** X19: with the table [layers_output_ranges] returned, the loop of
    [generate_model] that writes the [_OUTPUT_SHIFT] definitions raises
    no [KeyError]: for a model whose layers (and input tensor, when it is
    walked) have names without [/] and [:], it finds an entry for every
    one of them and writes the format of the table under its name. *)
Theorem output_shifts_defined (model : Model) (x_test : xtest)
    (quantize_method : string) (max_calibrate_size : nat)
    (sl : gmap string Z) (model_layers : list node) :
  layers_output_ranges kld_divergence predict clamp_input recursion_limit
    model x_test quantize_method max_calibrate_size = inr sl →
  calib_layers model = inr model_layers →
  forallb (fun n : node => plain_name (name n)) model_layers = true →
  ∃ defines,
    output_shift_defines (Some sl) model_layers = inr defines
    ∧ Forall2 (fun (n : node) (d : string * Z) =>
                 d.1 = name n ∧ sl !! name n = Some d.2)
              model_layers defines.
Proof.
  unfold layers_output_ranges, make_initial_shift_list, backward_sweep.
  intros E Hml Hplain.
  apply bind_ok in E as (sl0 & Hcal & Hsweep).
  rewrite Hml in Hcal. cbn [mbind result_bind] in Hcal.
  apply bind_ok in Hcal as (st & Hfold & Hret).
  apply mret_ok in Hret; subst sl0.
  apply foldM_calib_keeps in Hfold as [_ Hnew].
  assert (Hall : ∀ n, n ∈ model_layers →
            get_iname_colon n = name n ∧ is_Some (sl !! name n)).
  { intros n Hn.
    rewrite forallb_forall in Hplain.
    specialize (Hplain n (proj1 (list_elem_of_In _ _) Hn)).
    destruct (plain_name_keys model n Hplain) as [Hk1 Hk2].
    split; [exact Hk1|].
    eapply foldM_reconcile_keeps_keys; [exact Hsweep|].
    rewrite <- Hk2. apply Hnew, Hn. }
  apply mapM_Forall2. intros n Hn.
  destruct (Hall n Hn) as [Hk [v Hv]].
  exists (name n, v). rewrite Hk. cbn [mbind result_bind mret result_ret].
  rewrite (get_item_lookup _ _ _ Hv). cbn [mbind result_bind].
  split; [reflexivity|]. split; [reflexivity | exact Hv].
Qed.

End Defines.

Lemma output_shifts_defined_witness :
  ∃ defines,
    output_shift_defines
      (Some (table [("input_1", 7); ("conv2d", 3); ("conv2d_1", 3);
                    ("add", 2)]))
      (NLayer <$> two_branch) = inr defines
    ∧ Forall2 (fun (n : node) (d : string * Z) =>
                 d.1 = name n
                 ∧ table [("input_1", 7); ("conv2d", 3); ("conv2d_1", 3);
                          ("add", 2)] !! name n = Some d.2)
              (NLayer <$> two_branch) defines.
Proof.
  apply (output_shifts_defined ex_kld (ex_predict two_branch_acts) ex_clamp
           1000 (ex_model two_branch) (XArray [-1; 1]%Q) "max_min" 1000);
    reflexivity.
Defined.

(** ** The numbering of the layers *)

Lemma layer_id_step_inv (model : Model) (fmt : string) (ID ID' : nat)
    (LI LI' : gmap string nat) (layer : node) :
  layer_id_step model fmt (ID, LI) layer = inr (ID', LI') →
  if is_skipable_layer fmt layer
  then ID' = ID
       ∧ ∃ inp i, input_iname layer = inr inp ∧ LI !! inp = Some i
                  ∧ LI' = <[name layer := i]> LI
  else ID' = S ID ∧ LI' = <[shift_name model (name layer) := ID]> LI.
Proof.
  unfold layer_id_step. intros E.
  apply bind_ok in E as ([ID1 LI1] & Hst & E).
  assert (E' : ID1 = ID' ∧ LI1 = LI').
  { destruct layer; [|destruct (is_input_layer _); [|discriminate]];
      apply mret_ok in E; injection E as <- <-; split; reflexivity. }
  destruct E' as [<- <-]. clear E.
  destruct (is_skipable_layer fmt layer).
  - apply bind_ok in Hst as (inp & Hinp & Hst).
    apply bind_ok in Hst as (i & Hi & Hst).
    apply mret_ok in Hst. injection Hst as <- <-.
    split; [reflexivity|]. exists inp, i.
    split; [exact Hinp|]. split; [apply get_item_ok, Hi | reflexivity].
  - apply bind_ok in Hst as (renamed & Hren & Hst).
    apply mret_ok in Hst. injection Hst as <- <-.
    split; [reflexivity|]. f_equal.
    unfold shift_name. rewrite head_lookup.
    destruct (input_is_tf_tensor model).
    + apply bind_ok in Hren as (first & Hfirst & Hren).
      apply mret_ok in Hren; subst renamed.
      unfold list_item in Hfirst.
      destruct (layers model !! 0%nat); [|discriminate].
      apply mret_ok in Hfirst; subst. reflexivity.
    + apply mret_ok in Hren; subst renamed.
      destruct (layers model !! 0%nat); reflexivity.
Qed.

Lemma foldM_layer_id_step (model : Model) (fmt : string) (nodes : list node) :
  ∀ ID LI ID' LI',
    foldM (layer_id_step model fmt) (ID, LI) nodes = inr (ID', LI') →
    (∀ k i, LI !! k = Some i → (i < ID)%nat) →
    ID' = (ID + length (List.filter
                          (fun n => negb (is_skipable_layer fmt n)) nodes))%nat
    ∧ (∀ k i, LI' !! k = Some i → (i < ID')%nat)
    ∧ (∀ k, is_Some (LI !! k) → is_Some (LI' !! k))
    ∧ (∀ n, n ∈ nodes →
         is_Some (LI' !! (if is_skipable_layer fmt n then name n
                          else shift_name model (name n)))).
Proof.
  assert (Hins : ∀ (m : gmap string nat) a v b,
             (a = b ∨ is_Some (m !! b)) → is_Some (<[a := v]> m !! b)).
  { intros m a v b [->|H]; [rewrite lookup_insert_eq; eauto|].
    destruct (decide (a = b)) as [->|Hne];
      [rewrite lookup_insert_eq; eauto
      | rewrite lookup_insert_ne by exact Hne; exact H]. }
  induction nodes as [|x nodes IH]; intros ID LI ID' LI' E Hinv.
  - apply mret_ok in E. injection E as <- <-.
    cbn. split; [lia|]. split; [exact Hinv|]. split; [auto|].
    intros n Hn; inversion Hn.
  - cbn [foldM] in E. apply bind_ok in E as ([ID1 LI1] & Hstep & E).
    apply layer_id_step_inv in Hstep.
    cbn [List.filter length].
    destruct (is_skipable_layer fmt x) eqn:Hskip; cbn [negb].
    + destruct Hstep as (-> & inp & i & _ & Hi & ->).
      destruct (IH _ _ _ _ E) as (HID & Hb & Hkeep & Hnew).
      { intros k j. destruct (decide (name x = k)) as [->|Hne].
        - rewrite lookup_insert_eq. intros [= <-]. eapply Hinv, Hi.
        - rewrite lookup_insert_ne by exact Hne. apply Hinv. }
      split; [exact HID|]. split; [exact Hb|]. split.
      * intros k Hk. apply Hkeep, Hins. right; exact Hk.
      * intros n Hn. apply elem_of_cons in Hn as [->|Hn]; [|auto].
        rewrite Hskip. apply Hkeep, Hins. left; reflexivity.
    + destruct Hstep as (-> & ->).
      destruct (IH _ _ _ _ E) as (HID & Hb & Hkeep & Hnew).
      { intros k j.
        destruct (decide (shift_name model (name x) = k)) as [->|Hne].
        - rewrite lookup_insert_eq. intros [= <-]. lia.
        - rewrite lookup_insert_ne by exact Hne.
          intros Hk. apply Hinv in Hk. lia. }
      split; [cbn [length]; lia|]. split; [exact Hb|]. split.
      * intros k Hk. apply Hkeep, Hins. right; exact Hk.
      * intros n Hn. apply elem_of_cons in Hn as [->|Hn]; [|auto].
        rewrite Hskip. apply Hkeep, Hins. left; reflexivity.
Qed.

(** X20: when the numbering loop of [generate_model] returns, [ID] is
    the number of the walked layers that are not skipped, every index
    held in [LI] is below [ID] (so the array [layer], declared with
    [ID + 1] entries, is large enough for every index the construction
    loop reads from [LI], and for the output layer put one behind the
    last index), and [LI] has an entry for every walked layer. *)
Theorem layer_ids_bounded (model : Model) (fmt : string) (ID : nat)
    (LI : gmap string nat) :
  layer_ids model fmt = inr (ID, LI) →
  ∃ model_layers,
    calib_layers model = inr model_layers
    ∧ ID = length (List.filter
                     (fun n => negb (is_skipable_layer fmt n)) model_layers)
    ∧ (∀ k i, LI !! k = Some i → (i < ID)%nat)
    ∧ (∀ n, n ∈ model_layers →
         is_Some (LI !! (if is_skipable_layer fmt n then name n
                         else shift_name model (name n)))).
Proof.
  unfold layer_ids. intros E.
  apply bind_ok in E as (model_layers & Hml & E).
  apply foldM_layer_id_step in E as (HID & Hb & _ & Hnew).
  - exists model_layers. split; [exact Hml|]. split; [exact HID|].
    split; assumption.
  - intros k i. rewrite lookup_empty. discriminate.
Qed.

Lemma layer_ids_bounded_witness :
  let model :=
    ex_model [ ex_layer "input_1" ["input_1"];
               ex_layer "conv2d" ["input_1"];
               ex_layer "dropout" ["conv2d/Relu:0"];
               ex_layer "dense" ["dropout/Identity:0"] ] in
  let LI : gmap string nat :=
    list_to_map [("input_1", 0%nat); ("conv2d", 1%nat); ("dropout", 1%nat);
                 ("dense", 2%nat)] in
  ∃ model_layers,
    calib_layers model = inr model_layers
    ∧ 3%nat = length (List.filter
                        (fun n => negb (is_skipable_layer "hwc" n))
                        model_layers)
    ∧ (∀ k i, LI !! k = Some i → (i < 3)%nat)
    ∧ (∀ n, n ∈ model_layers →
         is_Some (LI !! (if is_skipable_layer "hwc" n then name n
                         else shift_name model (name n)))).
Proof.
  cbv zeta. apply layer_ids_bounded. reflexivity.
Defined.

(** ** The width of the input buffer *)

Lemma foldM_input_size_step (shapes : list (list (option Z))) :
  ∀ (sizes : list Z) (mi : nat) sizes' mi',
    foldM input_size_step (sizes, mi)
      (imap (fun i => pair (length sizes + i)%nat) shapes)
      = inr (sizes', mi') →
    (sizes = [] ∧ mi = 0%nat
     ∨ ∃ m, sizes !! mi = Some m ∧ ∀ sz, sz ∈ sizes → sz ≤ m) →
    (∃ new, sizes' = (sizes ++ new)%list
            ∧ Forall2 (fun shape sz => shape_size shape = inr sz) shapes new)
    ∧ (sizes' = [] ∧ mi' = 0%nat
       ∨ ∃ m, sizes' !! mi' = Some m ∧ ∀ sz, sz ∈ sizes' → sz ≤ m).
Proof.
  induction shapes as [|shape shapes IH]; intros sizes mi sizes' mi' E Hinv.
  - apply mret_ok in E. injection E as <- <-. split; [|exact Hinv].
    exists []. split; [rewrite app_nil_r; reflexivity | constructor].
  - cbn [imap foldM] in E. apply bind_ok in E as ([s1 m1] & Hstep & E).
    unfold input_size_step in Hstep.
    apply bind_ok in Hstep as (sz & Hsz & Hstep).
    apply bind_ok in Hstep as (a & Ha & Hstep).
    apply bind_ok in Hstep as (b & Hb & Hstep).
    apply mret_ok in Hstep. injection Hstep as <- <-.
    assert (Ea : a = sz).
    { unfold list_item in Ha. rewrite Nat.add_0_r in Ha.
      rewrite lookup_app_r, Nat.sub_diag in Ha by lia.
      apply mret_ok in Ha; congruence. }
    subst a.
    assert (Hb' : (sizes ++ [sz])%list !! mi = Some b).
    { unfold list_item in Hb.
      destruct ((sizes ++ [sz])%list !! mi); [|discriminate].
      apply mret_ok in Hb; congruence. }
    rewrite (imap_ext _ (fun i => pair (length (sizes ++ [sz]) + i)%nat))
      in E.
    2:{ intros i x _. cbn. rewrite length_app. cbn. f_equal. lia. }
    apply IH in E as [(new & -> & Hnew) Hinv'].
    + split; [|exact Hinv'].
      exists (sz :: new). split; [rewrite <- app_assoc; reflexivity|].
      constructor; assumption.
    + right. destruct Hinv as [[-> ->]|(m & Hm & Hmax)].
      * cbn in Hb'. injection Hb' as <-. rewrite Z.ltb_irrefl.
        exists sz. split; [reflexivity|].
        intros x Hx. apply list_elem_of_singleton in Hx as ->. lia.
      * rewrite lookup_app_l in Hb' by (eapply lookup_lt_Some; eauto).
        assert (b = m) by congruence; subst b.
        destruct (Z.ltb_spec m sz) as [Hlt|Hge].
        -- exists sz. rewrite Nat.add_0_r.
           split; [rewrite lookup_app_r, Nat.sub_diag by lia; reflexivity|].
           intros x Hx. apply elem_of_app in Hx as [Hx|Hx].
           ++ apply Hmax in Hx. lia.
           ++ apply list_elem_of_singleton in Hx as ->. lia.
        -- exists m.
           split; [rewrite lookup_app_l by (eapply lookup_lt_Some; eauto);
                   exact Hm|].
           intros x Hx. apply elem_of_app in Hx as [Hx|Hx].
           ++ apply Hmax, Hx.
           ++ apply list_elem_of_singleton in Hx as ->. lia.
Qed.

(** X21: when the loop over the inputs of the model returns,
    [INPUT_LENGTHS] holds for each input the product of its dimensions
    behind the first one, and [IN_DATA_WIDTH] is the greatest of these
    lengths: each row of the buffer [nnom_input_data] is large enough
    for any of the inputs. *)
Theorem input_width_is_maximum (shapes : list (list (option Z)))
    (inp_sizes : list Z) (width : Z) :
  input_lengths shapes = inr (inp_sizes, width) →
  Forall2 (fun shape sz => shape_size shape = inr sz) shapes inp_sizes
  ∧ width ∈ inp_sizes
  ∧ ∀ sz, sz ∈ inp_sizes → sz ≤ width.
Proof.
  unfold input_lengths. intros E.
  apply bind_ok in E as ([sizes mi] & Hfold & E).
  apply bind_ok in E as (sz & _ & E).
  apply bind_ok in E as (w & Hw & E).
  apply mret_ok in E. injection E as <- <-.
  apply (foldM_input_size_step shapes [] 0%nat) in Hfold
    as [(new & -> & Hnew) Hinv]; [|left; split; reflexivity].
  cbn [app] in *. split; [exact Hnew|].
  unfold list_item in Hw.
  destruct (new !! mi) as [m|] eqn:Hm; [|discriminate].
  apply mret_ok in Hw; subst m.
  destruct Hinv as [[-> _]|(m & Hm' & Hmax)]; [discriminate|].
  assert (m = w) by congruence; subst m.
  split; [eapply list_elem_of_lookup_2; eauto | exact Hmax].
Qed.

Lemma input_width_is_maximum_witness :
  Forall2 (fun shape sz => shape_size shape = inr sz)
    [ [None; Some 28; Some 28; Some 1]; [None; Some 10] ] [784; 10]
  ∧ 784 ∈ [784; 10]
  ∧ ∀ sz, sz ∈ [784; 10] → sz ≤ 784.
Proof.
  apply input_width_is_maximum. reflexivity.
Defined.

(** ** The test set file *)

Lemma ceil_log2_unique (x : Q) (k : Z) :
  (2 ^ (k - 1) < x)%Q → (x <= 2 ^ k)%Q → ceil_log2 x = k.
Proof.
  intros Hlo Hhi.
  assert (Hx : (0 < x)%Q) by (eapply Qlt_trans; [apply pow2_pos | exact Hlo]).
  destruct (ceil_log2_spec x Hx) as [Hlo' Hhi'].
  assert (H1 : (2 ^ (k - 1) < 2 ^ ceil_log2 x)%Q)
    by (eapply Qlt_le_trans; eassumption).
  assert (H2 : (2 ^ (ceil_log2 x - 1) < 2 ^ k)%Q)
    by (eapply Qlt_le_trans; eassumption).
  apply Qpower_lt_compat_l_inv in H1; [|reflexivity].
  apply Qpower_lt_compat_l_inv in H2; [|reflexivity].
  lia.
Qed.

(** X22: the integer bits [generate_test_bin], [evaluate_model] and
    [show_weights] compute without the floor of [get_int_bits] have no
    value (the conversion to [int] raises) exactly when the data are all
    zero; when the greatest magnitude is at least [1e-10] they are those
    of [get_int_bits], so that the test data are written in the format
    calibration gives to an input fed with the same minimum and
    maximum. *)
Theorem unguarded_int_bits (min_value max_value : Q) :
  (int_bits_unguarded min_value max_value = None
   ↔ (min_value == 0)%Q ∧ (max_value == 0)%Q)
  ∧ ((tiny <= Qmax (Qabs min_value) (Qabs max_value))%Q →
     int_bits_unguarded min_value max_value
     = Some (get_int_bits min_value max_value)).
Proof.
  unfold int_bits_unguarded.
  set (m := Qmax (Qabs min_value) (Qabs max_value)).
  assert (Hm0 : (m == 0)%Q ↔ (min_value == 0)%Q ∧ (max_value == 0)%Q).
  { unfold m. split.
    - intros E.
      assert (H1 : (Qabs min_value <= 0)%Q)
        by (rewrite <- E; apply Q.le_max_l).
      assert (H2 : (Qabs max_value <= 0)%Q)
        by (rewrite <- E; apply Q.le_max_r).
      pose proof (Qabs_nonneg min_value). pose proof (Qabs_nonneg max_value).
      split; apply Qabs_Qle_condition in H1, H2; Lqa.lra.
    - intros [-> ->]. reflexivity. }
  split.
  - destruct (Qeq_bool m 0) eqn:E.
    + apply Qeq_bool_iff in E. split; [intros _; apply Hm0, E | reflexivity].
    + split; [discriminate|]. intros H. apply Hm0 in H.
      apply Qeq_bool_iff in H. congruence.
  - intros Htiny.
    assert (Hpos : (0 < m)%Q)
      by (eapply Qlt_le_trans; [|exact Htiny]; reflexivity).
    destruct (Qeq_bool m 0) eqn:E.
    { apply Qeq_bool_iff in E. rewrite E in Hpos. discriminate. }
    f_equal. unfold get_int_bits.
    destruct (ceil_log2_spec _ (max3_pos (Qabs min_value) (Qabs max_value)))
      as [Hlo Hhi].
    assert (Em : (max3 (Qabs min_value) (Qabs max_value) tiny == m)%Q).
    { unfold max3, m. rewrite Q.max_assoc. apply Q.max_l. exact Htiny. }
    apply ceil_log2_unique; rewrite <- Em; assumption.
Qed.

Lemma write_batches_eq (fuel : nat) (test_label dat : list Z)
    (block_size start : nat) (f : list Z) :
  write_batches fuel test_label dat block_size start f
  = if Z.of_nat start <=? Z.of_nat (length test_label) - Z.of_nat label_batch
    then
      match fuel with
      | O => None
      | S fuel' =>
          write_batches fuel' test_label dat block_size (start + label_batch)
            (f ++ slice test_label start (start + label_batch)
               ++ slice dat (block_size * start)
                    (block_size * (start + label_batch)))%list
      end
    else Some (start, f).
Proof. destruct fuel; reflexivity. Qed.

Lemma lookup_slice {A} (l : list A) (a b i : nat) :
  (i < b - a)%nat → slice l a b !! i = l !! (a + i)%nat.
Proof.
  intros Hi. unfold slice. rewrite lookup_take_lt by exact Hi.
  apply lookup_drop.
Qed.

Lemma length_slice {A} (l : list A) (a b : nat) :
  (b ≤ length l)%nat → length (slice l a b) = (b - a)%nat.
Proof.
  intros Hb. unfold slice. rewrite length_take, length_drop. lia.
Qed.

(** The loop of [generate_test_bin] ends for every input: the number of
    labels bounds the number of its iterations. *)
Lemma write_batches_total (fuel : nat) (test_label dat : list Z)
    (block_size : nat) :
  ∀ start f,
    (length test_label < start + 128 * (fuel + 1))%nat →
    is_Some (write_batches fuel test_label dat block_size start f).
Proof.
  induction fuel as [|fuel IH]; intros start f Hfuel;
    rewrite write_batches_eq; unfold label_batch;
    destruct (Z.leb_spec (Z.of_nat start)
                (Z.of_nat (length test_label) - Z.of_nat 128)) as [Hc|Hc];
    try lia; eauto.
  apply IH. lia.
Qed.

Lemma write_test_bin_total (test_label dat : list Z) (block_size : nat) :
  is_Some (write_test_bin test_label dat block_size).
Proof.
  unfold write_test_bin.
  destruct (write_batches_total (length test_label) test_label dat
              block_size 0 []) as [[start f] ->]; [lia|].
  cbn [mbind option_bind].
  destruct (start <? length test_label)%nat; eauto.
Qed.

Section Layout.

Variable test_label dat : list Z.
Variable block_size : nat.
Hypothesis Hdat : length dat = (block_size * length test_label)%nat.

Lemma write_batches_spec (fuel : nat) :
  ∀ k f,
    (128 * k ≤ length test_label)%nat →
    (length test_label < 128 * (k + fuel + 1))%nat →
    blocks_written test_label dat block_size k f →
    ∃ k' f',
      write_batches fuel test_label dat block_size (128 * k) f
        = Some ((128 * k')%nat, f')
      ∧ (128 * k' ≤ length test_label < 128 * k' + 128)%nat
      ∧ blocks_written test_label dat block_size k' f'.
Proof.
  induction fuel as [|fuel IH]; intros k f Hk Hfuel [Hlen Hinv];
    rewrite write_batches_eq; unfold label_batch;
    destruct (Z.leb_spec (Z.of_nat (128 * k))
                (Z.of_nat (length test_label) - Z.of_nat 128)) as [Hc|Hc];
    try lia.
  - exists k, f. split; [reflexivity|]. split; [lia|]. split; assumption.
  - replace (128 * k + 128)%nat with (128 * S k)%nat by lia.
    apply IH; [lia | lia |].
    assert (Hl1 : length (slice test_label (128 * k) (128 * S k)) = 128%nat)
      by (rewrite length_slice; lia).
    assert (Hl2 : length (slice dat (block_size * (128 * k))
                            (block_size * (128 * S k)))
                  = (128 * block_size)%nat)
      by (rewrite length_slice; nia).
    split; [rewrite !length_app, Hl1, Hl2, Hlen; lia|].
    intros k0 r Hk0 Hr.
    destruct (decide (k0 < k)%nat) as [Hlt|Hge].
    + assert (Hb : (k0 * (128 + 128 * block_size) + (128 + 128 * block_size) ≤ k * (128 + 128 * block_size))%nat) by nia.
      destruct (Hinv k0 r Hlt Hr) as [H1 H2]. split.
      * rewrite lookup_app_l by (lia). exact H1.
      * intros i Hi.
        rewrite lookup_app_l by (nia). apply H2, Hi.
    + assert (k0 = k) by lia; subst k0. split.
      * rewrite lookup_app_r by lia.
        replace (k * (128 + 128 * block_size) + r - length f)%nat with r by lia.
        rewrite lookup_app_l by lia.
        apply lookup_slice. lia.
      * intros i Hi.
        rewrite lookup_app_r by lia.
        replace (k * (128 + 128 * block_size) + 128 + r * block_size + i - length f)%nat
          with (128 + (r * block_size + i))%nat by lia.
        rewrite lookup_app_r by lia.
        rewrite Hl1, Nat.add_sub_swap, Nat.sub_diag by lia. cbn [Nat.add].
        rewrite lookup_slice by nia. f_equal. lia.
  - exists k, f. split; [reflexivity|]. split; [lia|]. split; assumption.
Qed.

(** X23: for as many labels as there are samples, the loop of
    [generate_test_bin] ends and writes a file made of blocks: block [k]
    holds the labels of the samples [128 k] to [128 k + 127], then the
    data of these samples, [block_size] values each; the last block
    holds the labels that are left, filled with zeros up to 128 entries,
    then the data that are left.  The file holds 128 labels per block
    and all the data. *)
Theorem test_bin_layout :
  ∃ f,
    write_test_bin test_label dat block_size = Some f
    ∧ length f
      = (128 * ((length test_label + 127) / 128) + length dat)%nat
    ∧ (∀ k r, (r < 128)%nat → (128 * k + r < length test_label)%nat →
         f !! (k * (128 + 128 * block_size) + r)%nat
         = test_label !! (128 * k + r)%nat
         ∧ ∀ i, (i < block_size)%nat →
             f !! (k * (128 + 128 * block_size) + 128 + r * block_size + i)%nat
             = dat !! ((128 * k + r) * block_size + i)%nat)
    ∧ (∀ k r, (r < 128)%nat → (128 * k < length test_label)%nat →
         (length test_label ≤ 128 * k + r)%nat →
         f !! (k * (128 + 128 * block_size) + r)%nat = Some 0).
Proof.
  unfold write_test_bin.
  destruct (write_batches_spec (length test_label) 0 [])
    as (k' & f' & Hloop & [Hlo Hhi] & Hlen & Hinv);
    [lia | lia | split; [reflexivity | intros; lia] |].
  change (128 * 0)%nat with 0%nat in Hloop. rewrite Hloop.
  cbn [mbind option_bind]. unfold label_batch.
  destruct (Nat.ltb_spec (128 * k') (length test_label)) as [Hrest|Hfull].
  - exists (f' ++ (drop (128 * k') test_label
                   ++ replicate (128 - (length test_label - 128 * k')) 0)
               ++ drop (block_size * (128 * k')) dat)%list.
    split; [reflexivity|].
    assert (Hl1 : length (drop (128 * k') test_label
                            ++ replicate (128 - (length test_label - 128 * k')) 0)%list
                  = 128%nat)
      by (rewrite length_app, length_drop, length_replicate; lia).
    assert (Hl2 : length (drop (block_size * (128 * k')) dat)
                  = (block_size * (length test_label - 128 * k'))%nat)
      by (rewrite length_drop; nia).
    split.
    { rewrite length_app, length_app, Hl1, Hl2, Hlen, Hdat.
      replace ((length test_label + 127) / 128)%nat with (S k').
      2:{ pose proof (Nat.div_mod_eq (length test_label + 127) 128).
          pose proof (Nat.mod_upper_bound (length test_label + 127) 128).
          lia. }
      rewrite Nat.mul_sub_distr_l.
      assert (block_size * (128 * k') ≤ block_size * length test_label)%nat
        by (apply Nat.mul_le_mono_l; lia).
      lia. }
    split.
    + intros k r Hr Hj.
      destruct (decide (k < k')%nat) as [Hlt|Hge].
      * assert (Hb : (k * (128 + 128 * block_size) + (128 + 128 * block_size) ≤ k' * (128 + 128 * block_size))%nat) by nia.
        destruct (Hinv k r Hlt Hr) as [H1 H2]. split.
        -- rewrite lookup_app_l by (lia). exact H1.
        -- intros i Hi.
           rewrite lookup_app_l by (nia). apply H2, Hi.
      * assert (k = k') by lia; subst k. split.
        -- rewrite lookup_app_r by lia.
           replace (k' * (128 + 128 * block_size) + r - length f')%nat with r by lia.
           rewrite lookup_app_l by lia.
           rewrite lookup_app_l by (rewrite length_drop; lia).
           apply lookup_drop.
        -- intros i Hi.
           rewrite lookup_app_r by lia.
           replace (k' * (128 + 128 * block_size) + 128 + r * block_size + i - length f')%nat
             with (128 + (r * block_size + i))%nat by lia.
           rewrite lookup_app_r by lia.
           rewrite Hl1, Nat.add_sub_swap, Nat.sub_diag by lia. cbn [Nat.add].
           rewrite lookup_drop. f_equal. lia.
    + intros k r Hr Hk Hpad.
      assert (k = k') by lia; subst k.
      rewrite lookup_app_r by lia.
      replace (k' * (128 + 128 * block_size) + r - length f')%nat with r by lia.
      rewrite lookup_app_l by lia.
      rewrite lookup_app_r by (rewrite length_drop; lia).
      apply lookup_replicate_2. rewrite length_drop. lia.
  - assert (Hn : length test_label = (128 * k')%nat) by lia.
    exists f'. split; [reflexivity|].
    split.
    { rewrite Hlen, Hdat, Hn.
      replace ((128 * k' + 127) / 128)%nat with k'; [lia|].
      pose proof (Nat.div_mod_eq (128 * k' + 127) 128).
      pose proof (Nat.mod_upper_bound (128 * k' + 127) 128).
      lia. }
    split.
    + intros k r Hr Hj. apply Hinv; [lia | exact Hr].
    + intros k r Hr Hk Hpad. lia.
Qed.

End Layout.

Lemma test_bin_layout_witness :
  ∃ f,
    write_test_bin [3; 1; 2] [10; 11; 20; 21; 30; 31] 2 = Some f
    ∧ length f = (128 * ((length [3; 1; 2] + 127) / 128)
                  + length [10; 11; 20; 21; 30; 31])%nat
    ∧ (∀ k r, (r < 128)%nat → (128 * k + r < length [3; 1; 2])%nat →
         f !! (k * (128 + 128 * 2) + r)%nat
         = [3; 1; 2] !! (128 * k + r)%nat
         ∧ ∀ i, (i < 2)%nat →
             f !! (k * (128 + 128 * 2) + 128 + r * 2 + i)%nat
             = [10; 11; 20; 21; 30; 31] !! ((128 * k + r) * 2 + i)%nat)
    ∧ (∀ k r, (r < 128)%nat → (128 * k < length [3; 1; 2])%nat →
         (length [3; 1; 2] ≤ 128 * k + r)%nat →
         f !! (k * (128 + 128 * 2) + r)%nat = Some 0).
Proof.
  apply (test_bin_layout [3; 1; 2] [10; 11; 20; 21; 30; 31] 2).
  reflexivity.
Defined.

(** ** Termination of the recursion *)

(** X24: on a well-formed graph, the call of
    [update_previous_layer_shift] for the layer at index [i] of
    [model.layers] returns with no more than [i + 1] nested calls (it
    raises no [RecursionError] while the limit is above [i]); it has then
    written [Qmin] to the entries of the nodes it reaches, and left every
    other entry as it was. *)
Theorem recursion_terminates (ls : list Layer) (sl : gmap string Z)
    (depth i : nat) (l : Layer) (Qmin : Z) (skip_input : bool)
    (shift_list : gmap string Z) :
  well_formed ls sl = true →
  ls !! i = Some l →
  (i < depth)%nat →
  ∃ shift_list',
    update_previous_layer_shift depth (make_layer_dict ls) l Qmin skip_input
      shift_list = inr shift_list'
    ∧ (∀ k, reached (make_layer_dict ls) skip_input l k →
         shift_list' !! k = Some Qmin)
    ∧ (∀ k, ¬ reached (make_layer_dict ls) skip_input l k →
         shift_list' !! k = shift_list !! k).
Proof.
  intros Hwf Hl Hi.
  destruct (visited_total ls sl depth Hwf i l skip_input Hl Hi) as [ks Hks].
  rewrite update_previous_layer_shift_visited, Hks.
  eexists. split; [reflexivity|]. split.
  - intros k Hk. apply lookup_write_all_in.
    apply (visited_reached _ _ _ _ _ Hks), Hk.
  - intros k Hk. apply lookup_write_all_notin.
    intros Hin. apply Hk, (visited_reached _ _ _ _ _ Hks), Hin.
Qed.

Lemma recursion_terminates_witness :
  let sl := table [("input_1", 7); ("max_pooling2d", 7); ("conv2d", 3);
                   ("add", 3)] in
  let l := ex_layer "add" ["max_pooling2d/MaxPool:0"; "conv2d/BiasAdd:0"] in
  ∃ shift_list',
    update_previous_layer_shift 4 (make_layer_dict pooled_skip) l 3 false sl
      = inr shift_list'
    ∧ (∀ k, reached (make_layer_dict pooled_skip) false l k →
         shift_list' !! k = Some 3)
    ∧ (∀ k, ¬ reached (make_layer_dict pooled_skip) false l k →
         shift_list' !! k = sl !! k).
Proof.
  cbv zeta.
  apply (recursion_terminates pooled_skip
           (table [("input_1", 7); ("max_pooling2d", 7); ("conv2d", 3);
                   ("add", 3)]) 4 3);
    first [reflexivity | lia].
Defined.

(** ** Several inputs *)

Section InputOrder.

Variable kld_divergence : list Q → Z → nat → result Q.
Variable predict : Model → Layer → xtest → list Q.

Lemma calib_step_inp_idx (model : Model) (x_test : xtest)
    (quantize_method : string) (st st' : calib_state) (layer : node) :
  calib_step kld_divergence predict model x_test quantize_method st layer
    = inr st' →
  inp_idx st' = if is_input_layer layer then S (inp_idx st) else inp_idx st.
Proof.
  unfold calib_step; intros E.
  apply bind_ok in E as (st1 & Hst1 & E).
  do 7 (apply bind_ok in E as (? & _ & E)).
  apply mret_ok in E; subst st'. cbn [inp_idx].
  destruct (is_input_layer layer).
  - apply bind_ok in Hst1 as (? & _ & Hst1).
    apply mret_ok in Hst1; subst st1. reflexivity.
  - apply bind_ok in Hst1 as (b & _ & Hst1).
    destruct (b || contains "batch_normalization" (name layer)).
    + destruct layer; [|discriminate].
      apply mret_ok in Hst1; subst st1. reflexivity.
    + apply mret_ok in Hst1; subst st1. reflexivity.
Qed.

Lemma foldM_calib_inp_idx (model : Model) (x_test : xtest)
    (quantize_method : string) (nodes : list node) :
  ∀ st st',
    foldM (calib_step kld_divergence predict model x_test quantize_method)
      st nodes = inr st' →
    inp_idx st'
    = (inp_idx st
       + length (List.filter (fun n : node => is_input_layer n) nodes))%nat.
Proof.
  induction nodes as [|x nodes IH]; intros st st' E.
  - apply mret_ok in E; subst. cbn. lia.
  - cbn [foldM] in E. apply bind_ok in E as (st1 & Hstep & E).
    apply IH in E. apply calib_step_inp_idx in Hstep.
    rewrite E, Hstep. cbn [List.filter].
    destruct (is_input_layer x); cbn [length]; lia.
Qed.

Lemma calib_step_input (model : Model) (arrays : list (list Q))
    (quantize_method : string) (st st' : calib_state) (layer : node) :
  is_input_layer layer = true →
  calib_step kld_divergence predict model (XList arrays) quantize_method
    st layer = inr st' →
  ∃ feats mn mx,
    arrays !! inp_idx st = Some feats
    ∧ np_min feats = inr mn
    ∧ np_max feats = inr mx
    ∧ shift_list st' !! shift_name model (name layer)
      = Some (7 - get_int_bits mn mx).
Proof.
  intros Hin E.
  pose proof (calib_step_inv _ _ _ _ _ _ _ _ E)
    as (feats & mn & mx & kld & d & Hf & _ & _ & Hmn & Hmx & Hkld & Hd & Ht).
  assert (Hkld' : kld = false).
  { unfold use_kld in Hkld. rewrite Hin in Hkld.
    destruct (contains "kld" quantize_method).
    - apply bind_ok in Hkld as (fixed & _ & Hkld).
      apply mret_ok in Hkld. subst kld. destruct fixed; reflexivity.
    - apply mret_ok in Hkld; congruence. }
  subst kld. apply mret_ok in Hd; subst d.
  assert (Harr : arrays !! inp_idx st = Some feats).
  { unfold calib_step in E. rewrite Hin in E.
    apply bind_ok in E as (st1 & Hst1 & E).
    apply bind_ok in Hst1 as (feats1 & Hfeats1 & Hst1).
    apply mret_ok in Hst1; subst st1. cbn [features] in E.
    apply bind_ok in E as (x & Hx & E). apply mret_ok in Hx; subst x.
    do 6 (apply bind_ok in E as (? & _ & E)).
    apply mret_ok in E; subst st'. cbn [features] in Hf.
    unfold list_item in Hfeats1.
    destruct (arrays !! inp_idx st); [|discriminate].
    apply mret_ok in Hfeats1. congruence. }
  exists feats, mn, mx. do 3 (split; [assumption|]).
  destruct (contains "batch_normalization" (name layer)).
  - destruct Ht as (last & _ & ->).
    destruct (decide (name last = shift_name model (name layer)))
      as [->|Hne].
    + apply lookup_insert_eq.
    + rewrite lookup_insert_ne by exact Hne. apply lookup_insert_eq.
  - rewrite Ht. apply lookup_insert_eq.
Qed.

(** X25: given a list of arrays, [make_initial_shift_list] calibrates
    the input layers on the arrays in the order in which it walks them:
    the input layer that has [k] input layers before it is measured on
    [x_test[k]], and is given [7 - get_int_bits min max] for that array,
    whatever the method. *)
Theorem inputs_paired_in_order (model : Model) (arrays : list (list Q))
    (quantize_method : string) (pre : list node) (layer : node)
    (st1 st2 : calib_state) :
  is_input_layer layer = true →
  foldM (calib_step kld_divergence predict model (XList arrays)
           quantize_method)
    {| features := None; shift_list := ∅; last_layer := None;
       inp_idx := 0 |} pre = inr st1 →
  calib_step kld_divergence predict model (XList arrays) quantize_method
    st1 layer = inr st2 →
  ∃ feats mn mx,
    arrays !! length (List.filter (fun n : node => is_input_layer n) pre)
    = Some feats
    ∧ np_min feats = inr mn
    ∧ np_max feats = inr mx
    ∧ shift_list st2 !! shift_name model (name layer)
      = Some (7 - get_int_bits mn mx).
Proof.
  intros Hin Hpre Hstep.
  apply foldM_calib_inp_idx in Hpre. cbn [inp_idx] in Hpre.
  rewrite Nat.add_0_l in Hpre. rewrite <- Hpre.
  eapply calib_step_input; eassumption.
Qed.

End InputOrder.

Lemma inputs_paired_in_order_witness :
  let model :=
    {| layers := [ ex_layer "input_1" ["input_1"];
                   ex_layer "input_2" ["input_2"] ];
       model_input := Multiple [ {| tensor_name := "input_1" |};
                                 {| tensor_name := "input_2" |} ];
       input_is_tf_tensor := false |} in
  let arrays := [ [-1; 1]; [-3; 5 # 2] ]%Q in
  let pre := [ NLayer (ex_layer "input_1" ["input_1"]) ] in
  let layer := NLayer (ex_layer "input_2" ["input_2"]) in
  let st2 := {| features := Some [-3; 5 # 2]%Q;
                shift_list := table [("input_1", 7); ("input_2", 5)];
                last_layer := Some layer; inp_idx := 2 |} in
  ∃ feats mn mx,
    arrays !! length (List.filter (fun n : node => is_input_layer n) pre)
    = Some feats
    ∧ np_min feats = inr mn
    ∧ np_max feats = inr mx
    ∧ shift_list st2 !! shift_name model (name layer)
      = Some (7 - get_int_bits mn mx).
Proof.
  cbv zeta.
  apply (inputs_paired_in_order ex_kld (ex_predict []) _ _ "max_min" _ _
           {| features := Some [-1; 1]%Q;
              shift_list := table [("input_1", 7)];
              last_layer := Some (NLayer (ex_layer "input_1" ["input_1"]));
              inp_idx := 1 |});
    reflexivity.
Defined.

(** ** Skipped layers *)

Lemma layer_id_step_key (model : Model) (fmt : string) (ID ID' : nat)
    (LI LI' : gmap string nat) (layer : node) :
  layer_id_step model fmt (ID, LI) layer = inr (ID', LI') →
  ∃ i, LI' = <[id_key model fmt layer := i]> LI.
Proof.
  intros E. apply layer_id_step_inv in E. unfold id_key.
  destruct (is_skipable_layer fmt layer).
  - destruct E as (_ & inp & i & _ & _ & ->). eauto.
  - destruct E as (_ & ->). eauto.
Qed.

Lemma foldM_layer_id_frame (model : Model) (fmt : string)
    (nodes : list node) :
  ∀ ID LI ID' LI' k,
    foldM (layer_id_step model fmt) (ID, LI) nodes = inr (ID', LI') →
    (∀ m, m ∈ nodes → id_key model fmt m ≠ k) →
    LI' !! k = LI !! k.
Proof.
  induction nodes as [|x nodes IH]; intros ID LI ID' LI' k E Hk.
  - apply mret_ok in E. injection E as <- <-. reflexivity.
  - cbn [foldM] in E. apply bind_ok in E as ([ID1 LI1] & Hstep & E).
    rewrite (IH _ _ _ _ k E) by (intros m Hm; apply Hk; right; exact Hm).
    apply layer_id_step_key in Hstep as [i ->].
    apply lookup_insert_ne, Hk. left.
Qed.

Lemma foldM_layer_id_dom (model : Model) (fmt : string)
    (nodes : list node) :
  ∀ ID LI ID' LI' k,
    foldM (layer_id_step model fmt) (ID, LI) nodes = inr (ID', LI') →
    is_Some (LI' !! k) →
    is_Some (LI !! k) ∨ ∃ m, m ∈ nodes ∧ id_key model fmt m = k.
Proof.
  induction nodes as [|x nodes IH]; intros ID LI ID' LI' k E Hk.
  - apply mret_ok in E. injection E as <- <-. left; exact Hk.
  - cbn [foldM] in E. apply bind_ok in E as ([ID1 LI1] & Hstep & E).
    destruct (IH _ _ _ _ k E Hk) as [H1|(m & Hm & Hkey)].
    + apply layer_id_step_key in Hstep as [i ->].
      destruct (decide (id_key model fmt x = k)) as [Heq|Hne].
      * right. exists x. split; [left | exact Heq].
      * rewrite lookup_insert_ne in H1 by exact Hne. left; exact H1.
    + right. exists m. split; [right; exact Hm | exact Hkey].
Qed.

(** X26: when the walked layers are entered in [LI] under distinct
    keys, the numbering loop of [generate_model] leaves a skipped layer (a
    dropout, a batch normalisation, a lambda, a flatten layer outside
    [chw]) with the index of the layer its input comes from: the layer
    behind a skipped layer is hooked to the layer in front of it. *)
Theorem skipped_layer_shares_index (model : Model) (fmt : string) (ID : nat)
    (LI : gmap string nat) (model_layers : list node) (n : node)
    (inp : string) :
  layer_ids model fmt = inr (ID, LI) →
  calib_layers model = inr model_layers →
  bool_decide (NoDup (id_key model fmt <$> model_layers)) = true →
  n ∈ model_layers →
  is_skipable_layer fmt n = true →
  input_iname n = inr inp →
  ∃ i, LI !! name n = Some i ∧ LI !! inp = Some i.
Proof.
  unfold layer_ids. intros E Hml Hnd Hn Hskip Hinp.
  rewrite Hml in E. cbn [mbind result_bind] in E.
  apply bool_decide_eq_true in Hnd.
  apply list_elem_of_split in Hn as (pre & post & ->).
  rewrite foldM_app in E. apply bind_ok in E as ([ID1 LI1] & Hpre & E).
  cbn [foldM] in E. apply bind_ok in E as ([ID2 LI2] & Hstep & Hpost).
  pose proof (layer_id_step_inv _ _ _ _ _ _ _ Hstep) as Hinv.
  rewrite Hskip in Hinv. destruct Hinv as (_ & inp' & i & Hinp' & Hi & ->).
  assert (inp' = inp) by congruence; subst inp'.
  rewrite fmap_app, fmap_cons in Hnd.
  apply NoDup_app in Hnd as (_ & Hdisj & Hnd).
  apply NoDup_cons in Hnd as [Hn_post _].
  assert (Hkey : id_key model fmt n = name n)
    by (unfold id_key; rewrite Hskip; reflexivity).
  exists i. split.
  - rewrite (foldM_layer_id_frame _ _ _ _ _ _ _ _ Hpost).
    + apply lookup_insert_eq.
    + intros m Hm Heq. apply Hn_post. rewrite Hkey, <- Heq.
      apply list_elem_of_fmap. eauto.
  - rewrite (foldM_layer_id_frame _ _ _ _ _ _ _ _ Hpost).
    + destruct (decide (name n = inp)) as [->|Hne];
        [apply lookup_insert_eq
        | rewrite lookup_insert_ne by exact Hne; exact Hi].
    + intros m Hm Heq.
      destruct (foldM_layer_id_dom _ _ _ _ _ _ _ inp Hpre
                  ltac:(rewrite Hi; eauto)) as [H0|(m0 & Hm0 & Hk0)].
      * rewrite lookup_empty in H0. destruct H0 as [? [=]].
      * apply (Hdisj inp).
        -- rewrite <- Hk0. apply list_elem_of_fmap. eauto.
        -- right. rewrite <- Heq. apply list_elem_of_fmap. eauto.
Qed.

Lemma skipped_layer_shares_index_witness :
  let LI : gmap string nat :=
    list_to_map [("input_1", 0%nat); ("conv2d", 1%nat); ("dropout", 1%nat);
                 ("dense", 2%nat)] in
  ∃ i, LI !! name (NLayer (ex_layer "dropout" ["conv2d/Relu:0"])) = Some i
       ∧ LI !! "conv2d" = Some i.
Proof.
  cbv zeta.
  apply (skipped_layer_shares_index
           (ex_model [ ex_layer "input_1" ["input_1"];
                       ex_layer "conv2d" ["input_1"];
                       ex_layer "dropout" ["conv2d/Relu:0"];
                       ex_layer "dense" ["dropout/Identity:0"] ])
           "hwc" 3
           (list_to_map [("input_1", 0%nat); ("conv2d", 1%nat);
                         ("dropout", 1%nat); ("dense", 2%nat)])
           (NLayer <$> [ ex_layer "input_1" ["input_1"];
                         ex_layer "conv2d" ["input_1"];
                         ex_layer "dropout" ["conv2d/Relu:0"];
                         ex_layer "dense" ["dropout/Identity:0"] ])).
  - reflexivity.
  - reflexivity.
  - reflexivity.
  - do 2 right; left.
  - reflexivity.
  - reflexivity.
Defined.
